(** * QuickRead: the RSVP playback engine of [quickread.py]

    A shallow embedding of the tokenizer, the ORP resolver, the flash
    composer and the timer-driven playback scheduler of [quickread.py],
    with the properties its specification states about them.

    Conventions of the embedding.
    - A Python [str] is a list of Unicode code points ([char := N]).
    - A Python [float] is an IEEE-754 binary64 number, [spec_float] with
      precision 53 and maximal exponent 1024, rounded to nearest even by the
      operations of [SpecFloat].
    - A Python [int] is a [Z]; string lengths and string indices, which the
      code never makes negative, are [nat].
    - A raised exception is [None] in the option monad. *)

From Stdlib Require Import String Ascii ZArith NArith List Bool Lia.
From Stdlib Require Import Floats.SpecFloat.
Import ListNotations.

Open Scope Z_scope.

(** ** Strings *)

Definition char := N.
Definition str := list char.

(** A Rocq string literal read as a Python string (one code point a byte,
    used for ASCII literals only). *)
Definition lit (s : string) : str := map N_of_ascii (list_ascii_of_string s).

Definition SPACE : char := 32%N.
Definition NEWLINE : char := 10%N.

(** [Py_UNICODE_ISSPACE]: the class of [str.strip()], [str.split()] and of
    the pattern [\s] on a [str]. *)
Definition isspace (c : char) : bool :=
  ((9 <=? c) && (c <=? 13) || (28 <=? c) && (c <=? 32) ||
   (c =? 133) || (c =? 160) || (c =? 5760) ||
   (8192 <=? c) && (c <=? 8202) ||
   (c =? 8232) || (c =? 8233) || (c =? 8239) || (c =? 8287) ||
   (c =? 12288))%N.

(** [str.lstrip()], [str.rstrip()] and [str.strip()] without argument. *)
Fixpoint lstrip (s : str) : str :=
  match s with
  | [] => []
  | c :: r => if isspace c then lstrip r else s
  end.

Fixpoint rstrip (s : str) : str :=
  match s with
  | [] => []
  | c :: r =>
      match rstrip r with
      | [] => if isspace c then [] else [c]
      | r' => c :: r'
      end
  end.

Definition strip (s : str) : str := lstrip (rstrip s).

(** [re.sub(r'\s+', ' ', s)]: every maximal run of whitespace becomes one
    space; [in_run] says that the previous character was part of the run
    being replaced. *)
Fixpoint sub_ws_from (in_run : bool) (s : str) : str :=
  match s with
  | [] => []
  | c :: r =>
      if isspace c
      then (if in_run then sub_ws_from true r else SPACE :: sub_ws_from true r)
      else c :: sub_ws_from false r
  end.

Definition sub_ws (s : str) : str := sub_ws_from false s.

(** [str.split()] without argument: the maximal runs of non-whitespace, in
    order; [w] is the unit being scanned. *)
Fixpoint split_from (w : str) (s : str) : list str :=
  match s with
  | [] => match w with [] => [] | _ => [w] end
  | c :: r =>
      if isspace c
      then match w with [] => split_from [] r | _ => w :: split_from [] r end
      else split_from (w ++ [c]) r
  end.

Definition split (s : str) : list str := split_from [] s.

(** [sep.join(ws)]. *)
Fixpoint join (sep : str) (ws : list str) : str :=
  match ws with
  | [] => []
  | w :: rest =>
      match rest with
      | [] => w
      | _ => w ++ sep ++ join sep rest
      end
  end.

(** [re.search(r'[...]$', w)] for a character class [cls]: [$] matches at
    the end of the string and also just before a newline that ends it. *)
Fixpoint search_class_at_end (cls : char -> bool) (w : str) : bool :=
  match w with
  | [] => false
  | c :: r =>
      match r with
      | [] => cls c
      | d :: r' =>
          match r' with
          | [] => cls c && (d =? NEWLINE)%N || cls d
          | _ => search_class_at_end cls r
          end
      end
  end.

(** The classes [[.!?]] and [[,;:]]. *)
Definition period_class (c : char) : bool :=
  ((c =? 46) || (c =? 33) || (c =? 63))%N.

Definition comma_class (c : char) : bool :=
  ((c =? 44) || (c =? 59) || (c =? 58))%N.

(** ** Floats *)

Definition float := spec_float.

Definition prec := 53.
Definition emax := 1024.

Definition fmul : float -> float -> float := SFmul prec emax.
Definition fltb : float -> float -> bool := SFltb.

(** [float(z)], correctly rounded. *)
Definition float_of_Z (z : Z) : float := binary_normalize prec emax z 0 false.

(** The constants of the module. *)
Definition COMMA_DELAY_MULTIPLIER : float := S754_finite false 6755399441055744 (-52).
Definition PERIOD_DELAY_MULTIPLIER : float := S754_finite false 4503599627370496 (-51).
Definition MULTI_WORD_DELAY_MULTIPLIER : float := S754_finite false 5404319552844595 (-52).
Definition ONE : float := S754_finite false 4503599627370496 (-52).

(** ** Tokenizer *)

Record token := { word : str; delay_multiplier : float }.

(** The body of the loop of [tokenize_text] for one raw word: [None] when
    the word is skipped. *)
Definition tokenize_word (w : str) : option token :=
  match w with
  | [] => None
  | _ =>
      let m :=
        if search_class_at_end period_class w then PERIOD_DELAY_MULTIPLIER
        else if search_class_at_end comma_class w then COMMA_DELAY_MULTIPLIER
        else ONE in
      match strip w with
      | [] => None
      | clean_word => Some {| word := clean_word; delay_multiplier := m |}
      end
  end.

Fixpoint tokenize_words (raw_words : list str) : list token :=
  match raw_words with
  | [] => []
  | w :: rest =>
      match tokenize_word w with
      | Some t => t :: tokenize_words rest
      | None => tokenize_words rest
      end
  end.

Definition tokenize_text (text : str) : list token :=
  let text := sub_ws (strip text) in
  match text with
  | [] => []
  | _ => tokenize_words (split text)
  end.

(** [len(l)] as a Python [int]. *)
Definition len {A : Type} (l : list A) : Z := Z.of_nat (length l).

(** [l[i:j]] for integers [i] and [j]: a negative bound counts from the end,
    and both bounds are cut to [0 .. len(l)]. *)
Definition slice_bound (n i : Z) : Z :=
  if i <? 0 then Z.max 0 (i + n) else Z.min i n.

Definition py_slice {A : Type} (l : list A) (i j : Z) : list A :=
  let i' := slice_bound (len l) i in
  let j' := slice_bound (len l) j in
  firstn (Z.to_nat (j' - i')) (skipn (Z.to_nat i') l).

(** The option monad of raised exceptions. *)
Definition bind {A B : Type} (m : option A) (k : A -> option B) : option B :=
  match m with
  | Some a => k a
  | None => None
  end.

Notation "x <- m ;; k" := (bind m (fun x => k))
  (at level 61, m at next level, right associativity).

(** [a / b] on two [int]s: the correctly rounded quotient;
    [ZeroDivisionError] when [b] is zero and [OverflowError] when the
    quotient is too large for a float. *)
Definition py_truediv (a b : Z) : option float :=
  if b =? 0 then None
  else if a =? 0 then Some (S754_zero (b <? 0))
  else
    let '(q, e, l) := SFdiv_core_binary prec emax (Z.abs a) 0 (Z.abs b) 0 in
    match binary_round_aux prec emax (xorb (a <? 0) (b <? 0)) q e l with
    | S754_infinity _ | S754_nan => None
    | f => Some f
    end.

(** [int(f)]: truncation toward zero; [OverflowError] on an infinity and
    [ValueError] on a NaN. *)
Definition int_of_float (f : float) : option Z :=
  match f with
  | S754_zero _ => Some 0
  | S754_finite s m e => Some (cond_Zopp s (Z.shiftl (Zpos m) e))
  | S754_infinity _ | S754_nan => None
  end.

(** [max(xs)] on floats: the first maximal element; [ValueError] on an
    empty sequence. *)
Fixpoint max_from (m : float) (xs : list float) : float :=
  match xs with
  | [] => m
  | x :: r => max_from (if fltb m x then x else m) r
  end.

Definition py_max (xs : list float) : option float :=
  match xs with
  | [] => None
  | x :: r => Some (max_from x r)
  end.

(** ** Constants *)

Definition DEFAULT_WPM := 300.
Definition MIN_WPM := 100.
Definition MAX_WPM := 1000.
Definition WPM_STEP := 25.
Definition DEFAULT_WORDS_PER_FLASH := 1.
Definition MAX_WORDS_PER_FLASH := 5.
Definition DEFAULT_FONT_SIZE := 48.
Definition MIN_FONT_SIZE := 24.
Definition MAX_FONT_SIZE := 96.
Definition REWIND_WORDS := 10.
Definition FORWARD_WORDS := 10.

(** The completion message, a check mark (U+2713) followed by [" Done!"]. *)
Definition DONE_MESSAGE : str := 10003%N :: lit " Done!".

(** ** The ORP display widget *)

(** The colour of the ORP label: the highlight colour of a fixation
    character or the colour of a message. *)
Inductive orp_color := HighlightRed | MessageCyan.

Record display := {
  left_label : str;
  orp_label : str;
  right_label : str;
  orp_style : orp_color
}.

Definition clear (d : display) : display :=
  {| left_label := []; orp_label := []; right_label := [];
     orp_style := HighlightRed |}.

Definition display_message (message : str) (d : display) : display :=
  {| left_label := []; orp_label := message; right_label := [];
     orp_style := MessageCyan |}.

Definition set_labels (l o r : str) (d : display) : display :=
  {| left_label := l; orp_label := o; right_label := r;
     orp_style := orp_style d |}.

(** [update_font] sets the fonts and the style sheets of the three labels.
    Fonts and sizes are not part of the model; of the style sheets the
    model holds the colour of the ORP label, which [update_font] sets to
    the highlight colour. *)
Definition update_font (d : display) : display :=
  {| left_label := left_label d; orp_label := orp_label d;
     right_label := right_label d; orp_style := HighlightRed |}.

(** [set_font_size]: the size goes to the fonts, then [update_font]. *)
Definition set_font_size (size : Z) (d : display) : display := update_font d.

(** [w[i]] guarded by [i < len(w)], the empty string otherwise. *)
Definition char_at (w : str) (i : nat) : str :=
  if (i <? length w)%nat
  then match nth_error w i with Some c => [c] | None => [] end
  else [].

Section Engine.

(** The Unicode database is not part of the program: beyond ASCII, the
    alphanumeric class of [\w] is a parameter. *)
Variable unicode_alnum : char -> bool.

(** The class [\w] of a [str] pattern: alphanumeric or underscore. *)
Definition is_word (c : char) : bool :=
  (if c <? 128
   then (48 <=? c) && (c <=? 57) || (65 <=? c) && (c <=? 90) ||
        (c =? 95) || (97 <=? c) && (c <=? 122)
   else unicode_alnum c)%N.

(** [re.sub(r'[^\w]', '', word)]. *)
Definition letters_only (word : str) : str := filter is_word word.

Definition orp_rank (n : nat) : nat :=
  if (n <=? 1)%nat then 0
  else if (n <=? 5)%nat then 1
  else if (n <=? 9)%nat then 2
  else if (n <=? 13)%nat then 3
  else (n / 4)%nat.

Definition calculate_orp_index (word : str) : nat :=
  orp_rank (length (letters_only word)).

(** The loop of [find_orp_in_word]: [i] is the index of the head of [w] in
    the word and [letter_count] the word characters seen before it. *)
Fixpoint find_orp_loop (orp_letter_index i letter_count : nat) (w : str) : nat :=
  match w with
  | [] => 0%nat
  | c :: r =>
      if is_word c
      then if (letter_count =? orp_letter_index)%nat then i
           else find_orp_loop orp_letter_index (S i) (S letter_count) r
      else find_orp_loop orp_letter_index (S i) letter_count r
  end.

Definition find_orp_in_word (word : str) : nat :=
  find_orp_loop (calculate_orp_index word) 0 0 word.

Definition display_word (word : str) (d : display) : display :=
  match word with
  | [] => clear d
  | _ =>
      let orp_index := find_orp_in_word word in
      let left_part := if (0 <? orp_index)%nat then firstn orp_index word else [] in
      let orp_char := char_at word orp_index in
      let right_part :=
        if (orp_index + 1 <? length word)%nat then skipn (orp_index + 1) word else [] in
      set_labels left_part orp_char right_part d
  end.

Definition display_phrase (words : list str) (d : display) : display :=
  match words with
  | [] => clear d
  | [w] => display_word w d
  | _ =>
      let middle_idx := (length words / 2)%nat in
      let middle_word := nth middle_idx words [] in
      let orp_index := find_orp_in_word middle_word in
      let left_words := firstn middle_idx words in
      let left_part_middle :=
        if (0 <? orp_index)%nat then firstn orp_index middle_word else [] in
      let left_text := join [SPACE] left_words in
      let left_text :=
        match left_text, left_part_middle with
        | _ :: _, _ :: _ => left_text ++ [SPACE] ++ left_part_middle
        | _, _ :: _ => left_part_middle
        | _, [] => left_text
        end in
      let orp_char := char_at middle_word orp_index in
      let right_part_middle :=
        if (orp_index + 1 <? length middle_word)%nat
        then skipn (orp_index + 1) middle_word else [] in
      let right_words := skipn (middle_idx + 1) words in
      let right_text := right_part_middle in
      let right_text :=
        match right_text, right_words with
        | _ :: _, _ :: _ => right_text ++ [SPACE] ++ join [SPACE] right_words
        | _, _ :: _ => join [SPACE] right_words
        | _, [] => right_text
        end in
      set_labels left_text orp_char right_text d
  end.

(** ** The application state *)

(** The message boxes of [start_reading]. *)
Inductive warning := NoText | NoWords.

(** The fields of [QuickReadApp] that the playback engine reads or writes.
    [timer] is the interval of the running [QTimer], [None] when it is
    stopped; [view] is the current index of the stacked widget; [warnings]
    are the message boxes shown so far, the latest first.  The status, time
    and word-count labels, the play button, the two speed sliders (which
    mirror [wpm]) and the font size are written and never read back by the
    engine: they are left out. *)
Record QuickReadApp := {
  tokens : list token;
  current_index : Z;
  is_playing : bool;
  is_paused : bool;
  wpm : Z;
  words_per_flash : Z;
  is_fullscreen : bool;
  timer : option Z;
  orp_display : display;
  progress_bar : Z;
  text_input : str;
  view : Z;
  warnings : list warning
}.

Definition set_tokens (v : list token) (s : QuickReadApp) : QuickReadApp :=
  {| tokens := v; current_index := current_index s; is_playing := is_playing s;
     is_paused := is_paused s; wpm := wpm s; words_per_flash := words_per_flash s;
     is_fullscreen := is_fullscreen s; timer := timer s;
     orp_display := orp_display s; progress_bar := progress_bar s;
     text_input := text_input s; view := view s; warnings := warnings s |}.

Definition set_current_index (v : Z) (s : QuickReadApp) : QuickReadApp :=
  {| tokens := tokens s; current_index := v; is_playing := is_playing s;
     is_paused := is_paused s; wpm := wpm s; words_per_flash := words_per_flash s;
     is_fullscreen := is_fullscreen s; timer := timer s;
     orp_display := orp_display s; progress_bar := progress_bar s;
     text_input := text_input s; view := view s; warnings := warnings s |}.

Definition set_is_playing (v : bool) (s : QuickReadApp) : QuickReadApp :=
  {| tokens := tokens s; current_index := current_index s; is_playing := v;
     is_paused := is_paused s; wpm := wpm s; words_per_flash := words_per_flash s;
     is_fullscreen := is_fullscreen s; timer := timer s;
     orp_display := orp_display s; progress_bar := progress_bar s;
     text_input := text_input s; view := view s; warnings := warnings s |}.

Definition set_is_paused (v : bool) (s : QuickReadApp) : QuickReadApp :=
  {| tokens := tokens s; current_index := current_index s; is_playing := is_playing s;
     is_paused := v; wpm := wpm s; words_per_flash := words_per_flash s;
     is_fullscreen := is_fullscreen s; timer := timer s;
     orp_display := orp_display s; progress_bar := progress_bar s;
     text_input := text_input s; view := view s; warnings := warnings s |}.

Definition set_wpm (v : Z) (s : QuickReadApp) : QuickReadApp :=
  {| tokens := tokens s; current_index := current_index s; is_playing := is_playing s;
     is_paused := is_paused s; wpm := v; words_per_flash := words_per_flash s;
     is_fullscreen := is_fullscreen s; timer := timer s;
     orp_display := orp_display s; progress_bar := progress_bar s;
     text_input := text_input s; view := view s; warnings := warnings s |}.

Definition set_words_per_flash (v : Z) (s : QuickReadApp) : QuickReadApp :=
  {| tokens := tokens s; current_index := current_index s; is_playing := is_playing s;
     is_paused := is_paused s; wpm := wpm s; words_per_flash := v;
     is_fullscreen := is_fullscreen s; timer := timer s;
     orp_display := orp_display s; progress_bar := progress_bar s;
     text_input := text_input s; view := view s; warnings := warnings s |}.

Definition set_is_fullscreen (v : bool) (s : QuickReadApp) : QuickReadApp :=
  {| tokens := tokens s; current_index := current_index s; is_playing := is_playing s;
     is_paused := is_paused s; wpm := wpm s; words_per_flash := words_per_flash s;
     is_fullscreen := v; timer := timer s;
     orp_display := orp_display s; progress_bar := progress_bar s;
     text_input := text_input s; view := view s; warnings := warnings s |}.

Definition set_timer (v : option Z) (s : QuickReadApp) : QuickReadApp :=
  {| tokens := tokens s; current_index := current_index s; is_playing := is_playing s;
     is_paused := is_paused s; wpm := wpm s; words_per_flash := words_per_flash s;
     is_fullscreen := is_fullscreen s; timer := v;
     orp_display := orp_display s; progress_bar := progress_bar s;
     text_input := text_input s; view := view s; warnings := warnings s |}.

Definition set_orp_display (v : display) (s : QuickReadApp) : QuickReadApp :=
  {| tokens := tokens s; current_index := current_index s; is_playing := is_playing s;
     is_paused := is_paused s; wpm := wpm s; words_per_flash := words_per_flash s;
     is_fullscreen := is_fullscreen s; timer := timer s;
     orp_display := v; progress_bar := progress_bar s;
     text_input := text_input s; view := view s; warnings := warnings s |}.

Definition set_progress_bar (v : Z) (s : QuickReadApp) : QuickReadApp :=
  {| tokens := tokens s; current_index := current_index s; is_playing := is_playing s;
     is_paused := is_paused s; wpm := wpm s; words_per_flash := words_per_flash s;
     is_fullscreen := is_fullscreen s; timer := timer s;
     orp_display := orp_display s; progress_bar := v;
     text_input := text_input s; view := view s; warnings := warnings s |}.

Definition set_text_input (v : str) (s : QuickReadApp) : QuickReadApp :=
  {| tokens := tokens s; current_index := current_index s; is_playing := is_playing s;
     is_paused := is_paused s; wpm := wpm s; words_per_flash := words_per_flash s;
     is_fullscreen := is_fullscreen s; timer := timer s;
     orp_display := orp_display s; progress_bar := progress_bar s;
     text_input := v; view := view s; warnings := warnings s |}.

Definition set_view (v : Z) (s : QuickReadApp) : QuickReadApp :=
  {| tokens := tokens s; current_index := current_index s; is_playing := is_playing s;
     is_paused := is_paused s; wpm := wpm s; words_per_flash := words_per_flash s;
     is_fullscreen := is_fullscreen s; timer := timer s;
     orp_display := orp_display s; progress_bar := progress_bar s;
     text_input := text_input s; view := v; warnings := warnings s |}.

Definition add_warning (v : warning) (s : QuickReadApp) : QuickReadApp :=
  {| tokens := tokens s; current_index := current_index s; is_playing := is_playing s;
     is_paused := is_paused s; wpm := wpm s; words_per_flash := words_per_flash s;
     is_fullscreen := is_fullscreen s; timer := timer s;
     orp_display := orp_display s; progress_bar := progress_bar s;
     text_input := text_input s; view := view s; warnings := v :: warnings s |}.

(** [QProgressBar.setValue] on a bar of range 0 to 100: a value outside the
    range is ignored. *)
Definition progress_bar_setValue (v : Z) (s : QuickReadApp) : QuickReadApp :=
  if (0 <=? v) && (v <=? 100) then set_progress_bar v s else s.

(** [QTimer.stop] and [QTimer.start(msec)]. *)
Definition timer_stop (s : QuickReadApp) : QuickReadApp := set_timer None s.
Definition timer_start (msec : Z) (s : QuickReadApp) : QuickReadApp := set_timer (Some msec) s.

(** ** Event handlers *)

(** [update_estimate] and [update_time_estimate] write labels only; what is
    kept of them is the [ZeroDivisionError] of their two divisions. *)
Definition update_estimate (s : QuickReadApp) : option QuickReadApp :=
  let words := match strip (text_input s) with
               | [] => 0
               | _ => len (split (text_input s))
               end in
  if words =? 0 then Some s
  else if words_per_flash s =? 0 then None
  else if wpm s =? 0 then None
  else Some s.

Definition update_time_estimate (s : QuickReadApp) : option QuickReadApp :=
  match tokens s with
  | [] => Some s
  | _ =>
      if words_per_flash s =? 0 then None
      else if wpm s =? 0 then None
      else Some s
  end.

Definition on_wpm_changed (value : Z) (s : QuickReadApp) : option QuickReadApp :=
  update_estimate (set_wpm value s).

Definition on_reading_wpm_changed (value : Z) (s : QuickReadApp) : option QuickReadApp :=
  update_time_estimate (set_wpm value s).

(** [increase_wpm] and [decrease_wpm]; the [setValue] of the two sliders
    echoes the new speed, which is already in [wpm]. *)
Definition increase_wpm (s : QuickReadApp) : QuickReadApp :=
  let new_wpm := Z.min (wpm s + WPM_STEP) MAX_WPM in
  set_wpm new_wpm s.

Definition decrease_wpm (s : QuickReadApp) : QuickReadApp :=
  let new_wpm := Z.max (wpm s - WPM_STEP) MIN_WPM in
  set_wpm new_wpm s.

(** The item data of the words-per-flash combo box,
    [range(1, MAX_WORDS_PER_FLASH + 1)]. *)
Definition wpf_combo_items : list Z :=
  map Z.of_nat (seq 1 (Z.to_nat MAX_WORDS_PER_FLASH)).

(** [on_wpf_changed], given the data of the current item. *)
Definition on_wpf_changed (current_data : Z) (s : QuickReadApp) : option QuickReadApp :=
  update_estimate (set_words_per_flash current_data s).

(** [on_font_size_changed], given the value of the font slider: the size is
    handed to the display by [update_display_font]. *)
Definition update_display_font (font_size : Z) (s : QuickReadApp) : QuickReadApp :=
  set_orp_display (set_font_size font_size (orp_display s)) s.

Definition on_font_size_changed (value : Z) (s : QuickReadApp) : QuickReadApp :=
  update_display_font value s.

(** [textChanged] of the text box: [update_word_count]. *)
Definition update_word_count (s : QuickReadApp) : option QuickReadApp := update_estimate s.

Definition toggle_fullscreen (s : QuickReadApp) : QuickReadApp :=
  set_is_fullscreen (negb (is_fullscreen s)) s.

Definition show_reading_view (s : QuickReadApp) : QuickReadApp := set_view 1 s.

(** ** Reading control *)

Definition update_progress (s : QuickReadApp) : option QuickReadApp :=
  match tokens s with
  | [] => Some s
  | _ =>
      q <- py_truediv (current_index s) (len (tokens s)) ;;
      let progress := fmul q (float_of_Z 100) in
      v <- int_of_float progress ;;
      Some (progress_bar_setValue v s)
  end.

(** The display of a flash, shared by [show_current_word] and
    [display_next_word]. *)
Definition show_words (words : list str) (s : QuickReadApp) : QuickReadApp :=
  match words with
  | [w] => set_orp_display (display_word w (orp_display s)) s
  | _ => set_orp_display (display_phrase words (orp_display s)) s
  end.

Definition show_current_word (s : QuickReadApp) : QuickReadApp :=
  if current_index s >=? len (tokens s) then s
  else
    let end_index := Z.min (current_index s + words_per_flash s) (len (tokens s)) in
    let flash_tokens := py_slice (tokens s) (current_index s) end_index in
    let words := map word flash_tokens in
    show_words words s.

Definition display_next_word (s : QuickReadApp) : option QuickReadApp :=
  if current_index s >=? len (tokens s) then
    let s := timer_stop s in
    let s := set_is_playing false s in
    let s := set_orp_display (display_message DONE_MESSAGE (orp_display s)) s in
    let s := progress_bar_setValue 100 s in
    Some s
  else
    let end_index := Z.min (current_index s + words_per_flash s) (len (tokens s)) in
    let flash_tokens := py_slice (tokens s) (current_index s) end_index in
    let words := map word flash_tokens in
    max_delay_multiplier <- py_max (map delay_multiplier flash_tokens) ;;
    let s := show_words words s in
    let s := set_current_index end_index s in
    s <- update_progress s ;;
    s <- update_time_estimate s ;;
    base_delay <- py_truediv 60000 (wpm s) ;;
    let delay := fmul base_delay max_delay_multiplier in
    let delay :=
      if words_per_flash s >? 1 then fmul delay MULTI_WORD_DELAY_MULTIPLIER
      else delay in
    msec <- int_of_float delay ;;
    Some (timer_start msec s).

Definition resume_reading (s : QuickReadApp) : option QuickReadApp :=
  let s := if current_index s >=? len (tokens s) then set_current_index 0 s else s in
  let s := set_is_playing true s in
  let s := set_is_paused false s in
  display_next_word s.

Definition pause_reading (s : QuickReadApp) : QuickReadApp :=
  let s := timer_stop s in
  let s := set_is_playing false s in
  set_is_paused true s.

Definition toggle_play_pause (s : QuickReadApp) : option QuickReadApp :=
  match tokens s with
  | [] => Some s
  | _ => if is_playing s then Some (pause_reading s) else resume_reading s
  end.

Definition stop_reading (s : QuickReadApp) : QuickReadApp :=
  let s := timer_stop s in
  let s := set_is_playing false s in
  let s := set_is_paused false s in
  let s := set_current_index 0 s in
  let s := set_orp_display (clear (orp_display s)) s in
  progress_bar_setValue 0 s.

Definition show_input_view (s : QuickReadApp) : QuickReadApp :=
  let s := stop_reading s in
  let s := set_view 0 s in
  if is_fullscreen s then toggle_fullscreen s else s.

Definition on_escape (s : QuickReadApp) : QuickReadApp :=
  if is_fullscreen s then toggle_fullscreen s
  else if is_playing s then pause_reading s
  else s.

Definition start_reading (s : QuickReadApp) : option QuickReadApp :=
  let text := strip (text_input s) in
  match text with
  | [] => Some (add_warning NoText s)
  | _ =>
      let s := set_tokens (tokenize_text text) s in
      match tokens s with
      | [] => Some (add_warning NoWords s)
      | _ =>
          let s := set_current_index 0 s in
          let s := set_is_playing false s in
          let s := set_is_paused false s in
          let s := progress_bar_setValue 0 s in
          let s := set_orp_display (clear (orp_display s)) s in
          s <- update_time_estimate s ;;
          let s := show_reading_view s in
          toggle_play_pause s
      end
  end.

Definition seek_amount (s : QuickReadApp) : Z :=
  Z.max REWIND_WORDS (len (tokens s) / 20) * words_per_flash s.

Definition rewind (s : QuickReadApp) : option QuickReadApp :=
  match tokens s with
  | [] => Some s
  | _ =>
      let rewind_amount := Z.max REWIND_WORDS (len (tokens s) / 20) in
      let rewind_amount := rewind_amount * words_per_flash s in
      let s := set_current_index (Z.max 0 (current_index s - rewind_amount)) s in
      s <- update_progress s ;;
      s <- update_time_estimate s ;;
      if is_playing s then display_next_word (timer_stop s)
      else Some (show_current_word s)
  end.

Definition forward (s : QuickReadApp) : option QuickReadApp :=
  match tokens s with
  | [] => Some s
  | _ =>
      let forward_amount := Z.max FORWARD_WORDS (len (tokens s) / 20) in
      let forward_amount := forward_amount * words_per_flash s in
      let s := set_current_index
                 (Z.min (len (tokens s) - 1) (current_index s + forward_amount)) s in
      s <- update_progress s ;;
      s <- update_time_estimate s ;;
      if is_playing s then display_next_word (timer_stop s)
      else Some (show_current_word s)
  end.

(** The state built by [__init__], which ends with [show_input_view]. *)
Definition init : QuickReadApp :=
  show_input_view
    {| tokens := []; current_index := 0; is_playing := false; is_paused := false;
       wpm := DEFAULT_WPM; words_per_flash := DEFAULT_WORDS_PER_FLASH;
       is_fullscreen := false; timer := None;
       orp_display := {| left_label := []; orp_label := []; right_label := [];
                         orp_style := HighlightRed |};
       progress_bar := 0; text_input := []; view := 0; warnings := [] |}.

End Engine.

(** ** The word count and the time labels *)

(** [float / float]. *)
Definition fdiv : float -> float -> float := SFdiv prec emax.

(** The literal [1.2] of the two estimates. *)
Definition AVERAGE_MULTIPLIER : float := S754_finite false 5404319552844595 (-52).

(** The number [update_word_count] and [update_estimate] compute from the
    text box: [len(text.split()) if text.strip() else 0]. *)
Definition count_words (text : str) : Z :=
  match strip text with
  | [] => 0
  | _ => len (split text)
  end.

(** What a time label shows: dashes, or minutes and seconds. *)
Inductive time_text := Dashes | MinSec (minutes seconds : Z).

(** [update_estimate] in full: the text it gives the estimate label of the
    input view. *)
Definition estimate_label (s : QuickReadApp) : option time_text :=
  let words := count_words (text_input s) in
  if words =? 0 then Some Dashes
  else
    flashes <- py_truediv words (words_per_flash s) ;;
    base_delay_ms <- py_truediv 60000 (wpm s) ;;
    let avg_delay := fmul base_delay_ms AVERAGE_MULTIPLIER in
    let avg_delay :=
      if words_per_flash s >? 1 then fmul avg_delay MULTI_WORD_DELAY_MULTIPLIER
      else avg_delay in
    let total_ms := fmul flashes avg_delay in
    total_seconds <- int_of_float (fdiv total_ms (float_of_Z 1000)) ;;
    let minutes := total_seconds / 60 in
    let seconds := total_seconds mod 60 in
    Some (MinSec minutes seconds).

(** [update_time_estimate] in full: the text it gives the time label of the
    reading view. *)
Definition time_label (s : QuickReadApp) : option time_text :=
  match tokens s with
  | [] => Some Dashes
  | _ =>
      let remaining_words := len (tokens s) - current_index s in
      remaining_flashes <- py_truediv remaining_words (words_per_flash s) ;;
      base_delay_ms <- py_truediv 60000 (wpm s) ;;
      let avg_delay := fmul base_delay_ms AVERAGE_MULTIPLIER in
      let avg_delay :=
        if words_per_flash s >? 1 then fmul avg_delay MULTI_WORD_DELAY_MULTIPLIER
        else avg_delay in
      let remaining_ms := fmul remaining_flashes avg_delay in
      remaining_seconds <- int_of_float (fdiv remaining_ms (float_of_Z 1000)) ;;
      let minutes := remaining_seconds / 60 in
      let seconds := remaining_seconds mod 60 in
      Some (MinSec minutes seconds)
  end.

(** * Notions of the specification *)

(** A character that is not whitespace, and a whitespace-delimited unit:
    non-empty and free of whitespace. *)
Definition nonspace (c : char) : Prop := isspace c = false.
Definition unit_ok (u : str) : Prop := u <> [] /\ Forall nonspace u.

(** The trailing character of a unit. *)
Fixpoint last_char (w : str) : option char :=
  match w with
  | [] => None
  | c :: r => match r with [] => Some c | _ => last_char r end
  end.

(** The pacing multiplier as the specification words it: by the trailing
    character alone, the period class before the comma class. *)
Definition trailing_multiplier (w : str) : float :=
  match last_char w with
  | Some c =>
      if period_class c then PERIOD_DELAY_MULTIPLIER
      else if comma_class c then COMMA_DELAY_MULTIPLIER
      else ONE
  | None => ONE
  end.

Definition token_of_unit (w : str) : token :=
  {| word := w; delay_multiplier := trailing_multiplier w |}.

(** The fixation layout of a text: what lies before the ORP character, the
    character itself, and what lies after it. *)
Definition labels (d : display) : str * str * str :=
  (left_label d, orp_label d, right_label d).

Definition split_at_orp (U : char -> bool) (text : str) : str * str * str :=
  let orp := find_orp_in_word U text in
  (firstn orp text, char_at text orp, skipn (orp + 1) text).

(** Two parts joined by a space when neither is empty. *)
Definition sep_join (a b : str) : str :=
  match a, b with
  | [], _ => b
  | _, [] => a
  | _, _ => a ++ [SPACE] ++ b
  end.

(** The layout of a flash as the specification words it: the middle token
    is split at its ORP, the tokens before it go to the left and the tokens
    after it to the right. *)
Definition compose (U : char -> bool) (words : list str) : str * str * str :=
  let middle := (length words / 2)%nat in
  let '(l, focus, r) := split_at_orp U (nth middle words []) in
  (sep_join (join [SPACE] (firstn middle words)) l,
   focus,
   sep_join r (join [SPACE] (skipn (middle + 1) words))).

(** The phase of the specification, read off the fields: a session is
    finished when it is neither playing nor paused and its position is at
    the end of a stream. *)
Inductive phase_t := Idle | Playing | Paused | Finished.

Definition phase (s : QuickReadApp) : phase_t :=
  if is_playing s then Playing
  else if is_paused s then Paused
  else if negb (len (tokens s) =? 0) && (current_index s >=? len (tokens s))
       then Finished
  else Idle.

(** The tokens of the flash at the current position. *)
Definition flash_tokens (s : QuickReadApp) : list token :=
  py_slice (tokens s) (current_index s)
           (Z.min (current_index s + words_per_flash s) (len (tokens s))).

(** The delay formula of the specification, on floats. *)
Definition flash_delay (wpm wpf : Z) (m : float) : option float :=
  base <- py_truediv 60000 wpm ;;
  let delay := fmul base m in
  Some (if wpf >? 1 then fmul delay MULTI_WORD_DELAY_MULTIPLIER else delay).

(** The progress value [update_progress] computes. *)
Definition progress_percent (position length : Z) : option Z :=
  q <- py_truediv position length ;;
  int_of_float (fmul q (float_of_Z 100)).

(** A float of magnitude below [2 ^ D]. *)
Definition fbounded (D : Z) (f : float) : Prop :=
  match f with
  | S754_zero _ => True
  | S754_finite _ m e => Zdigits2 (Zpos m) + e <= D
  | S754_infinity _ | S754_nan => False
  end.

(** The invariant of the data model: position, speed and batch width in
    range, and every multiplier one of the three constants. *)
Definition pacing_ok (t : token) : Prop :=
  In (delay_multiplier t)
     [ONE; COMMA_DELAY_MULTIPLIER; PERIOD_DELAY_MULTIPLIER].

Definition inv (s : QuickReadApp) : Prop :=
  0 <= current_index s <= len (tokens s) /\
  MIN_WPM <= wpm s <= MAX_WPM /\
  1 <= words_per_flash s <= MAX_WORDS_PER_FLASH /\
  Forall pacing_ok (tokens s).

(** The events of the application.  The timer fires only while it runs; a
    slider delivers a value of its range, [MIN_WPM] to [MAX_WPM] for the
    two speed sliders and [MIN_FONT_SIZE] to [MAX_FONT_SIZE] for the font
    slider; the combo box delivers the data of one of its items.  A file
    that is loaded is a text set in the text box. *)
Inductive step (U : char -> bool) : QuickReadApp -> QuickReadApp -> Prop :=
  | step_tick s s' msec :
      timer s = Some msec -> display_next_word U s = Some s' -> step U s s'
  | step_text s text s' :
      update_word_count (set_text_input text s) = Some s' -> step U s s'
  | step_start s s' : start_reading U s = Some s' -> step U s s'
  | step_toggle s s' : toggle_play_pause U s = Some s' -> step U s s'
  | step_stop s : step U s (stop_reading s)
  | step_back s : step U s (show_input_view s)
  | step_rewind s s' : rewind U s = Some s' -> step U s s'
  | step_forward s s' : forward U s = Some s' -> step U s s'
  | step_escape s : step U s (on_escape s)
  | step_fullscreen s : step U s (toggle_fullscreen s)
  | step_increase s : step U s (increase_wpm s)
  | step_decrease s : step U s (decrease_wpm s)
  | step_wpm s value s' :
      MIN_WPM <= value <= MAX_WPM ->
      on_wpm_changed value s = Some s' -> step U s s'
  | step_reading_wpm s value s' :
      MIN_WPM <= value <= MAX_WPM ->
      on_reading_wpm_changed value s = Some s' -> step U s s'
  | step_wpf s data s' :
      In data wpf_combo_items ->
      on_wpf_changed data s = Some s' -> step U s s'
  | step_font s value :
      MIN_FONT_SIZE <= value <= MAX_FONT_SIZE ->
      step U s (on_font_size_changed value s).

Inductive reachable (U : char -> bool) : QuickReadApp -> Prop :=
  | reach_init : reachable U init
  | reach_step s s' : reachable U s -> step U s s' -> reachable U s'.

(** A text without letters beyond ASCII: the instance of the examples. *)
Definition ascii_only : char -> bool := fun _ => false.

(** Two states with the same engine fields: they differ at most in what
    is displayed. *)
Definition same_engine (s s' : QuickReadApp) : Prop :=
  tokens s' = tokens s /\ current_index s' = current_index s /\
  is_playing s' = is_playing s /\ is_paused s' = is_paused s /\
  wpm s' = wpm s /\ words_per_flash s' = words_per_flash s /\
  timer s' = timer s.

(** The state after the flash at the current position has been emitted:
    the flash is on display, the position is past it, the bar shows [v]
    and the timer runs for [msec] milliseconds. *)
Definition after_flash (U : char -> bool) (v msec : Z) (s : QuickReadApp) : QuickReadApp :=
  let end_index := Z.min (current_index s + words_per_flash s) (len (tokens s)) in
  timer_start msec
    (progress_bar_setValue v
       (set_current_index end_index
          (show_words U (map word (flash_tokens s)) s))).

(** The state after the terminal tick. *)
Definition after_done (s : QuickReadApp) : QuickReadApp :=
  progress_bar_setValue 100
    (set_orp_display (display_message DONE_MESSAGE (orp_display s))
       (set_is_playing false (timer_stop s))).

(** The part [rewind] and [forward] have in common, once the new position
    is known. *)
Definition seek_to (U : char -> bool) (position : Z) (s : QuickReadApp) : option QuickReadApp :=
  let s := set_current_index position s in
  s <- update_progress s ;;
  s <- update_time_estimate s ;;
  if is_playing s then display_next_word U (timer_stop s)
  else Some (show_current_word U s).

(** The cancellation discipline: the timer runs only while playing. *)
Definition timer_disciplined (s : QuickReadApp) : Prop :=
  timer s <> None -> is_playing s = true.


(** What every finished session shows, whatever the colour: the font
    slider resets the colour of the ORP label and leaves the rest. *)
Definition finished_shown (s : QuickReadApp) : Prop :=
  phase s = Finished ->
  timer s = None /\
  labels (orp_display s) = ([], DONE_MESSAGE, []) /\
  progress_bar s = 100.

Definition good (s : QuickReadApp) : Prop :=
  inv s /\ timer_disciplined s /\ finished_shown s.

(** The state [start_reading] resets to before it starts to play. *)
Definition session_reset (s : QuickReadApp) : QuickReadApp :=
  show_reading_view
    (set_orp_display (clear (orp_display s))
       (progress_bar_setValue 0
          (set_is_paused false
             (set_is_playing false
                (set_current_index 0
                   (set_tokens (tokenize_text (strip (text_input s))) s)))))).


(** ** Sample sessions *)

(** The state a handler returns, the initial state if it raised. *)
Definition run (o : option QuickReadApp) : QuickReadApp :=
  match o with
  | Some s => s
  | None => init
  end.

(** Typing a text into the text box. *)
Definition typed (text : string) (s : QuickReadApp) : QuickReadApp :=
  set_text_input (lit text) s.

(** A session started on a text, from the initial state: it is playing and
    its first flash has been emitted. *)
Definition session (text : string) : QuickReadApp :=
  run (start_reading ascii_only (typed text init)).

Definition demo : QuickReadApp := session "Hi there. It's nice, ok?".

(** Twelve words, playing and paused. *)
Definition demo12 : QuickReadApp := session "a b c d e f g h i j k l".
Definition demo12_paused : QuickReadApp :=
  run (toggle_play_pause ascii_only demo12).

(** Two words, after the tick that emits the second one. *)
Definition demo_last : QuickReadApp :=
  run (display_next_word ascii_only (session "a b")).

(** A session at 700 words per minute. *)
Definition demo700 : QuickReadApp :=
  run (start_reading ascii_only
         (typed "Hi there now" (run (on_wpm_changed 700 init)))).

(** Back to the input view after a session, with a blank text typed. *)
Definition demo_back : QuickReadApp := typed "   " (show_input_view demo).

(** Three plain words at 600 words per minute. *)
Definition demo600 : QuickReadApp :=
  run (start_reading ascii_only
         (typed "one two three" (run (on_wpm_changed 600 init)))).

(** ** Floats against exact quotients *)

(** A finite float times [2 ^ N], an integer when [- N] is at most its
    exponent; the smallest exponent of binary64 is -1074. *)
Definition scaled_at (N : Z) (f : float) : Z :=
  match f with
  | S754_finite _ m e => Z.pos m * 2 ^ (e + N)
  | _ => 0
  end.

Definition SCALE := 1200.

Definition scaled (f : float) : Z := scaled_at SCALE f.

(** A zero or a finite number of positive sign, and a float whose exponent
    is one of the format. *)
Definition finite_nonneg (f : float) : Prop :=
  match f with
  | S754_zero false | S754_finite false _ _ => True
  | _ => False
  end.

Definition in_format (f : float) : Prop :=
  match f with
  | S754_finite _ _ e => -1074 <= e
  | _ => True
  end.

(** [near f a b k]: the float [f] is a zero or a positive finite number and
    differs from the quotient [a / b] of the rationals by less than
    [2 ^ (- k)]; the inequality is multiplied by [b * 2 ^ SCALE]. *)
Definition near (f : float) (a b k : Z) : Prop :=
  finite_nonneg f /\ in_format f /\
  Z.abs (b * scaled f - a * 2 ^ SCALE) < b * 2 ^ (SCALE - k).

(** The progress bar shows the percentage of the position, for a stream of
    at most [2 ^ 42] tokens. *)
Definition bar_shows (s : QuickReadApp) : Prop :=
  tokens s <> [] -> len (tokens s) <= 2 ^ 42 ->
  progress_percent (current_index s) (len (tokens s)) = Some (progress_bar s).

(** ** The delay in exact arithmetic *)

(** The delay formula of the specification on rationals:
    [60000 / wpm] times the multiplier, read as the rational the float
    denotes, times 6/5 when more than one word is shown per flash; as a
    numerator and a denominator. *)
Definition exact_delay (wpm wpf : Z) (m : float) : option (Z * Z) :=
  match m with
  | S754_finite false mm e =>
      let n := if e <? 0 then Z.pos mm else Z.pos mm * 2 ^ e in
      let d := if e <? 0 then 2 ^ (- e) else 1 in
      Some (60000 * n * (if wpf >? 1 then 6 else 1),
            wpm * d * (if wpf >? 1 then 5 else 1))
  | _ => None
  end.

(** The speeds and multipliers at which, with more than one word per
    flash, the binary64 product falls short of a delay that is a whole
    number of milliseconds. *)
Definition SHORTFALLS : list (Z * float) :=
  [(108, COMMA_DELAY_MULTIPLIER); (180, ONE); (180, PERIOD_DELAY_MULTIPLIER);
   (216, COMMA_DELAY_MULTIPLIER); (360, ONE); (360, PERIOD_DELAY_MULTIPLIER);
   (432, COMMA_DELAY_MULTIPLIER); (675, COMMA_DELAY_MULTIPLIER);
   (720, ONE); (720, PERIOD_DELAY_MULTIPLIER);
   (864, COMMA_DELAY_MULTIPLIER)].

Definition falls_short (wpm : Z) (m : float) : bool :=
  existsb (fun wx => (fst wx =? wpm) && SFeqb (snd wx) m) SHORTFALLS.

(** The milliseconds the code schedules against the exact delay, for one
    speed, batch width and multiplier. *)
Definition delay_row (wpm wpf : Z) (m : float) : bool :=
  match flash_delay wpm wpf m, exact_delay wpm wpf m with
  | Some d, Some (n, dn) =>
      match int_of_float d with
      | Some msec =>
          (0 <? dn) &&
          (if (wpf >? 1) && falls_short wpm m
           then (msec =? n / dn - 1) && (n mod dn =? 0)
           else msec =? n / dn)
      | None => false
      end
  | _, _ => false
  end.

Definition delay_rows (wpm : Z) : bool :=
  forallb (fun m => delay_row wpm 1 m && delay_row wpm 2 m)
    [ONE; COMMA_DELAY_MULTIPLIER; PERIOD_DELAY_MULTIPLIER].

(** ** Notions of the further properties *)

(** The text on display: the three labels side by side. *)
Definition shown (d : display) : str :=
  left_label d ++ orp_label d ++ right_label d.

(** A float that is not negative: a zero, a finite number or an infinity of
    positive sign. *)
Definition fnonneg (f : float) : Prop :=
  match f with
  | S754_zero s | S754_infinity s | S754_finite s _ _ => s = false
  | S754_nan => False
  end.

(** The computation the two estimates share: the time of [words] words at
    the average pace. *)
Definition time_formula (words wpm wpf : Z) : option time_text :=
  flashes <- py_truediv words wpf ;;
  base_delay_ms <- py_truediv 60000 wpm ;;
  total_seconds <-
    int_of_float
      (fdiv (fmul flashes
               (if wpf >? 1
                then fmul (fmul base_delay_ms AVERAGE_MULTIPLIER)
                          MULTI_WORD_DELAY_MULTIPLIER
                else fmul base_delay_ms AVERAGE_MULTIPLIER))
            (float_of_Z 1000)) ;;
  Some (MinSec (total_seconds / 60) (total_seconds mod 60)).

(** The scheduling discipline: while playing, the timer is pending and the
    session is not paused; a session that is playing or paused has a
    stream; and the stream is the tokenization of some text. *)
Definition sched (s : QuickReadApp) : Prop :=
  (is_playing s = true -> timer s <> None /\ is_paused s = false) /\
  (is_playing s = true \/ is_paused s = true -> tokens s <> []) /\
  (exists text, tokens s = tokenize_text text).

(** [n] timeouts of the timer in a row: each one calls
    [display_next_word]. *)
Fixpoint ticks (U : char -> bool) (n : nat) (s : QuickReadApp) : option QuickReadApp :=
  match n with
  | O => Some s
  | S n => s' <- display_next_word U s ;; ticks U n s'
  end.

(** The batch of words at a position of the stream. *)
Definition batch (s : QuickReadApp) (position : Z) : list str :=
  map word
    (py_slice (tokens s) position
       (Z.min (position + words_per_flash s) (len (tokens s)))).

(** The batches of [n] consecutive flashes from a position. *)
Fixpoint batches (s : QuickReadApp) (position : Z) (n : nat) : list (list str) :=
  match n with
  | O => []
  | S n => batch s position :: batches s (position + words_per_flash s) n
  end.

(** A stream without an empty word. *)
Definition words_ok (s : QuickReadApp) : Prop :=
  Forall (fun t => word t <> []) (tokens s).

(** Two words, after the tick that ends the session. *)
Definition demo_finished : QuickReadApp :=
  run (display_next_word ascii_only demo_last).

(** What a seek to a position of the stream leaves: the batch at the
    target on display; while not playing, the position at the target and
    the timer as it was; while playing, the position one batch further and
    the timer pending. *)
Definition seeked (U : char -> bool) (s : QuickReadApp) (target : Z) (s' : QuickReadApp) : Prop :=
  tokens s' = tokens s /\ is_paused s' = is_paused s /\
  is_playing s' = is_playing s /\
  labels (orp_display s') = compose U (batch s target) /\
  orp_style (orp_display s') = orp_style (orp_display s) /\
  (is_playing s = false ->
   current_index s' = target /\ timer s' = timer s) /\
  (is_playing s = true ->
   current_index s' =
     Z.min (target + words_per_flash s) (len (tokens s)) /\
   timer s' <> None).

(** What [n] timeouts in a row put on display, one layout per tick, as
    long as the ticks return. *)
Fixpoint flashes (U : char -> bool) (n : nat) (s : QuickReadApp) : list (str * str * str) :=
  match n with
  | O => []
  | S n =>
      match display_next_word U s with
      | Some s' => labels (orp_display s') :: flashes U n s'
      | None => []
      end
  end.

(** The finished session of two words after a move of the font slider. *)
Definition demo_refont : QuickReadApp := on_font_size_changed 60 demo_finished.

(** Three plain words at 360 words per minute, two words per flash. *)
Definition demo360 : QuickReadApp :=
  run (start_reading ascii_only
         (typed "Hi there now"
            (run (on_wpf_changed 2 (run (on_wpm_changed 360 init)))))).

(** A session of one word. *)
Definition demo_hello : QuickReadApp := session "hello".

(** * Properties *)

(** ** Strings and whitespace *)

Lemma isspace_SPACE : isspace SPACE = true.
Proof. reflexivity. Qed.

Lemma lstrip_nonspace (w : str) : Forall nonspace w -> lstrip w = w.
Proof.
  destruct 1 as [|c r Hc _]; simpl; [reflexivity|].
  unfold nonspace in Hc. now rewrite Hc.
Qed.

Lemma rstrip_nonspace (w : str) : Forall nonspace w -> rstrip w = w.
Proof.
  induction 1 as [|c r Hc _ IH]; simpl; [reflexivity|].
  rewrite IH. unfold nonspace in Hc. rewrite Hc. now destruct r.
Qed.

Lemma strip_nonspace (w : str) : Forall nonspace w -> strip w = w.
Proof.
  intros H. unfold strip. rewrite rstrip_nonspace by assumption.
  now apply lstrip_nonspace.
Qed.

(** A string that [rstrip] leaves alone does not end with whitespace: its
    tail is of the same kind, and is not empty after a whitespace. *)
Lemma rstrip_fixed_tail (c : char) (r : str) :
  rstrip (c :: r) = c :: r -> rstrip r = r /\ (isspace c = true -> r <> []).
Proof.
  simpl. destruct (rstrip r) as [|x r'] eqn:E.
  - destruct (isspace c); [discriminate|].
    intros H. injection H as <-. split; [reflexivity|discriminate].
  - intros H. injection H as <-. split; [reflexivity|discriminate].
Qed.

Lemma lstrip_length (s : str) : (length (lstrip s) <= length s)%nat.
Proof.
  induction s as [|c r IH]; simpl; [lia|].
  destruct (isspace c); simpl; lia.
Qed.

Lemma lstrip_fixed_head (c : char) (r : str) :
  lstrip (c :: r) = c :: r -> isspace c = false.
Proof.
  simpl. destruct (isspace c); [|reflexivity].
  intros H. pose proof (lstrip_length r) as L. rewrite H in L. simpl in L. lia.
Qed.

Lemma lstrip_idem (s : str) : lstrip (lstrip s) = lstrip s.
Proof.
  induction s as [|c r IH]; simpl; [reflexivity|].
  destruct (isspace c) eqn:E; [assumption|]. simpl. now rewrite E.
Qed.

Lemma rstrip_idem (s : str) : rstrip (rstrip s) = rstrip s.
Proof.
  induction s as [|c r IH]; simpl; [reflexivity|].
  destruct (rstrip r) as [|x r'] eqn:E.
  - destruct (isspace c) eqn:Ec; simpl; [reflexivity|]. now rewrite Ec.
  - change (rstrip (c :: x :: r') = c :: x :: r').
    change (rstrip (c :: x :: r')) with
      (match rstrip (x :: r') with
       | [] => if isspace c then [] else [c]
       | r'' => c :: r''
       end).
    now rewrite IH.
Qed.

(** [lstrip] keeps the end of the string, so it keeps a string that
    [rstrip] leaves alone of that kind. *)
Lemma rstrip_lstrip_fixed (s : str) : rstrip s = s -> rstrip (lstrip s) = lstrip s.
Proof.
  induction s as [|c r IH]; intros H; [reflexivity|].
  destruct (rstrip_fixed_tail _ _ H) as [Hr _].
  simpl lstrip. destruct (isspace c); [now apply IH | assumption].
Qed.

Lemma strip_rstrip_fixed (s : str) : rstrip (strip s) = strip s.
Proof. unfold strip. apply rstrip_lstrip_fixed, rstrip_idem. Qed.

Lemma strip_lstrip_fixed (s : str) : lstrip (strip s) = strip s.
Proof. unfold strip. apply lstrip_idem. Qed.

(** ** [split] and [join] *)

Lemma split_from_nonempty (s w : str) :
  rstrip s = s -> s <> [] \/ w <> [] -> split_from w s <> [].
Proof.
  revert w. induction s as [|c r IH]; intros w Hfix Hne; simpl.
  - destruct Hne as [Hne|Hne]; [congruence|]. destruct w; [congruence|discriminate].
  - destruct (rstrip_fixed_tail _ _ Hfix) as [Hr Hsp].
    destruct (isspace c) eqn:Ec.
    + destruct w; [|discriminate]. apply IH; auto.
    + apply IH; [assumption|]. right. now destruct w.
Qed.

Lemma join_cons (sep w : str) (ws : list str) :
  ws <> [] -> join sep (w :: ws) = w ++ sep ++ join sep ws.
Proof. destruct ws; [congruence|reflexivity]. Qed.

(** Joining the units of a trimmed string with single spaces collapses its
    runs of whitespace; the second half is the case of a scan that starts
    inside a run. *)
Lemma join_split_from (s : str) :
  (forall w, rstrip s = s -> w <> [] \/ lstrip s = s ->
             join [SPACE] (split_from w s) = w ++ sub_ws_from false s) /\
  (rstrip s = s -> join [SPACE] (split_from [] s) = sub_ws_from true s).
Proof.
  induction s as [|c r [IHP IHQ]].
  - split; [|reflexivity]. intros w _ _. simpl. rewrite app_nil_r. now destruct w.
  - split.
    + intros w Hfix Hw. destruct (rstrip_fixed_tail _ _ Hfix) as [Hr Hsp].
      simpl. destruct (isspace c) eqn:Ec.
      * destruct Hw as [Hw|Hw];
          [|apply lstrip_fixed_head in Hw; congruence].
        destruct w as [|x w']; [congruence|].
        rewrite join_cons by (apply split_from_nonempty; auto).
        now rewrite IHQ.
      * rewrite IHP; [now rewrite <- app_assoc | assumption |].
        left. now destruct w.
    + intros Hfix. destruct (rstrip_fixed_tail _ _ Hfix) as [Hr Hsp].
      simpl. destruct (isspace c) eqn:Ec; [now apply IHQ|].
      rewrite IHP; [reflexivity | assumption | left; discriminate].
Qed.

(** Collapsing the runs of whitespace does not change the units. *)
Lemma split_from_sub_ws (s : str) :
  (forall w, split_from w (sub_ws_from false s) = split_from w s) /\
  split_from [] (sub_ws_from true s) = split_from [] s.
Proof.
  induction s as [|c r [IHA IHB]]; [split; reflexivity|].
  split.
  - intros w. simpl. destruct (isspace c) eqn:Ec; simpl.
    + now rewrite IHB.
    + rewrite Ec. apply IHA.
  - simpl. destruct (isspace c) eqn:Ec; [assumption|].
    simpl. rewrite Ec. apply IHA.
Qed.

Lemma split_from_lstrip (s : str) : split_from [] (lstrip s) = split_from [] s.
Proof.
  induction s as [|c r IH]; [reflexivity|].
  simpl. destruct (isspace c) eqn:Ec; [assumption|]. simpl. now rewrite Ec.
Qed.

Lemma split_from_rstrip (s w : str) : split_from w (rstrip s) = split_from w s.
Proof.
  revert w. induction s as [|c r IH]; intros w; [reflexivity|].
  simpl rstrip. destruct (rstrip r) as [|x r'] eqn:E.
  - destruct (isspace c) eqn:Ec; simpl; rewrite Ec.
    + rewrite <- (IH []). simpl. now destruct w.
    + now rewrite <- IH.
  - simpl split_from at 2. rewrite <- !IH. reflexivity.
Qed.

Lemma split_strip (s : str) : split (strip s) = split s.
Proof.
  unfold split, strip. now rewrite split_from_lstrip, split_from_rstrip.
Qed.

Lemma split_sub_ws (s : str) : split (sub_ws s) = split s.
Proof. apply (proj1 (split_from_sub_ws s)). Qed.

Lemma sub_ws_nil (s : str) : sub_ws s = [] -> s = [].
Proof. destruct s as [|c r]; [reflexivity|]. unfold sub_ws. simpl. now destruct (isspace c). Qed.

Lemma split_from_units (s w : str) :
  Forall nonspace w -> Forall unit_ok (split_from w s).
Proof.
  revert w. induction s as [|c r IH]; intros w Hw; simpl.
  - destruct w; constructor; [|constructor]. split; [discriminate|assumption].
  - destruct (isspace c) eqn:Ec.
    + destruct w as [|x w']; [now apply IH|].
      constructor; [split; [discriminate|assumption] | now apply IH].
    + apply IH. apply Forall_app. split; [assumption|]. now constructor.
Qed.

Lemma split_units (s : str) : Forall unit_ok (split s).
Proof. apply split_from_units. constructor. Qed.

(** Trimming and collapsing commute: the normalized text does not depend on
    which of the two is done first. *)
Lemma lstrip_sub_ws_from (s : str) :
  lstrip (sub_ws_from true s) = sub_ws_from false (lstrip s) /\
  lstrip (sub_ws_from false s) = sub_ws_from false (lstrip s).
Proof.
  induction s as [|c r [IHt IHf]]; [split; reflexivity|].
  simpl. destruct (isspace c) eqn:Ec; simpl; rewrite ?Ec; auto.
Qed.

Lemma sub_ws_from_rstrip_nonempty (b : bool) (s : str) :
  rstrip s <> [] -> rstrip (sub_ws_from b s) <> [].
Proof.
  revert b. induction s as [|c r IH]; intros b; [easy|].
  simpl. destruct (rstrip r) as [|x r'] eqn:E.
  - destruct (isspace c) eqn:Ec; [easy|]. intros _. simpl.
    destruct (rstrip (sub_ws_from false r)); [now rewrite Ec | discriminate].
  - intros _. assert (H : x :: r' <> []) by discriminate.
    destruct (isspace c) eqn:Ec.
    + destruct b; [now apply IH|]. simpl.
      specialize (IH true H). destruct (rstrip (sub_ws_from true r)); [easy|discriminate].
    + simpl. specialize (IH false H).
      destruct (rstrip (sub_ws_from false r)); [easy|discriminate].
Qed.

Lemma rstrip_sub_ws_from (b : bool) (s : str) :
  rstrip (sub_ws_from b s) = sub_ws_from b (rstrip s).
Proof.
  revert b. induction s as [|c r IH]; intros b; [reflexivity|].
  simpl rstrip at 2. destruct (rstrip r) as [|x r'] eqn:E.
  - simpl. destruct (isspace c) eqn:Ec.
    + destruct b; simpl; now rewrite IH.
    + simpl. rewrite IH, Ec. reflexivity.
  - assert (H : rstrip r <> []) by (rewrite E; discriminate).
    pose proof (sub_ws_from_rstrip_nonempty true r H) as Ht.
    pose proof (sub_ws_from_rstrip_nonempty false r H) as Hf.
    remember (x :: r') as t eqn:Et.
    simpl. destruct (isspace c) eqn:Ec.
    + destruct b; [now rewrite IH|].
      simpl. rewrite <- IH.
      destruct (rstrip (sub_ws_from true r)); [easy|reflexivity].
    + simpl. rewrite <- IH.
      destruct (rstrip (sub_ws_from false r)); [easy|reflexivity].
Qed.

Lemma strip_sub_ws (s : str) : strip (sub_ws s) = sub_ws (strip s).
Proof.
  unfold strip, sub_ws. rewrite rstrip_sub_ws_from.
  apply (proj2 (lstrip_sub_ws_from (rstrip s))).
Qed.

(** ** Tokenizer *)

Lemma nonspace_not_newline (d : char) : nonspace d -> (d =? NEWLINE)%N = false.
Proof.
  intros H. destruct (N.eqb_spec d NEWLINE) as [->|]; [|reflexivity].
  discriminate H.
Qed.

(** On a unit, [$] can only match at the very end: the search for a class
    looks at the trailing character alone. *)
Lemma search_class_at_end_last (cls : char -> bool) (w : str) :
  Forall nonspace w ->
  search_class_at_end cls w =
  match last_char w with Some c => cls c | None => false end.
Proof.
  induction w as [|c r IH]; intros H; [reflexivity|].
  destruct r as [|d r']; [reflexivity|].
  inversion H as [|? ? _ Hr]; subst.
  destruct r' as [|x r''].
  - simpl. inversion Hr; subst.
    now rewrite nonspace_not_newline, andb_false_r.
  - specialize (IH Hr). exact IH.
Qed.

Lemma tokenize_word_unit (w : str) :
  unit_ok w -> tokenize_word w = Some (token_of_unit w).
Proof.
  intros [Hne Hns]. unfold tokenize_word, token_of_unit, trailing_multiplier.
  rewrite strip_nonspace by assumption.
  rewrite !search_class_at_end_last by assumption.
  destruct w as [|c r]; [congruence|].
  destruct (last_char (c :: r)); reflexivity.
Qed.

Lemma tokenize_words_units (ws : list str) :
  Forall unit_ok ws -> tokenize_words ws = map token_of_unit ws.
Proof.
  induction 1 as [|w ws Hw _ IH]; [reflexivity|].
  simpl. now rewrite tokenize_word_unit, IH.
Qed.

(** The tokens are the whitespace-delimited units of the text, each with
    the multiplier of its trailing character. *)
Lemma tokenize_text_split (text : str) :
  tokenize_text text = map token_of_unit (split text).
Proof.
  unfold tokenize_text.
  assert (E : split (sub_ws (strip text)) = split text)
    by now rewrite split_sub_ws, split_strip.
  destruct (sub_ws (strip text)) as [|c r] eqn:Es.
  - rewrite <- E. reflexivity.
  - rewrite E. apply tokenize_words_units, split_units.
Qed.

Lemma tokenize_text_words (text : str) :
  map word (tokenize_text text) = split text.
Proof.
  rewrite tokenize_text_split, map_map. apply map_id.
Qed.

Lemma join_split_strip (text : str) :
  join [SPACE] (split text) = sub_ws (strip text).
Proof.
  rewrite <- split_strip. unfold split.
  apply (proj1 (join_split_from (strip text)) []).
  - apply strip_rstrip_fixed.
  - right. apply strip_lstrip_fixed.
Qed.

Lemma split_nonempty (text : str) : strip text <> [] -> split text <> [].
Proof.
  intros H. rewrite <- split_strip. apply split_from_nonempty.
  - apply strip_rstrip_fixed.
  - now left.
Qed.

Lemma tokenize_text_nonempty (text : str) :
  strip text <> [] -> tokenize_text text <> [].
Proof.
  intros H E. apply (split_nonempty text H).
  rewrite <- tokenize_text_words, E. reflexivity.
Qed.

(** C3 (amended). Every whitespace-delimited unit of the text becomes one
    token, with its text verbatim and a multiplier fixed by its trailing
    character alone: 2.0 after one of [.!?], else 1.5 after one of [,;:],
    else 1.0.  On ["Hi there. It's nice, ok?"] the multipliers are
    1.0, 2.0, 1.0, 1.5, 2.0. *)
Theorem tokenize_pacing :
  (forall text, tokenize_text text = map token_of_unit (split text)) /\
  (forall w c, last_char w = Some c ->
     trailing_multiplier w =
     if period_class c then PERIOD_DELAY_MULTIPLIER
     else if comma_class c then COMMA_DELAY_MULTIPLIER else ONE) /\
  tokenize_text (lit "Hi there. It's nice, ok?") =
  [ {| word := lit "Hi"; delay_multiplier := ONE |};
    {| word := lit "there."; delay_multiplier := PERIOD_DELAY_MULTIPLIER |};
    {| word := lit "It's"; delay_multiplier := ONE |};
    {| word := lit "nice,"; delay_multiplier := COMMA_DELAY_MULTIPLIER |};
    {| word := lit "ok?"; delay_multiplier := PERIOD_DELAY_MULTIPLIER |} ].
Proof.
  split; [exact tokenize_text_split|]. split; [|reflexivity].
  intros w c H. unfold trailing_multiplier. now rewrite H.
Qed.

(** C3, the example as the claim states it: the multipliers of
    ["Hi there. It's nice, ok?"] are not 1.0, 2.0, 1.5, 1.0, 2.0, although
    its tokens are those the claim lists. *)
Lemma tokenize_example_multipliers_differ :
  map word (tokenize_text (lit "Hi there. It's nice, ok?")) =
    [lit "Hi"; lit "there."; lit "It's"; lit "nice,"; lit "ok?"] /\
  map delay_multiplier (tokenize_text (lit "Hi there. It's nice, ok?")) <>
    [ONE; PERIOD_DELAY_MULTIPLIER; COMMA_DELAY_MULTIPLIER; ONE;
     PERIOD_DELAY_MULTIPLIER].
Proof.
  split; [reflexivity|]. vm_compute. discriminate.
Qed.

(** C10. The token texts joined by single spaces are the normalized text:
    the text with its ends trimmed and its runs of whitespace collapsed to
    one space, in either order.  Each token text is non-empty and free of
    whitespace, and a non-empty normalized text gives at least one token. *)
Theorem tokenize_join_normalized (s : str) :
  join [SPACE] (map word (tokenize_text s)) = sub_ws (strip s) /\
  sub_ws (strip s) = strip (sub_ws s) /\
  Forall unit_ok (map word (tokenize_text s)) /\
  (sub_ws (strip s) <> [] -> tokenize_text s <> []).
Proof.
  rewrite tokenize_text_words. split; [apply join_split_strip|].
  split; [symmetry; apply strip_sub_ws|].
  split; [apply split_units|].
  intros H. apply tokenize_text_nonempty. intros E. apply H. now rewrite E.
Qed.

(** ** Floats: magnitude of the results *)

Lemma fexp_eq (x : Z) : fexp prec emax x = Z.max (x - 53) (-1074).
Proof. reflexivity. Qed.

Lemma digits2_pos_size (p : positive) : digits2_pos p = Pos.size p.
Proof. induction p as [p IH|p IH|]; simpl; now rewrite ?IH. Qed.

Lemma Zdigits2_log2 (m : Z) : 0 < m -> Zdigits2 m = Z.log2 m + 1.
Proof.
  destruct m as [|p|p]; try lia. intros _.
  destruct p as [p|p|]; simpl; rewrite ?digits2_pos_size; lia.
Qed.

Lemma Zdigits2_nonneg (m : Z) : 0 <= Zdigits2 m.
Proof. destruct m; simpl; lia. Qed.

Lemma Zdigits2_pos (m : Z) : 0 < m -> 1 <= Zdigits2 m.
Proof. destruct m; simpl; lia. Qed.

Lemma Zdigits2_le_bound (m k : Z) : 0 <= m < 2 ^ k -> 0 <= k -> Zdigits2 m <= k.
Proof.
  intros [H0 H1] Hk. destruct (Z.eq_dec m 0) as [->|Hm]; [assumption|].
  rewrite Zdigits2_log2 by lia.
  assert (Z.log2 m < k) by (apply Z.log2_lt_pow2; lia). lia.
Qed.

Lemma Zdigits2_gt (m : Z) : 0 <= m -> m < 2 ^ Zdigits2 m.
Proof.
  intros H0. destruct (Z.eq_dec m 0) as [->|Hm]; [reflexivity|].
  rewrite Zdigits2_log2 by lia.
  apply (Z.log2_spec m). lia.
Qed.

Lemma Zdigits2_succ_le (m : Z) : 0 <= m -> Zdigits2 (m + 1) <= Zdigits2 m + 1.
Proof.
  intros H0. pose proof (Zdigits2_gt m H0) as Hg.
  pose proof (Zdigits2_nonneg m) as Hd.
  apply Zdigits2_le_bound; [|lia].
  rewrite Z.pow_add_r by lia. lia.
Qed.

Lemma Zdigits2_mul_le (a b : Z) :
  0 <= a -> 0 <= b -> Zdigits2 (a * b) <= Zdigits2 a + Zdigits2 b.
Proof.
  intros Ha Hb. pose proof (Zdigits2_gt a Ha). pose proof (Zdigits2_gt b Hb).
  pose proof (Zdigits2_nonneg a). pose proof (Zdigits2_nonneg b).
  apply Zdigits2_le_bound; [|lia].
  rewrite Z.pow_add_r by lia. nia.
Qed.

(** Shifting a mantissa right. *)
Lemma shr_1_m (mrs : shr_record) :
  0 <= shr_m mrs -> shr_m (shr_1 mrs) = shr_m mrs / 2.
Proof.
  destruct mrs as [m r s]. simpl. intros H0.
  destruct m as [|p|p]; [reflexivity| |lia].
  rewrite <- Z.div2_div. now destruct p.
Qed.

Lemma shr_1_nonneg (mrs : shr_record) : 0 <= shr_m mrs -> 0 <= shr_m (shr_1 mrs).
Proof. intros H. rewrite shr_1_m by assumption. apply Z.div_pos; lia. Qed.

Lemma iter_shr_1_m (p : positive) :
  forall mrs, 0 <= shr_m mrs ->
  shr_m (iter_pos shr_1 p mrs) = shr_m mrs / 2 ^ Zpos p.
Proof.
  induction p as [p IH|p IH|]; intros mrs H0; simpl iter_pos.
  - assert (H1 : 0 <= shr_m (shr_1 mrs)) by now apply shr_1_nonneg.
    assert (H2 : 0 <= shr_m (iter_pos shr_1 p (shr_1 mrs))).
    { rewrite IH by assumption. apply Z.div_pos; lia. }
    rewrite IH, IH, shr_1_m by assumption.
    rewrite !Z.div_div by lia. f_equal.
    rewrite Pos2Z.inj_xI, Z.pow_add_r, Z.pow_mul_r, Z.pow_2_r by lia.
    change (2 ^ 2) with 4. rewrite <- Z.pow_mul_l. simpl (2 * 2).
    replace (4 ^ Z.pos p) with ((2 ^ Z.pos p) * (2 ^ Z.pos p)).
    + change (2 ^ 1) with 2. ring.
    + rewrite <- Z.pow_mul_l. reflexivity.
  - assert (H2 : 0 <= shr_m (iter_pos shr_1 p mrs)).
    { rewrite IH by assumption. apply Z.div_pos; lia. }
    rewrite IH, IH by assumption.
    rewrite Z.div_div by lia. f_equal.
    rewrite Pos2Z.inj_xO, <- Z.pow_add_r by lia. f_equal. lia.
  - rewrite shr_1_m by assumption. reflexivity.
Qed.

Lemma shr_record_of_loc_m (m : Z) (l : location) :
  shr_m (shr_record_of_loc m l) = m.
Proof. destruct l as [|[ | | ]]; reflexivity. Qed.

(** The first step of rounding: the mantissa is cut to the exponent
    [fexp] asks for, and its magnitude does not grow. *)
Lemma shr_fexp_bounded (m e : Z) (l : location) (D : Z) :
  0 <= m -> Zdigits2 m + e <= D -> -1074 <= D ->
  let '(mrs, e') := shr_fexp prec emax m e l in
  0 <= shr_m mrs /\ Zdigits2 (shr_m mrs) + e' <= D /\
  e' = Z.max e (fexp prec emax (Zdigits2 m + e)).
Proof.
  intros H0 HD Hmin. unfold shr_fexp, shr.
  pose proof (fexp_eq (Zdigits2 m + e)) as Ef.
  pose proof (Zdigits2_nonneg m) as Hd.
  destruct (fexp prec emax (Zdigits2 m + e) - e) as [|p|p] eqn:En.
  - rewrite shr_record_of_loc_m. repeat split; lia.
  - rewrite iter_shr_1_m by (rewrite shr_record_of_loc_m; assumption).
    rewrite shr_record_of_loc_m.
    assert (Hq : 0 <= m / 2 ^ Z.pos p) by (apply Z.div_pos; lia).
    split; [assumption|]. split; [|lia].
    destruct (Z_le_gt_dec (Z.pos p) (Zdigits2 m)) as [Hle|Hgt].
    + assert (Zdigits2 (m / 2 ^ Z.pos p) <= Zdigits2 m - Z.pos p); [|lia].
      apply Zdigits2_le_bound; [|lia]. split; [assumption|].
      apply Z.div_lt_upper_bound; [lia|].
      rewrite <- Z.pow_add_r by lia.
      replace (Z.pos p + (Zdigits2 m - Z.pos p)) with (Zdigits2 m) by lia.
      now apply Zdigits2_gt.
    + rewrite Z.div_small; [simpl; lia|]. split; [assumption|].
      apply Z.lt_le_trans with (2 ^ Zdigits2 m); [now apply Zdigits2_gt|].
      apply Z.pow_le_mono_r; lia.
  - rewrite shr_record_of_loc_m. repeat split; lia.
Qed.

Lemma round_nearest_even_bounds (m : Z) (l : location) :
  m <= round_nearest_even m l <= m + 1.
Proof.
  unfold round_nearest_even.
  destruct l as [|[ | | ]]; try destruct (Z.even m); lia.
Qed.

Lemma Zdigits2_le_mono (a b : Z) : 0 <= a <= b -> Zdigits2 a <= Zdigits2 b.
Proof.
  intros [Ha Hab]. apply Zdigits2_le_bound; [|apply Zdigits2_nonneg].
  split; [assumption|]. apply Z.le_lt_trans with b; [assumption|].
  apply Zdigits2_gt. lia.
Qed.

Lemma fbounded_weaken (D D' : Z) (f : float) :
  fbounded D f -> D <= D' -> fbounded D' f.
Proof. destruct f; simpl; lia. Qed.

(** Rounding a value below [2 ^ D] gives a float below [2 ^ (D + 1)]: no
    overflow as long as [D] stays under the largest exponent. *)
Lemma binary_round_aux_bounded (s : bool) (m e : Z) (l : location) (D : Z) :
  0 <= m -> Zdigits2 m + e <= D -> e <= 971 -> -1074 <= D <= 1023 ->
  fbounded (D + 1) (binary_round_aux prec emax s m e l).
Proof.
  intros H0 HD He [Hlo Hhi]. unfold binary_round_aux.
  pose proof (shr_fexp_bounded m e l D H0 HD Hlo) as H1.
  destruct (shr_fexp prec emax m e l) as [mrs' e'].
  destruct H1 as (Hm' & Hd' & He').
  set (m1 := round_nearest_even (shr_m mrs') (loc_of_shr_record mrs')).
  pose proof (round_nearest_even_bounds (shr_m mrs') (loc_of_shr_record mrs')) as Hr.
  fold m1 in Hr.
  assert (Hm1 : 0 <= m1) by lia.
  assert (Hd1 : Zdigits2 m1 + e' <= D + 1).
  { pose proof (Zdigits2_le_mono m1 (shr_m mrs' + 1)).
    pose proof (Zdigits2_succ_le (shr_m mrs') Hm'). lia. }
  pose proof (shr_fexp_bounded m1 e' loc_Exact (D + 1) Hm1 Hd1) as H2.
  destruct (shr_fexp prec emax m1 e' loc_Exact) as [mrs'' e''].
  destruct H2 as (Hm'' & Hd'' & He''); [lia|].
  rewrite fexp_eq in He', He''.
  pose proof (Zdigits2_nonneg m). pose proof (Zdigits2_nonneg m1).
  destruct (shr_m mrs'') as [|p|p] eqn:Ep; [exact I| |lia].
  replace (e'' <=? emax - prec) with true; [exact Hd''|].
  symmetry. apply Z.leb_le. unfold emax, prec. lia.
Qed.

Lemma fmul_bounded (x y : float) (Dx Dy : Z) :
  fbounded Dx x -> fbounded Dy y -> -1074 <= Dx + Dy <= 972 ->
  fbounded (Dx + Dy + 1) (fmul x y).
Proof.
  destruct x as [sx|sx| |sx mx ex], y as [sy|sy| |sy my ey];
    try (simpl; easy).
  unfold fbounded at 1 2. intros Hx Hy HD.
  pose proof (Zdigits2_pos (Z.pos mx) eq_refl) as Hdx.
  pose proof (Zdigits2_pos (Z.pos my) eq_refl) as Hdy.
  pose proof (Zdigits2_mul_le (Z.pos mx) (Z.pos my) ltac:(lia) ltac:(lia)) as Hmul.
  unfold fmul, SFmul.
  apply binary_round_aux_bounded; try lia.
  rewrite Pos2Z.inj_mul. lia.
Qed.

Lemma int_of_float_bounded (D : Z) (f : float) :
  fbounded D f -> exists v, int_of_float f = Some v.
Proof. destruct f; simpl; try easy; eauto. Qed.

(** [a / b] does not overflow when [|a| <= |b| * 2 ^ k]. *)
Lemma py_truediv_bounded (a b k : Z) :
  b <> 0 -> Z.abs a <= Z.abs b * 2 ^ k -> 0 <= k <= 1000 ->
  exists f, py_truediv a b = Some f /\ fbounded (k + 2) f.
Proof.
  intros Hb Hab Hk. unfold py_truediv.
  destruct (Z.eqb_spec b 0) as [|_]; [contradiction|].
  destruct (Z.eqb_spec a 0) as [|Ha]; [eexists; split; [reflexivity|exact I]|].
  unfold SFdiv_core_binary.
  set (d1 := Zdigits2 (Z.abs a)). set (d2 := Zdigits2 (Z.abs b)).
  set (e' := Z.min (fexp prec emax (d1 + 0 - (d2 + 0))) (0 - 0)).
  assert (He' : -1074 <= e' <= 0).
  { unfold e'. rewrite fexp_eq. lia. }
  set (s := 0 - 0 - e').
  set (m' := match s with Z.pos _ => Z.shiftl (Z.abs a) s | 0 => Z.abs a | Z.neg _ => 0 end).
  assert (Hm' : m' = Z.abs a * 2 ^ s).
  { unfold m'. destruct s as [|p|p] eqn:Es; [simpl; lia | | lia].
    apply Z.shiftl_mul_pow2. lia. }
  assert (Hs : 0 <= s) by (unfold s; lia).
  pose proof (Z.div_eucl_eq m' (Z.abs b)) as Hdiv.
  pose proof (Z.mod_pos_bound m' (Z.abs b)) as Hmod.
  unfold Z.modulo in Hmod.
  destruct (Z.div_eucl m' (Z.abs b)) as [q r].
  assert (Hbpos : 0 < Z.abs b) by lia.
  specialize (Hdiv ltac:(lia)). specialize (Hmod Hbpos).
  assert (Hpk : 0 < 2 ^ k) by (apply Z.pow_pos_nonneg; lia).
  assert (Hps : 0 < 2 ^ s) by (apply Z.pow_pos_nonneg; lia).
  assert (Hq0 : 0 <= q) by nia.
  assert (Hq1 : q <= 2 ^ (k + s)).
  { rewrite Z.pow_add_r by lia.
    assert (Z.abs b * q <= Z.abs b * (2 ^ k * 2 ^ s)); [|nia].
    assert (Z.abs a * 2 ^ s <= Z.abs b * 2 ^ k * 2 ^ s) by nia. nia. }
  assert (Hdq : Zdigits2 q <= k + s + 1).
  { apply Zdigits2_le_bound; [|lia]. split; [assumption|].
    rewrite (Z.pow_add_r 2 (k + s) 1) by lia. change (2 ^ 1) with 2. 
    assert (0 < 2 ^ (k + s)) by (apply Z.pow_pos_nonneg; lia). lia. }
  pose proof (binary_round_aux_bounded (xorb (a <? 0) (b <? 0)) q e'
                (new_location (Z.abs b) r) (k + 1)) as HB.
  specialize (HB Hq0 ltac:(unfold s in *; lia) ltac:(lia) ltac:(lia)).
  replace (k + 1 + 1) with (k + 2) in HB by lia.
  destruct (binary_round_aux prec emax (xorb (a <? 0) (b <? 0)) q e'
              (new_location (Z.abs b) r)) as [sz|sz| |sz mz ez];
    simpl in HB; try easy; eexists; (split; [reflexivity|assumption]).
Qed.

(** ** Floats: the value of the results *)

(** Powers of two. *)
Lemma pow2_split (a b : Z) : 0 <= a -> 0 <= b -> 2 ^ (a + b) = 2 ^ a * 2 ^ b.
Proof. intros. now apply Z.pow_add_r. Qed.

Lemma pow2_pos (a : Z) : 0 <= a -> 0 < 2 ^ a.
Proof. intros. now apply Z.pow_pos_nonneg. Qed.

Lemma pow2_le (a b : Z) : a <= b -> 2 ^ a <= 2 ^ b.
Proof.
  intros H. destruct (Z_lt_le_dec a 0) as [Hn|Hp].
  - rewrite (Z.pow_neg_r 2 a) by assumption. apply Z.pow_nonneg. lia.
  - apply Z.pow_le_mono_r; lia.
Qed.

Lemma fexp_mono (x y : Z) : x <= y -> fexp prec emax x <= fexp prec emax y.
Proof. rewrite !fexp_eq. lia. Qed.

(** The mantissa [shr_fexp] leaves is the given one cut by the shift. *)
Lemma shr_fexp_value (m e : Z) (l : location) :
  0 <= m ->
  let '(mrs, e') := shr_fexp prec emax m e l in
  e' = Z.max e (fexp prec emax (Zdigits2 m + e)) /\
  shr_m mrs = m / 2 ^ (e' - e).
Proof.
  intros H0. unfold shr_fexp, shr.
  destruct (fexp prec emax (Zdigits2 m + e) - e) as [|p|p] eqn:En.
  - rewrite shr_record_of_loc_m. split; [lia|].
    rewrite Z.sub_diag, Z.pow_0_r. now rewrite Z.div_1_r.
  - rewrite iter_shr_1_m by (rewrite shr_record_of_loc_m; assumption).
    rewrite shr_record_of_loc_m. split; [lia|].
    f_equal. f_equal. lia.
  - rewrite shr_record_of_loc_m. split; [lia|].
    rewrite Z.sub_diag, Z.pow_0_r. now rewrite Z.div_1_r.
Qed.

(** Cutting [k] bits off a mantissa, on a scale where both are integers. *)
Lemma cut_bounds (m k x : Z) :
  0 <= m -> 0 <= k -> 0 <= x ->
  (m / 2 ^ k) * 2 ^ (k + x) <= m * 2 ^ x /\
  m * 2 ^ x < (m / 2 ^ k + 1) * 2 ^ (k + x).
Proof.
  intros Hm Hk Hx. rewrite pow2_split by assumption.
  pose proof (pow2_pos k Hk) as Pk. pose proof (pow2_pos x Hx) as Px.
  pose proof (Z.mul_div_le m (2 ^ k) Pk) as H1.
  pose proof (Z.mul_succ_div_gt m (2 ^ k) Pk) as H2.
  split; nia.
Qed.

(** Rounding a mantissa [m] at exponent [e], of magnitude below [2 ^ D]:
    the result is a zero or a finite number of the sign given, one unit in
    the last place at most from [m * 2 ^ e] on either side.  [N] is any
    scale on which the numbers are integers. *)
Lemma binary_round_aux_value (s : bool) (m e : Z) (l : location) (D N : Z) :
  0 <= m -> Zdigits2 m + e <= D -> e <= 971 -> -1074 <= D <= 1023 ->
  - N <= e ->
  exists m2 e2,
    0 <= m2 /\
    binary_round_aux prec emax s m e l =
      match m2 with
      | Z.pos p => S754_finite s p e2
      | _ => S754_zero s
      end /\
    Z.max e (-1074) <= e2 <= Z.max e (fexp prec emax (D + 1)) /\
    m2 * 2 ^ (e2 + N) <=
      m * 2 ^ (e + N) + 2 ^ (Z.max e (fexp prec emax D) + N) /\
    m * 2 ^ (e + N) <
      m2 * 2 ^ (e2 + N) + 2 ^ (Z.max e (fexp prec emax (D + 1)) + N).
Proof.
  intros H0 HD He [Hlo Hhi] HN. unfold binary_round_aux.
  pose proof (shr_fexp_bounded m e l D H0 HD Hlo) as H1.
  pose proof (shr_fexp_value m e l H0) as V1.
  destruct (shr_fexp prec emax m e l) as [mrs' e'].
  destruct H1 as (Hm' & Hd' & He'). destruct V1 as (_ & Vm').
  set (m1 := round_nearest_even (shr_m mrs') (loc_of_shr_record mrs')).
  pose proof (round_nearest_even_bounds (shr_m mrs') (loc_of_shr_record mrs')) as Hr.
  fold m1 in Hr.
  assert (Hm1 : 0 <= m1) by lia.
  assert (Hd1 : Zdigits2 m1 + e' <= D + 1).
  { pose proof (Zdigits2_le_mono m1 (shr_m mrs' + 1)).
    pose proof (Zdigits2_succ_le (shr_m mrs') Hm'). lia. }
  pose proof (shr_fexp_bounded m1 e' loc_Exact (D + 1) Hm1 Hd1) as H2.
  pose proof (shr_fexp_value m1 e' loc_Exact Hm1) as V2.
  destruct (shr_fexp prec emax m1 e' loc_Exact) as [mrs'' e''].
  destruct H2 as (Hm'' & Hd'' & He''); [lia|]. destruct V2 as (_ & Vm'').
  pose proof (fexp_mono (Zdigits2 m + e) D HD) as F1.
  pose proof (fexp_mono (Zdigits2 m1 + e') (D + 1) Hd1) as F2.
  pose proof (fexp_mono D (D + 1) ltac:(lia)) as F3.
  assert (E1 : e <= e' <= Z.max e (fexp prec emax D)) by lia.
  assert (E2 : e' <= e'' <= Z.max e (fexp prec emax (D + 1))) by lia.
  exists (shr_m mrs''), e''. split; [exact Hm''|]. split.
  { rewrite fexp_eq in He', He''.
    pose proof (Zdigits2_nonneg m). pose proof (Zdigits2_nonneg m1).
    destruct (shr_m mrs'') as [|p|p] eqn:Ep; [reflexivity| |lia].
    replace (e'' <=? emax - prec) with true; [reflexivity|].
    symmetry. apply Z.leb_le. unfold emax, prec. lia. }
  split; [rewrite fexp_eq in He'; lia|].
  destruct (cut_bounds m (e' - e) (e + N) H0 ltac:(lia) ltac:(lia)) as (A1 & A2).
  destruct (cut_bounds m1 (e'' - e') (e' + N) Hm1 ltac:(lia) ltac:(lia))
    as (B1 & B2).
  replace (e' - e + (e + N)) with (e' + N) in A1, A2 by lia.
  replace (e'' - e' + (e' + N)) with (e'' + N) in B1, B2 by lia.
  rewrite <- Vm' in A1, A2. rewrite <- Vm'' in B1, B2.
  pose proof (pow2_pos (e' + N) ltac:(lia)) as P1.
  pose proof (pow2_pos (e'' + N) ltac:(lia)) as P2.
  pose proof (pow2_le (e' + N) (Z.max e (fexp prec emax D) + N) ltac:(lia)) as L1.
  pose proof (pow2_le (e'' + N) (Z.max e (fexp prec emax (D + 1)) + N) ltac:(lia))
    as L2.
  pose proof (pow2_le (e' + N) (e'' + N) ltac:(lia)) as L3.
  split.
  - apply Z.le_trans with (m1 * 2 ^ (e' + N)); [exact B1|].
    apply Z.le_trans with ((shr_m mrs' + 1) * 2 ^ (e' + N)); [nia|]. nia.
  - apply Z.lt_le_trans with ((shr_m mrs' + 1) * 2 ^ (e' + N)); [exact A2|].
    apply Z.le_trans with ((m1 + 1) * 2 ^ (e' + N)); [nia|].
    assert (B3 : (m1 + 1) * 2 ^ (e' + N) <= (shr_m mrs'' + 1) * 2 ^ (e'' + N)).
    { (* [m1 * u < (m'' + 1) * u''] with [u] dividing [u'']. *)
      assert (Eu : 2 ^ (e'' + N) = 2 ^ (e'' - e') * 2 ^ (e' + N)).
      { rewrite <- pow2_split by lia. f_equal. lia. }
      pose proof (pow2_pos (e'' - e') ltac:(lia)) as P3.
      rewrite Eu in B2 |- *.
      assert (m1 < (shr_m mrs'' + 1) * 2 ^ (e'' - e')) by nia.
      nia. }
    nia.
Qed.

Lemma scaled_at_round (s : bool) (m2 e2 N : Z) :
  0 <= m2 ->
  scaled_at N (match m2 with
               | Z.pos p => S754_finite s p e2
               | _ => S754_zero s
               end) = m2 * 2 ^ (e2 + N).
Proof. destruct m2; try lia; reflexivity. Qed.

(** The quotient of two integers, [0 < a <= b]: within [2 ^ (-50)] of
    [a / b]. *)
Lemma py_truediv_value (a b N : Z) :
  0 < a <= b -> 1074 <= N ->
  exists f,
    py_truediv a b = Some f /\ finite_nonneg f /\ in_format f /\
    fbounded 2 f /\
    b * scaled_at N f <= a * 2 ^ N + b * 2 ^ (N - 52) /\
    a * 2 ^ N < b * scaled_at N f + b * 2 ^ (N - 51) + b * 2 ^ (N - 53).
Proof.
  intros [Ha Hab] HN.
  destruct (py_truediv_bounded a b 0) as (f0 & Ef0 & Bf0); [lia| |lia|].
  { rewrite Z.pow_0_r. lia. }
  revert Ef0. unfold py_truediv.
  destruct (Z.eqb_spec b 0) as [|_]; [lia|].
  destruct (Z.eqb_spec a 0) as [|_]; [lia|].
  replace (a <? 0) with false by (symmetry; apply Z.ltb_ge; lia).
  replace (b <? 0) with false by (symmetry; apply Z.ltb_ge; lia).
  rewrite !Z.abs_eq by lia.
  unfold SFdiv_core_binary.
  set (d1 := Zdigits2 a). set (d2 := Zdigits2 b).
  assert (Hd : d1 <= d2) by (apply Zdigits2_le_mono; lia).
  set (e0 := Z.min (fexp prec emax (d1 + 0 - (d2 + 0))) (0 - 0)).
  assert (He0 : -1074 <= e0 <= -53).
  { unfold e0. rewrite fexp_eq. lia. }
  set (s := 0 - 0 - e0).
  set (m' := match s with Z.pos _ => Z.shiftl a s | 0 => a | Z.neg _ => 0 end).
  assert (Hm' : m' = a * 2 ^ s).
  { unfold m'. destruct s as [|p|p] eqn:Es; [simpl; lia | | lia].
    apply Z.shiftl_mul_pow2. lia. }
  assert (Hs : 0 <= s) by (unfold s; lia).
  pose proof (Z.div_eucl_eq m' b) as Hdiv.
  pose proof (Z.mod_pos_bound m' b) as Hmod.
  unfold Z.modulo in Hmod.
  destruct (Z.div_eucl m' b) as [q r].
  specialize (Hdiv ltac:(lia)). specialize (Hmod ltac:(lia)).
  pose proof (pow2_pos s Hs) as Ps.
  assert (Hq0 : 0 <= q) by nia.
  assert (Hq1 : q <= 2 ^ s) by nia.
  assert (Hdq : Zdigits2 q <= s + 1).
  { apply Zdigits2_le_bound; [|lia]. split; [assumption|].
    rewrite pow2_split by lia. change (2 ^ 1) with 2. lia. }
  destruct (binary_round_aux_value (xorb false false) q e0
              (new_location b r) 1 N Hq0)
    as (m2 & e2 & Hm2 & Er & He2 & U & L); [unfold s in Hdq; lia|lia|lia|lia|].
  rewrite !fexp_eq in He2, U, L.
  replace (Z.max e0 (Z.max (1 - 53) (-1074))) with (-52) in U by lia.
  replace (Z.max e0 (Z.max (1 + 1 - 53) (-1074))) with (-51) in He2, L by lia.
  replace (-52 + N) with (N - 52) in U by lia.
  replace (-51 + N) with (N - 51) in L by lia.
  rewrite Er. cbn [xorb].
  intros Ef0.
  assert (EN : 2 ^ N = 2 ^ s * 2 ^ (e0 + N)).
  { rewrite <- pow2_split by lia. f_equal. unfold s. lia. }
  pose proof (pow2_pos (e0 + N) ltac:(lia)) as P0.
  pose proof (pow2_le (e0 + N) (N - 53) ltac:(lia)) as L0.
  assert (EaN : a * 2 ^ N = (b * q + r) * 2 ^ (e0 + N)).
  { rewrite EN, <- Hdiv, Hm'. ring. }
  exists (match m2 with
          | Z.pos p => S754_finite false p e2
          | _ => S754_zero false
          end).
  split; [|split; [|split; [|split; [|split]]]].
  - destruct m2 as [|p2|p2]; reflexivity.
  - destruct m2; try lia; exact I.
  - destruct m2; try lia; [exact I|]. simpl. lia.
  - destruct m2 as [|p2|p2]; try lia; [exact I|].
    injection Ef0 as <-. exact Bf0.
  - rewrite scaled_at_round, EaN by assumption.
    pose proof (pow2_pos (N - 52) ltac:(lia)).
    nia.
  - rewrite scaled_at_round, EaN by assumption.
    assert (b * (q * 2 ^ (e0 + N)) < b * (m2 * 2 ^ (e2 + N) + 2 ^ (N - 51)))
      by (apply Z.mul_lt_mono_pos_l; lia).
    nia.
Qed.

Lemma hundred_eq : float_of_Z 100 = S754_finite false 7036874417766400 (-46).
Proof. vm_compute. reflexivity. Qed.

(** A float at most 2 in magnitude times [100.0]. *)
Lemma fmul_hundred_value (f : float) (N : Z) :
  finite_nonneg f -> in_format f -> fbounded 2 f -> 1120 <= N ->
  let r := fmul f (float_of_Z 100) in
  finite_nonneg r /\ in_format r /\
  scaled_at N r <= 100 * scaled_at N f + 2 ^ (N - 44) /\
  100 * scaled_at N f < scaled_at N r + 2 ^ (N - 43).
Proof.
  intros Hf Hin Hb HN. rewrite hundred_eq.
  destruct f as [[|]|[|]| |[|] mf ef]; try contradiction; cbv zeta.
  - cbn. pose proof (pow2_pos (N - 44) ltac:(lia)).
    pose proof (pow2_pos (N - 43) ltac:(lia)). repeat split; lia.
  - unfold in_format in Hin. unfold fbounded in Hb. unfold fmul, SFmul.
    pose proof (Zdigits2_pos (Z.pos mf) eq_refl) as Hdf.
    pose proof (Zdigits2_mul_le (Z.pos mf) 7036874417766400
                  ltac:(lia) ltac:(lia)) as Hmul.
    change (Zdigits2 7036874417766400) with 53 in Hmul.
    destruct (binary_round_aux_value (xorb false false)
                (Z.pos (mf * 7036874417766400)) (ef + -46) loc_Exact 9 N)
      as (m2 & e2 & Hm2 & Er & He2 & U & L);
      [lia|rewrite Pos2Z.inj_mul; lia|lia|lia|lia|].
    rewrite !fexp_eq in He2, U, L.
    replace (Z.max (ef + -46) (Z.max (9 - 53) (-1074))) with (-44) in U by lia.
    replace (Z.max (ef + -46) (Z.max (9 + 1 - 53) (-1074))) with (-43)
      in He2, L by lia.
    replace (-44 + N) with (N - 44) in U by lia.
    replace (-43 + N) with (N - 43) in L by lia.
    rewrite Er. cbn [xorb].
    rewrite scaled_at_round by assumption.
    assert (Ep : Z.pos (mf * 7036874417766400) * 2 ^ (ef + -46 + N) =
                 100 * (Z.pos mf * 2 ^ (ef + N))).
    { replace (ef + N) with (46 + (ef + -46 + N)) by lia.
      rewrite (pow2_split 46 (ef + -46 + N)) by lia. rewrite Pos2Z.inj_mul.
      change (Z.pos 7036874417766400) with (100 * 2 ^ 46). ring. }
    rewrite Ep in U, L. cbn [scaled_at].
    split; [destruct m2; try lia; exact I|].
    split; [destruct m2; try lia; [exact I|]; simpl; lia|].
    split; [exact U|exact L].
Qed.

(** [int] of a float that is not negative: the integer part. *)
Lemma int_of_float_value (f : float) (N : Z) :
  finite_nonneg f -> in_format f -> 1074 <= N ->
  int_of_float f = Some (scaled_at N f / 2 ^ N).
Proof.
  intros Hf Hin HN.
  destruct f as [[|]|[|]| |[|] m e]; try contradiction.
  - reflexivity.
  - unfold in_format in Hin. unfold int_of_float, scaled_at. cbn [cond_Zopp].
    f_equal. destruct (Z_lt_le_dec e 0) as [Hn|Hp].
    + rewrite Z.shiftl_div_pow2 by lia.
      replace (2 ^ N) with (2 ^ (- e) * 2 ^ (e + N))
        by (rewrite <- pow2_split by lia; f_equal; lia).
      rewrite Z.div_mul_cancel_r; [reflexivity| |];
        apply Z.pow_nonzero; lia.
    + rewrite Z.shiftl_mul_pow2 by lia.
      rewrite (pow2_split e N) by lia. rewrite Z.mul_assoc.
      rewrite Z.div_mul; [reflexivity|]. apply Z.pow_nonzero; lia.
Qed.

Lemma scaled_at_nonneg (N : Z) (f : float) : 0 <= scaled_at N f.
Proof.
  destruct f; unfold scaled_at; lia.
Qed.

(** ** ORP resolver and flash composer *)

Section OrpProperties.

(** The alphanumeric class beyond ASCII is arbitrary. *)
Variable U : char -> bool.

Lemma orp_rank_lt (n : nat) : (0 < n)%nat -> (orp_rank n < n)%nat.
Proof.
  intros Hn. unfold orp_rank.
  repeat match goal with
         | |- context [(?a <=? ?b)%nat] => destruct (Nat.leb_spec a b)
         end; try lia.
  apply Nat.div_lt; lia.
Qed.

(** The loop returns the position of the word character of rank
    [t - k] of [w], shifted by [i], when [w] has that many. *)
Lemma find_orp_loop_found (w : str) :
  forall t i k, (k <= t)%nat ->
  (t - k < length (letters_only U w))%nat ->
  exists j c,
    find_orp_loop U t i k w = (i + j)%nat /\
    nth_error w j = Some c /\ is_word U c = true /\
    length (letters_only U (firstn j w)) = (t - k)%nat.
Proof.
  induction w as [|c r IH]; intros t i k Hk Hlen; [simpl in Hlen; lia|].
  unfold letters_only in *. simpl in *.
  destruct (is_word U c) eqn:Ec.
  - destruct (Nat.eqb_spec k t) as [->|Hne].
    + exists 0%nat, c. rewrite Nat.add_0_r, Nat.sub_diag. auto.
    + simpl in Hlen.
      destruct (IH t (S i) (S k)) as (j & c' & Hf & Hn & Hw & Hc); [lia|lia|].
      exists (S j), c'. rewrite Hf. simpl. rewrite Ec. simpl.
      repeat split; auto; lia.
  - destruct (IH t (S i) k) as (j & c' & Hf & Hn & Hw & Hc); [lia|lia|].
    exists (S j), c'. rewrite Hf. simpl. rewrite Ec.
    repeat split; auto; lia.
Qed.

Lemma find_orp_loop_fallback (w : str) :
  forall t i k, (k <= t)%nat ->
  (length (letters_only U w) <= t - k)%nat ->
  find_orp_loop U t i k w = 0%nat.
Proof.
  induction w as [|c r IH]; intros t i k Hk Hlen; [reflexivity|].
  unfold letters_only in *. simpl in *.
  destruct (is_word U c) eqn:Ec.
  - simpl in Hlen. destruct (Nat.eqb_spec k t) as [->|Hne]; [lia|].
    apply IH; lia.
  - apply IH; lia.
Qed.

(** C2. With [n] the number of word characters of the text, the rank of
    the fixation character follows the table (0 for at most one, 1 for 2
    to 5, 2 for 6 to 9, 3 for 10 to 13, a quarter of [n] rounded down from
    14 on); [find_orp_in_word] returns the index, in the text itself, of
    the word character of that rank, and 0 when the text has no word
    character.  The ORP of ["a"] is 0 and that of ["hello,"] is 1; 1, 5, 9,
    13 and 20 word characters give the ranks 0, 1, 2, 3 and 5. *)
Theorem find_orp_in_word_rank :
  (forall w : str,
     let n := length (letters_only U w) in
     let r := calculate_orp_index U w in
     ((n <= 1 -> r = 0) /\ (2 <= n <= 5 -> r = 1) /\ (6 <= n <= 9 -> r = 2) /\
      (10 <= n <= 13 -> r = 3) /\ (14 <= n -> r = n / 4))%nat /\
     (n = 0%nat -> find_orp_in_word U w = 0%nat) /\
     (n <> 0%nat ->
      exists c, nth_error w (find_orp_in_word U w) = Some c /\
                is_word U c = true /\
                length (letters_only U (firstn (find_orp_in_word U w) w)) = r)) /\
  find_orp_in_word U (lit "a") = 0%nat /\
  find_orp_in_word U (lit "hello,") = 1%nat /\
  (forall w n r, In (n, r) [(1, 0); (5, 1); (9, 2); (13, 3); (20, 5)]%nat ->
     length (letters_only U w) = n -> calculate_orp_index U w = r).
Proof.
  split; [|split; [reflexivity|split; [reflexivity|]]].
  - intros w n r. split; [|split].
    + unfold r, calculate_orp_index, orp_rank. fold n.
      repeat match goal with
             | |- context [(?a <=? ?b)%nat] => destruct (Nat.leb_spec a b)
             end; repeat split; intros; try lia; reflexivity.
    + intros Hn. unfold find_orp_in_word. apply find_orp_loop_fallback; [lia|].
      fold n. lia.
    + intros Hn. unfold find_orp_in_word.
      destruct (find_orp_loop_found w (calculate_orp_index U w) 0 0)
        as (j & c & Hf & Hc & Hw & Hl); [lia| |].
      * rewrite Nat.sub_0_r. apply orp_rank_lt. fold n. lia.
      * rewrite Hf. simpl. exists c. rewrite Nat.sub_0_r in Hl. auto.
  - intros w n r Hin Hlen. unfold calculate_orp_index. rewrite Hlen.
    simpl in Hin.
    repeat (destruct Hin as [Hin|Hin]; [injection Hin as <- <-; reflexivity|]).
    contradiction.
Qed.

(** *** Flash composer *)

Lemma join_nonempty (sep : str) (ws : list str) :
  ws <> [] -> Forall (fun w => w <> []) ws -> join sep ws <> [].
Proof.
  intros Hne Hall. destruct ws as [|w rest]; [congruence|].
  inversion Hall as [|? ? Hw _]; subst.
  simpl. destruct rest; [assumption|].
  destruct w; [congruence|discriminate].
Qed.

Lemma firstn_guard (A : Type) (n : nat) (l : list A) :
  (if (0 <? n)%nat then firstn n l else []) = firstn n l.
Proof. destruct n; reflexivity. Qed.

Lemma skipn_guard (A : Type) (n : nat) (l : list A) :
  (if (n <? length l)%nat then skipn n l else []) = skipn n l.
Proof.
  destruct (Nat.ltb_spec n (length l)); [reflexivity|].
  symmetry. now apply skipn_all2.
Qed.

Lemma display_word_labels (w : str) (d : display) :
  labels (display_word U w d) = split_at_orp U w.
Proof.
  unfold display_word, split_at_orp.
  destruct w as [|c r] eqn:E; [reflexivity|]. rewrite <- E. clear E.
  unfold labels. cbn [left_label orp_label right_label set_labels].
  now rewrite firstn_guard, skipn_guard.
Qed.

Lemma display_phrase_labels (words : list str) (d : display) :
  (2 <= length words)%nat -> Forall (fun w => w <> []) words ->
  labels (display_phrase U words d) = compose U words.
Proof.
  intros Hlen Hall. unfold display_phrase, compose, split_at_orp.
  destruct words as [|w0 [|w1 rest]] eqn:E; [simpl in Hlen; lia..|].
  rewrite <- E in *. clear E.
  set (middle := (length words / 2)%nat).
  rewrite firstn_guard, skipn_guard.
  unfold labels. cbn [left_label orp_label right_label set_labels].
  f_equal; [f_equal|].
  - unfold sep_join.
    destruct (join [SPACE] (firstn middle words)),
      (firstn (find_orp_in_word U (nth middle words [])) (nth middle words []));
      rewrite ?app_nil_r; reflexivity.
  - assert (Hj : skipn (middle + 1) words <> [] ->
                 join [SPACE] (skipn (middle + 1) words) <> []).
    { intros Hne. apply join_nonempty; [assumption|].
      rewrite <- (firstn_skipn (middle + 1) words) in Hall.
      now apply Forall_app in Hall. }
    unfold sep_join.
    destruct (skipn (find_orp_in_word U (nth middle words []) + 1)
                (nth middle words [])) as [|x r];
      destruct (skipn (middle + 1) words) as [|u us] eqn:Es;
      try reflexivity.
    destruct (join [SPACE] (u :: us)) eqn:Ej; [|reflexivity].
    exfalso. now apply Hj.
Qed.

(** C6. A flash of two or more (non-empty) tokens is laid out around its
    middle token, the one of index [length / 2]: that token is split at its
    ORP, the tokens before it, joined by single spaces, go before its left
    part and the tokens after it, joined by single spaces, after its right
    part, with a space in between when both sides are non-empty.  A single
    token is split as [text[:orp]], [text[orp]], [text[orp + 1:]]. *)
Theorem display_phrase_compose (words : list str) (d : display) :
  (2 <= length words)%nat -> Forall (fun w => w <> []) words ->
  labels (display_phrase U words d) = compose U words /\
  compose U words =
    (let middle := (length words / 2)%nat in
     let text := nth middle words [] in
     let orp := find_orp_in_word U text in
     (sep_join (join [SPACE] (firstn middle words)) (firstn orp text),
      char_at text orp,
      sep_join (skipn (orp + 1) text)
               (join [SPACE] (skipn (middle + 1) words)))) /\
  (forall text d',
     labels (display_word U text d') = split_at_orp U text /\
     labels (display_phrase U [text] d') = split_at_orp U text /\
     split_at_orp U text =
       (firstn (find_orp_in_word U text) text,
        char_at text (find_orp_in_word U text),
        skipn (find_orp_in_word U text + 1) text)).
Proof.
  intros Hlen Hall. split; [now apply display_phrase_labels|].
  split; [reflexivity|].
  intros text d'. split; [apply display_word_labels|].
  split; [apply display_word_labels | reflexivity].
Qed.

End OrpProperties.

(** C6 on the flash ["ab hello, cd"]: the focus is the [e] of the middle
    token. *)
Lemma display_phrase_compose_witness :
  labels (display_phrase ascii_only [lit "ab"; lit "hello,"; lit "cd"]
            (orp_display init)) =
  (lit "ab h", lit "e", lit "llo, cd").
Proof.
  refine (eq_trans
    (proj1 (display_phrase_compose ascii_only
              [lit "ab"; lit "hello,"; lit "cd"] (orp_display init) _ _)) _).
  - simpl. lia.
  - repeat constructor; discriminate.
  - reflexivity.
Defined.

(** ** Playback scheduler *)

Lemma bind_Some (A B : Type) (m : option A) (k : A -> option B) (b : B) :
  bind m k = Some b -> exists a, m = Some a /\ k a = Some b.
Proof. destruct m as [a|]; simpl; [eauto|discriminate]. Qed.

Lemma len_nonneg (A : Type) (l : list A) : 0 <= len l.
Proof. unfold len. lia. Qed.

Lemma len_nil_iff (A : Type) (l : list A) : len l = 0 <-> l = [].
Proof. unfold len. destruct l; simpl; split; intros; try reflexivity; try discriminate; lia. Qed.

Lemma len_pos (A : Type) (l : list A) : l <> [] -> 1 <= len l.
Proof. unfold len. destruct l; [congruence|simpl; lia]. Qed.

(** *** Slices *)

Lemma py_slice_length (A : Type) (l : list A) (i j : Z) :
  0 <= i <= j -> j <= len l -> len (py_slice l i j) = j - i.
Proof.
  intros Hi Hj. unfold py_slice, slice_bound, len in *.
  destruct (Z.ltb_spec i 0); [lia|]. destruct (Z.ltb_spec j 0); [lia|].
  rewrite !Z.min_l by lia.
  rewrite length_firstn, length_skipn. lia.
Qed.

Lemma In_firstn (A : Type) (n : nat) (l : list A) (x : A) :
  In x (firstn n l) -> In x l.
Proof.
  intros H. rewrite <- (firstn_skipn n l). apply in_or_app. now left.
Qed.

Lemma In_skipn (A : Type) (n : nat) (l : list A) (x : A) :
  In x (skipn n l) -> In x l.
Proof.
  intros H. rewrite <- (firstn_skipn n l). apply in_or_app. now right.
Qed.

Lemma py_slice_incl (A : Type) (l : list A) (i j : Z) (x : A) :
  In x (py_slice l i j) -> In x l.
Proof.
  unfold py_slice. intros H.
  apply In_firstn in H. now apply In_skipn in H.
Qed.

(** *** The maximum of the multipliers *)

Lemma max_from_pacing (xs : list float) :
  forall m,
  In m [ONE; COMMA_DELAY_MULTIPLIER; PERIOD_DELAY_MULTIPLIER] ->
  Forall (fun x => In x [ONE; COMMA_DELAY_MULTIPLIER; PERIOD_DELAY_MULTIPLIER]) xs ->
  In (max_from m xs) (m :: xs) /\
  Forall (fun x => fltb (max_from m xs) x = false) (m :: xs).
Proof.
  induction xs as [|x r IH]; intros m Hm Hxs.
  - simpl. split; [now left|]. constructor; [|constructor].
    simpl in Hm. decompose [or] Hm; subst; try reflexivity; contradiction.
  - inversion Hxs as [|? ? Hx Hr]; subst. simpl max_from.
    assert (Hm' : In (if fltb m x then x else m)
                     [ONE; COMMA_DELAY_MULTIPLIER; PERIOD_DELAY_MULTIPLIER])
      by (destruct (fltb m x); assumption).
    destruct (IH _ Hm' Hr) as [Hin Hall].
    inversion Hall as [|? ? Hhead Htail]; subst.
    split.
    + destruct Hin as [Hin|Hin]; [|right; now right].
      rewrite <- Hin. destruct (fltb m x); [right; now left | now left].
    + assert (Hres : In (max_from (if fltb m x then x else m) r)
                        [ONE; COMMA_DELAY_MULTIPLIER; PERIOD_DELAY_MULTIPLIER]).
      { destruct Hin as [Hin|Hin]; [now rewrite <- Hin|].
        rewrite Forall_forall in Hr. now apply Hr. }
      set (res := max_from (if fltb m x then x else m) r) in *.
      clearbody res.
      constructor; [|constructor; [|assumption]];
        simpl in Hm, Hx, Hres;
        decompose [or] Hm; decompose [or] Hx; decompose [or] Hres;
        subst; try contradiction; try reflexivity;
        vm_compute in Hhead; try discriminate Hhead.
Qed.

Lemma py_max_pacing (xs : list float) :
  xs <> [] ->
  Forall (fun x => In x [ONE; COMMA_DELAY_MULTIPLIER; PERIOD_DELAY_MULTIPLIER]) xs ->
  exists m, py_max xs = Some m /\ In m xs /\
            Forall (fun x => fltb m x = false) xs.
Proof.
  intros Hne Hall. destruct xs as [|x r]; [congruence|].
  inversion Hall; subst.
  exists (max_from x r). split; [reflexivity|].
  now apply max_from_pacing.
Qed.

Lemma pacing_bounded (m : float) :
  In m [ONE; COMMA_DELAY_MULTIPLIER; PERIOD_DELAY_MULTIPLIER] -> fbounded 2 m.
Proof.
  simpl. intros H. decompose [or] H; subst; try contradiction; simpl; lia.
Qed.

(** *** Progress and delay never raise *)

Lemma progress_percent_total (position length : Z) :
  0 <= position <= length -> 0 < length ->
  exists v, progress_percent position length = Some v.
Proof.
  intros Hp Hl. unfold progress_percent.
  destruct (py_truediv_bounded position length 0) as (q & Eq & Bq); [lia| |lia|].
  { rewrite Z.pow_0_r. lia. }
  rewrite Eq. simpl bind.
  apply (int_of_float_bounded (0 + 2 + 7 + 1)).
  apply fmul_bounded; [assumption| |lia].
  vm_compute. discriminate.
Qed.

Lemma flash_delay_total (wpm wpf : Z) (m : float) :
  wpm <> 0 ->
  In m [ONE; COMMA_DELAY_MULTIPLIER; PERIOD_DELAY_MULTIPLIER] ->
  exists d msec, flash_delay wpm wpf m = Some d /\ int_of_float d = Some msec.
Proof.
  intros Hw Hm. unfold flash_delay.
  destruct (py_truediv_bounded 60000 wpm 16) as (b & Eb & Bb); [assumption| |lia|].
  { change (Z.abs 60000) with 60000. change (2 ^ 16) with 65536. lia. }
  rewrite Eb. simpl bind.
  assert (B1 : fbounded (16 + 2 + 2 + 1) (fmul b m)).
  { apply fmul_bounded; [assumption|now apply pacing_bounded|lia]. }
  assert (B2 : fbounded (16 + 2 + 2 + 1 + 1 + 1)
                 (fmul (fmul b m) MULTI_WORD_DELAY_MULTIPLIER)).
  { apply fmul_bounded; [assumption| |lia]. simpl. lia. }
  destruct (wpf >? 1).
  - destruct (int_of_float_bounded _ _ B2) as [v Ev]. eauto.
  - destruct (int_of_float_bounded _ _ B1) as [v Ev]. eauto.
Qed.

(** The quotient of a positive integer by itself is exactly 1.0, so the
    progress at the end of the stream is exactly 100. *)
Lemma py_truediv_same (n : Z) : 0 < n -> py_truediv n n = Some ONE.
Proof.
  intros Hn. unfold py_truediv.
  destruct (Z.eqb_spec n 0) as [|_]; [lia|].
  unfold SFdiv_core_binary.
  rewrite Z.abs_eq by lia.
  replace (Zdigits2 n + 0 - (Zdigits2 n + 0)) with 0 by lia.
  change (Z.min (fexp prec emax 0) (0 - 0)) with (-53).
  change (0 - 0 - -53) with 53.
  rewrite Z.shiftl_mul_pow2 by lia.
  assert (Hq : Z.div_eucl (n * 2 ^ 53) n = (2 ^ 53, 0)).
  { pose proof (Z.div_mul (2 ^ 53) n ltac:(lia)) as Hd.
    pose proof (Z.mod_mul (2 ^ 53) n ltac:(lia)) as Hm.
    unfold Z.div, Z.modulo in Hd, Hm. rewrite (Z.mul_comm n).
    destruct (Z.div_eucl (2 ^ 53 * n) n) as [q r]. now subst. }
  rewrite Hq.
  replace (n <? 0) with false by (symmetry; apply Z.ltb_ge; lia).
  replace (new_location n 0) with loc_Exact
    by (unfold new_location; now destruct (Z.even n)).
  reflexivity.
Qed.

Lemma progress_percent_end (n : Z) : 0 < n -> progress_percent n n = Some 100.
Proof.
  intros Hn. unfold progress_percent. rewrite py_truediv_same by assumption.
  reflexivity.
Qed.

Lemma progress_percent_start (n : Z) : 0 < n -> progress_percent 0 n = Some 0.
Proof.
  intros Hn. unfold progress_percent, py_truediv.
  destruct (Z.eqb_spec n 0) as [|_]; [lia|]. reflexivity.
Qed.

(** The literals of the module are the doubles nearest to their decimal
    values, and the quotient and the truncation agree with CPython on
    sample values. *)
Example float_literals :
  py_truediv 12 10 = Some MULTI_WORD_DELAY_MULTIPLIER /\
  py_truediv 3 2 = Some COMMA_DELAY_MULTIPLIER /\
  float_of_Z 2 = PERIOD_DELAY_MULTIPLIER /\
  float_of_Z 1 = ONE.
Proof. repeat apply conj; vm_compute; reflexivity. Qed.

Example py_truediv_samples :
  py_truediv 60000 700 = Some (S754_finite false 6031606643799771 (-46)) /\
  py_truediv (2 ^ 70 + 1) 3 = Some (S754_finite false 6004799503160661 16) /\
  py_truediv 3 (2 ^ 80 + 5) = Some (S754_finite false 6755399441055744 (-131)) /\
  py_truediv 0 (-5) = Some (S754_zero true) /\
  py_truediv 1 0 = None.
Proof. repeat apply conj; vm_compute; reflexivity. Qed.

Example progress_percent_samples :
  progress_percent 29 100 = Some 28 /\
  progress_percent 1 3 = Some 33 /\
  progress_percent 1 2 = Some 50.
Proof. repeat apply conj; vm_compute; reflexivity. Qed.

(** *** The percentage against the exact quotient *)

Lemma scale_powers (N : Z) :
  53 <= N ->
  0 < 2 ^ (N - 53) /\
  2 ^ (N - 52) = 2 * 2 ^ (N - 53) /\
  2 ^ (N - 51) = 4 * 2 ^ (N - 53) /\
  2 ^ (N - 50) = 8 * 2 ^ (N - 53) /\
  2 ^ (N - 44) = 512 * 2 ^ (N - 53) /\
  2 ^ (N - 43) = 1024 * 2 ^ (N - 53) /\
  2 ^ N = 2 ^ 53 * 2 ^ (N - 53).
Proof.
  intros HN. split; [apply pow2_pos; lia|].
  replace (N - 52) with (1 + (N - 53)) by lia.
  replace (N - 51) with (2 + (N - 53)) by lia.
  replace (N - 50) with (3 + (N - 53)) by lia.
  replace (N - 44) with (9 + (N - 53)) by lia.
  replace (N - 43) with (10 + (N - 53)) by lia.
  replace N with (53 + (N - 53)) at 11 by lia.
  rewrite !pow2_split by lia. repeat split; reflexivity.
Qed.

(** The fraction and the percentage of a position [p] of [n]: the fraction
    is within [2 ^ (-50)] of [p / n], and the percentage is the integer
    part of [100 * p / n] or one less. *)
Lemma progress_percent_value (p n : Z) :
  0 <= p <= n -> 0 < n <= 2 ^ 42 ->
  exists q v,
    py_truediv p n = Some q /\ near q p n 50 /\
    progress_percent p n = Some v /\
    100 * p / n - 1 <= v <= 100 * p / n /\ 0 <= v.
Proof.
  intros [Hp0 Hpn] [Hn0 Hn].
  assert (HS : 1120 <= SCALE) by (unfold SCALE; lia).
  destruct (Z.eq_dec p 0) as [->|Hp].
  - exists (S754_zero false), 0. split.
    { unfold py_truediv. destruct (Z.eqb_spec n 0); [lia|].
      replace (n <? 0) with false by (symmetry; apply Z.ltb_ge; lia).
      reflexivity. }
    split.
    { split; [exact I|]. split; [exact I|].
      unfold scaled, scaled_at. rewrite Z.mul_0_r, Z.mul_0_l. simpl Z.abs.
      apply Z.mul_pos_pos; [lia|]. apply pow2_pos. lia. }
    split; [now apply progress_percent_start|].
    rewrite Z.mul_0_r, Z.div_0_l by lia. lia.
  - destruct (py_truediv_value p n SCALE) as (q & Eq & Hq1 & Hq2 & Hq3 & Uq & Lq);
      [lia|lia|].
    destruct (fmul_hundred_value q SCALE Hq1 Hq2 Hq3 HS) as (Hr1 & Hr2 & Ur & Lr).
    pose proof (int_of_float_value _ SCALE Hr1 Hr2 ltac:(lia)) as Ev.
    destruct (scale_powers SCALE ltac:(lia))
      as (PP & E52 & E51 & E50 & E44 & E43 & EN).
    pose proof (scaled_at_nonneg SCALE (fmul q (float_of_Z 100))) as HW.
    revert Uq Lq Ur Lr Ev HW.
    generalize (scaled_at SCALE (fmul q (float_of_Z 100))).
    intros W Uq Lq Ur Lr Ev HW.
    assert (Enear : near q p n 50).
    { split; [exact Hq1|]. split; [exact Hq2|]. unfold scaled.
      rewrite E50. rewrite E52 in Uq. rewrite E51 in Lq.
      apply Z.abs_lt. nia. }
    exists q, (W / 2 ^ SCALE). split; [exact Eq|]. split; [exact Enear|].
    split; [unfold progress_percent; rewrite Eq; exact Ev|].
    rewrite E52 in Uq. rewrite E51 in Lq. rewrite E44 in Ur. rewrite E43 in Lr.
    rewrite EN in Uq, Lq |- *.
    set (P := 2 ^ (SCALE - 53)) in *. set (Wq := scaled_at SCALE q) in *.
    set (K := 100 * p / n).
    assert (HK : K * n <= 100 * p < (K + 1) * n).
    { unfold K. pose proof (Z.mul_div_le (100 * p) n Hn0).
      pose proof (Z.mul_succ_div_gt (100 * p) n Hn0). lia. }
    change (2 ^ 53) with 9007199254740992 in *.
    change (2 ^ 42) with 4398046511104 in Hn.
    assert (HnW1 : n * W <= 100 * (p * (9007199254740992 * P)) + 712 * (n * P)) by nia.
    assert (HnW2 : 100 * (p * (9007199254740992 * P)) < n * W + 1524 * (n * P)) by nia.
    assert (HP : 0 < 9007199254740992 * P) by lia.
    split; [|apply Z.div_pos; lia].
    split.
    + assert (K - 1 <= W / (9007199254740992 * P)); [|lia].
      apply Z.div_le_lower_bound; [lia|].
      assert (n * (9007199254740992 * P * (K - 1)) <= n * W); [|nia].
      nia.
    + assert (W / (9007199254740992 * P) < K + 1); [|lia].
      apply Z.div_lt_upper_bound; [lia|].
      assert (n * W < n * (9007199254740992 * P * (K + 1))); [|nia].
      nia.
Qed.

Lemma scaled_ONE : scaled ONE = 2 ^ SCALE.
Proof. vm_compute. reflexivity. Qed.

(** The fraction is 0.0 at position 0 only and 1.0 at the end only. *)
Lemma near_ends (q : float) (p n : Z) :
  near q p n 50 -> 0 <= p <= n -> 0 < n <= 2 ^ 42 ->
  (q = S754_zero false -> p = 0) /\ (q = ONE -> p = n).
Proof.
  intros (_ & _ & H) [Hp0 Hpn] [Hn0 Hn].
  destruct (scale_powers SCALE ltac:(unfold SCALE; lia))
    as (PP & _ & _ & E50 & _ & _ & EN).
  rewrite E50, EN in H.
  change (2 ^ 53) with 9007199254740992 in *.
  change (2 ^ 42) with 4398046511104 in Hn.
  split; intros ->.
  - unfold scaled, scaled_at in H. rewrite Z.mul_0_r in H.
    apply Z.abs_lt in H. nia.
  - rewrite scaled_ONE, EN in H.
    change (2 ^ 53) with 9007199254740992 in *.
    apply Z.abs_lt in H. nia.
Qed.

(** The fraction and the percentage of a position, in full. *)
Lemma progress_percent_spec (p n : Z) :
  0 <= p <= n -> 0 < n <= 2 ^ 42 ->
  exists q v,
    py_truediv p n = Some q /\ near q p n 50 /\
    progress_percent p n = Some v /\
    100 * p / n - 1 <= v <= 100 * p / n /\ 0 <= v <= 100 /\
    (q = S754_zero false <-> p = 0) /\ (q = ONE <-> p = n) /\
    (v = 100 <-> p = n).
Proof.
  intros Hp Hn.
  destruct (progress_percent_value p n Hp Hn) as (q & v & Eq & Hq & Ev & Hv & Hv0).
  destruct (near_ends q p n Hq Hp Hn) as (Z1 & O1).
  assert (HK : 100 * p / n <= 100).
  { apply Z.div_le_upper_bound; lia. }
  exists q, v. split; [exact Eq|]. split; [exact Hq|]. split; [exact Ev|].
  split; [exact Hv|]. split; [lia|]. split; [|split].
  - split; [exact Z1|]. intros ->. revert Eq. unfold py_truediv.
    destruct (Z.eqb_spec n 0); [lia|].
    replace (n <? 0) with false by (symmetry; apply Z.ltb_ge; lia).
    cbn. congruence.
  - split; [exact O1|]. intros ->.
    rewrite py_truediv_same in Eq by lia. congruence.
  - split.
    + intros ->. assert (100 <= 100 * p / n) by lia.
      assert (100 * n <= 100 * p); [|lia].
      pose proof (Z.mul_div_le (100 * p) n ltac:(lia)). nia.
    + intros ->. rewrite progress_percent_end in Ev by lia. congruence.
Qed.

Section EngineProperties.

(** The alphanumeric class beyond ASCII is arbitrary. *)
Variable U : char -> bool.

(** *** One tick *)

Lemma same_engine_refl (s : QuickReadApp) : same_engine s s.
Proof. repeat split. Qed.

Lemma same_engine_progress (v : Z) (s : QuickReadApp) : same_engine s (progress_bar_setValue v s).
Proof. unfold progress_bar_setValue. destruct (_ && _); repeat split. Qed.

Lemma same_engine_show_words (ws : list str) (s : QuickReadApp) : same_engine s (show_words U ws s).
Proof. unfold show_words. destruct ws as [|w [|]]; repeat split. Qed.

Lemma inv_same_engine (s s' : QuickReadApp) : same_engine s s' -> inv s -> inv s'.
Proof.
  intros (Ht & Hi & _ & _ & Hw & Hf & _). unfold inv.
  now rewrite Ht, Hi, Hw, Hf.
Qed.

Lemma display_next_word_done (s : QuickReadApp) :
  len (tokens s) <= current_index s ->
  display_next_word U s = Some (after_done s).
Proof.
  intros H. unfold display_next_word.
  destruct (Z.geb_spec (current_index s) (len (tokens s))); [reflexivity|lia].
Qed.

Lemma flash_tokens_length (s : QuickReadApp) :
  0 <= current_index s -> 0 <= words_per_flash s ->
  current_index s <= len (tokens s) ->
  len (flash_tokens s) =
  Z.min (words_per_flash s) (len (tokens s) - current_index s).
Proof.
  intros. unfold flash_tokens. rewrite py_slice_length; lia.
Qed.

Lemma update_time_estimate_ok (s : QuickReadApp) :
  words_per_flash s <> 0 -> wpm s <> 0 -> update_time_estimate s = Some s.
Proof.
  intros Hf Hw. unfold update_time_estimate.
  destruct (tokens s); [reflexivity|].
  destruct (Z.eqb_spec (words_per_flash s) 0); [contradiction|].
  destruct (Z.eqb_spec (wpm s) 0); [contradiction|reflexivity].
Qed.

Lemma update_progress_eq (s : QuickReadApp) :
  tokens s <> [] ->
  update_progress s =
  (v <- progress_percent (current_index s) (len (tokens s)) ;;
   Some (progress_bar_setValue v s)).
Proof.
  intros H. unfold update_progress, progress_percent.
  destruct (tokens s) eqn:E; [congruence|]. rewrite <- E.
  destruct (py_truediv (current_index s) (len (tokens s))); reflexivity.
Qed.

(** A tick inside the stream never raises: it emits the flash, redraws the
    bar and starts the timer with the truncated delay. *)
Lemma display_next_word_flash (s : QuickReadApp) :
  inv s -> current_index s < len (tokens s) ->
  exists v m d msec,
    progress_percent
      (Z.min (current_index s + words_per_flash s) (len (tokens s)))
      (len (tokens s)) = Some v /\
    py_max (map delay_multiplier (flash_tokens s)) = Some m /\
    In m (map delay_multiplier (flash_tokens s)) /\
    Forall (fun x => fltb m x = false) (map delay_multiplier (flash_tokens s)) /\
    flash_delay (wpm s) (words_per_flash s) m = Some d /\
    int_of_float d = Some msec /\
    display_next_word U s = Some (after_flash U v msec s).
Proof.
  intros (Hidx & Hwpm & Hwpf & Hpac) Hlt.
  unfold MIN_WPM, MAX_WPM, MAX_WORDS_PER_FLASH in *.
  assert (Hne : tokens s <> []).
  { intros E. rewrite E in Hlt. unfold len in Hlt. simpl in Hlt. lia. }
  set (end_index := Z.min (current_index s + words_per_flash s) (len (tokens s))).
  destruct (progress_percent_total end_index (len (tokens s))) as [v Ev];
    [unfold end_index; lia | lia |].
  assert (Hfl : len (flash_tokens s) = Z.min (words_per_flash s) (len (tokens s) - current_index s))
    by (apply flash_tokens_length; lia).
  destruct (py_max_pacing (map delay_multiplier (flash_tokens s)))
    as (m & Em & Hin & Hmax).
  { intros E. apply map_eq_nil in E. rewrite E in Hfl. unfold len in Hfl at 1. simpl in Hfl. lia. }
  { apply Forall_map. apply Forall_forall. intros t Ht.
    rewrite Forall_forall in Hpac. apply Hpac.
    unfold flash_tokens in Ht. now apply py_slice_incl in Ht. }
  destruct (flash_delay_total (wpm s) (words_per_flash s) m) as (d & msec & Ed & Ems).
  { lia. }
  { rewrite Forall_forall in Hpac. apply in_map_iff in Hin.
    destruct Hin as (t & <- & Ht). apply Hpac.
    unfold flash_tokens in Ht. now apply py_slice_incl in Ht. }
  exists v, m, d, msec. repeat (split; [assumption|]).
  unfold display_next_word.
  destruct (Z.geb_spec (current_index s) (len (tokens s))); [lia|].
  fold (flash_tokens s). rewrite Em. simpl bind.
  unfold after_flash. fold end_index.
  destruct (same_engine_show_words (map word (flash_tokens s)) s)
    as (Et & _ & _ & _ & Ew & Ef & _).
  set (s1 := set_current_index end_index (show_words U (map word (flash_tokens s)) s)).
  assert (Et1 : tokens s1 = tokens s) by exact Et.
  assert (Ew1 : wpm s1 = wpm s) by exact Ew.
  assert (Ef1 : words_per_flash s1 = words_per_flash s) by exact Ef.
  assert (Ei1 : current_index s1 = end_index) by reflexivity.
  assert (Hne1 : tokens s1 <> []) by (rewrite Et1; exact Hne).
  rewrite (update_progress_eq s1 Hne1).
  rewrite Ei1, Et1, Ev. simpl bind.
  destruct (same_engine_progress v s1) as (Et2 & _ & _ & _ & Ew2 & Ef2 & _).
  rewrite update_time_estimate_ok by (rewrite ?Ef2, ?Ew2, ?Ef1, ?Ew1; lia).
  simpl bind. rewrite Ew2, Ew1, Ef2, Ef1.
  unfold flash_delay in Ed.
  destruct (py_truediv 60000 (wpm s)) as [base|]; [|discriminate].
  simpl in Ed. injection Ed as <-. simpl bind. rewrite Ems. reflexivity.
Qed.

(** *** Fields of the composite updates *)

Lemma after_flash_fields (v msec : Z) (s : QuickReadApp) :
  let s' := after_flash U v msec s in
  tokens s' = tokens s /\
  current_index s' = Z.min (current_index s + words_per_flash s) (len (tokens s)) /\
  is_playing s' = is_playing s /\ is_paused s' = is_paused s /\
  wpm s' = wpm s /\ words_per_flash s' = words_per_flash s /\
  timer s' = Some msec.
Proof.
  unfold after_flash, timer_start, progress_bar_setValue, show_words.
  destruct (_ && _); destruct (map word (flash_tokens s)) as [|w [|]];
    repeat split.
Qed.

Lemma after_done_fields (s : QuickReadApp) :
  let s' := after_done s in
  tokens s' = tokens s /\ current_index s' = current_index s /\
  is_playing s' = false /\ is_paused s' = is_paused s /\
  wpm s' = wpm s /\ words_per_flash s' = words_per_flash s /\
  timer s' = None /\
  orp_display s' = display_message DONE_MESSAGE (orp_display s') /\
  progress_bar s' = 100.
Proof. repeat split. Qed.


Lemma phase_finished (s : QuickReadApp) :
  phase s = Finished ->
  is_playing s = false /\ is_paused s = false /\
  tokens s <> [] /\ len (tokens s) <= current_index s.
Proof.
  unfold phase. destruct (is_playing s); [discriminate|].
  destruct (is_paused s); [discriminate|].
  destruct (Z.eqb_spec (len (tokens s)) 0) as [E|E]; simpl; [discriminate|].
  destruct (Z.geb_spec (current_index s) (len (tokens s))); [|discriminate].
  intros _. repeat split; [|lia]. intros Et. apply E. now rewrite Et.
Qed.

Lemma phase_playing (s : QuickReadApp) : is_playing s = true -> phase s = Playing.
Proof. unfold phase. now intros ->. Qed.

(** *** The invariant is kept by every handler *)

Ltac range_solve :=
  unfold inv, MIN_WPM, MAX_WPM, MAX_WORDS_PER_FLASH, WPM_STEP in *; cbn;
  repeat split; try assumption; try lia; try apply len_nonneg.

Lemma good_after_done (s : QuickReadApp) : inv s -> good (after_done s).
Proof.
  intros H. split; [exact H|]. split.
  - intros Ht. now elim Ht.
  - intros _. repeat split.
Qed.

Lemma good_after_flash (v msec : Z) (s : QuickReadApp) :
  inv s -> is_playing s = true -> current_index s < len (tokens s) ->
  good (after_flash U v msec s).
Proof.
  intros (Hi & Hw & Hf & Hp) Hplay Hlt.
  destruct (after_flash_fields v msec s) as (Et & Ei & Epl & Epa & Ew & Ef & Eti).
  split; [|split].
  - unfold inv. rewrite Et, Ei, Ew, Ef. range_solve.
  - intros _. now rewrite Epl.
  - intros Hph. apply phase_finished in Hph. rewrite Epl in Hph.
    destruct Hph as [Hph _]. congruence.
Qed.

Lemma display_next_word_total (s : QuickReadApp) :
  inv s -> exists s', display_next_word U s = Some s'.
Proof.
  intros H. destruct (Z_lt_le_dec (current_index s) (len (tokens s))) as [Hlt|Hge].
  - destruct (display_next_word_flash s H Hlt) as (v & m & d & msec & H'). 
    exists (after_flash U v msec s). apply H'.
  - exists (after_done s). now apply display_next_word_done.
Qed.

Lemma good_display_next_word (s s' : QuickReadApp) :
  inv s -> is_playing s = true \/ len (tokens s) <= current_index s ->
  display_next_word U s = Some s' -> good s'.
Proof.
  intros H Hcase E.
  destruct (Z_lt_le_dec (current_index s) (len (tokens s))) as [Hlt|Hge].
  - destruct (display_next_word_flash s H Hlt) as (v & m & d & msec & H').
    destruct H' as (_ & _ & _ & _ & _ & _ & E'). rewrite E' in E.
    injection E as <-. apply good_after_flash; try assumption.
    destruct Hcase; [assumption|lia].
  - rewrite display_next_word_done in E by assumption. injection E as <-.
    now apply good_after_done.
Qed.

Lemma good_resume_reading (s s' : QuickReadApp) :
  inv s -> resume_reading U s = Some s' -> good s'.
Proof.
  intros (Hi & Hw & Hf & Hp) E. unfold resume_reading in E.
  apply good_display_next_word in E; [assumption| |now left].
  destruct (current_index s >=? len (tokens s)); range_solve.
Qed.

Lemma resume_reading_total (s : QuickReadApp) :
  inv s -> exists s', resume_reading U s = Some s'.
Proof.
  intros (Hi & Hw & Hf & Hp). unfold resume_reading.
  apply display_next_word_total.
  destruct (current_index s >=? len (tokens s)); range_solve.
Qed.

Lemma good_pause_reading (s : QuickReadApp) : good s -> good (pause_reading s).
Proof.
  intros (H & _ & _). split; [exact H|]. split.
  - intros Ht. now elim Ht.
  - intros Hph. apply phase_finished in Hph. cbn in Hph.
    destruct Hph as (_ & Hph & _). discriminate.
Qed.

Lemma good_stop_reading (s : QuickReadApp) : good s -> good (stop_reading s).
Proof.
  intros ((Hi & Hw & Hf & Hp) & _ & _). split; [|split].
  - range_solve.
  - intros Ht. now elim Ht.
  - intros Hph. apply phase_finished in Hph. cbn in Hph.
    destruct Hph as (_ & _ & Hne & Hle). apply len_pos in Hne. lia.
Qed.

Lemma good_toggle_fullscreen (s : QuickReadApp) : good s -> good (toggle_fullscreen s).
Proof. intros H. exact H. Qed.

Lemma good_show_input_view (s : QuickReadApp) : good s -> good (show_input_view s).
Proof.
  intros H. apply good_stop_reading in H. unfold show_input_view.
  destruct (is_fullscreen (set_view 0 (stop_reading s))); exact H.
Qed.

Lemma good_on_escape (s : QuickReadApp) : good s -> good (on_escape s).
Proof.
  intros H. unfold on_escape. destruct (is_fullscreen s); [exact H|].
  destruct (is_playing s); [now apply good_pause_reading | exact H].
Qed.

Lemma good_toggle_play_pause (s s' : QuickReadApp) :
  good s -> toggle_play_pause U s = Some s' -> good s'.
Proof.
  intros H E. unfold toggle_play_pause in E.
  destruct (tokens s); [now injection E as <-|].
  destruct (is_playing s).
  - injection E as <-. now apply good_pause_reading.
  - apply (good_resume_reading s); [apply H | assumption].
Qed.

Lemma update_estimate_same (s s' : QuickReadApp) :
  update_estimate s = Some s' -> s' = s.
Proof.
  unfold update_estimate.
  repeat match goal with |- context [if ?c then _ else _] => destruct c end;
    congruence.
Qed.

Lemma update_time_estimate_same (s s' : QuickReadApp) :
  update_time_estimate s = Some s' -> s' = s.
Proof.
  unfold update_time_estimate. destruct (tokens s); [congruence|].
  repeat match goal with |- context [if ?c then _ else _] => destruct c end;
    congruence.
Qed.

Lemma good_set_wpm (value : Z) (s : QuickReadApp) :
  MIN_WPM <= value <= MAX_WPM -> good s -> good (set_wpm value s).
Proof.
  intros Hv ((Hi & Hw & Hf & Hp) & Hk & Hj). split; [|split].
  - range_solve.
  - exact Hk.
  - exact Hj.
Qed.

Lemma good_increase_wpm (s : QuickReadApp) : good s -> good (increase_wpm s).
Proof.
  intros H. apply good_set_wpm; [|assumption].
  destruct H as ((_ & Hw & _) & _). range_solve.
Qed.

Lemma good_decrease_wpm (s : QuickReadApp) : good s -> good (decrease_wpm s).
Proof.
  intros H. apply good_set_wpm; [|assumption].
  destruct H as ((_ & Hw & _) & _). range_solve.
Qed.

Lemma wpf_combo_items_range (data : Z) :
  In data wpf_combo_items -> 1 <= data <= MAX_WORDS_PER_FLASH.
Proof.
  unfold wpf_combo_items, MAX_WORDS_PER_FLASH. simpl.
  intros H. decompose [or] H; subst; try contradiction; lia.
Qed.

Lemma good_set_words_per_flash (data : Z) (s : QuickReadApp) :
  In data wpf_combo_items -> good s -> good (set_words_per_flash data s).
Proof.
  intros Hd ((Hi & Hw & Hf & Hp) & Hk & Hj). apply wpf_combo_items_range in Hd.
  split; [|split].
  - range_solve.
  - exact Hk.
  - exact Hj.
Qed.

(** *** Seeking *)

Lemma rewind_empty (s : QuickReadApp) : tokens s = [] -> rewind U s = Some s.
Proof. intros H. unfold rewind. now rewrite H. Qed.

Lemma forward_empty (s : QuickReadApp) : tokens s = [] -> forward U s = Some s.
Proof. intros H. unfold forward. now rewrite H. Qed.

Lemma rewind_eq (s : QuickReadApp) :
  tokens s <> [] ->
  rewind U s = seek_to U (Z.max 0 (current_index s - seek_amount s)) s.
Proof.
  intros H. unfold rewind. destruct (tokens s) eqn:E; [congruence|].
  rewrite <- E. reflexivity.
Qed.

Lemma forward_eq (s : QuickReadApp) :
  tokens s <> [] ->
  forward U s =
  seek_to U (Z.min (len (tokens s) - 1) (current_index s + seek_amount s)) s.
Proof.
  intros H. unfold forward. destruct (tokens s) eqn:E; [congruence|].
  rewrite <- E. reflexivity.
Qed.

Lemma tokens_dec (s : QuickReadApp) : {tokens s = []} + {tokens s <> []}.
Proof. destruct (tokens s); [now left | right; discriminate]. Qed.

Lemma seek_amount_pos (s : QuickReadApp) : inv s -> 10 <= seek_amount s.
Proof.
  intros (_ & _ & Hf & _). unfold seek_amount, REWIND_WORDS, MAX_WORDS_PER_FLASH in *.
  nia.
Qed.

Lemma same_engine_show_current_word (s : QuickReadApp) :
  same_engine s (show_current_word U s).
Proof.
  unfold show_current_word.
  destruct (current_index s >=? len (tokens s)); [apply same_engine_refl|].
  apply same_engine_show_words.
Qed.

(** Seeking to a position of the stream never raises: the bar is redrawn,
    and the flash at the new position is either emitted by an immediate
    tick (playing) or shown without advancing. *)
Lemma seek_to_eq (position : Z) (s : QuickReadApp) :
  inv s -> tokens s <> [] -> 0 <= position <= len (tokens s) ->
  exists v,
    progress_percent position (len (tokens s)) = Some v /\
    seek_to U position s =
    let s2 := progress_bar_setValue v (set_current_index position s) in
    if is_playing s then display_next_word U (timer_stop s2)
    else Some (show_current_word U s2).
Proof.
  intros (Hi & Hw & Hf & Hp) Hne Hpos.
  destruct (progress_percent_total position (len (tokens s))) as [v Ev];
    [assumption | apply len_pos in Hne; lia |].
  exists v. split; [assumption|]. unfold seek_to.
  rewrite (update_progress_eq (set_current_index position s)) by exact Hne.
  cbn [current_index tokens set_current_index]. rewrite Ev. simpl bind.
  set (s2 := progress_bar_setValue v (set_current_index position s)).
  destruct (same_engine_progress v (set_current_index position s))
    as (_ & _ & Epl & _ & Ew & Ef & _). fold s2 in Epl, Ew, Ef.
  cbn in Epl, Ew, Ef.
  rewrite update_time_estimate_ok by (rewrite ?Ew, ?Ef; range_solve).
  simpl bind. rewrite Epl. reflexivity.
Qed.

Lemma inv_seek_state (position v : Z) (s : QuickReadApp) :
  inv s -> 0 <= position <= len (tokens s) ->
  inv (progress_bar_setValue v (set_current_index position s)).
Proof.
  intros H Hpos.
  apply (inv_same_engine (set_current_index position s));
    [apply same_engine_progress|].
  destruct H as (Hi & Hw & Hf & Hp). range_solve.
Qed.

Lemma seek_to_total (position : Z) (s : QuickReadApp) :
  inv s -> tokens s <> [] -> 0 <= position <= len (tokens s) ->
  exists s', seek_to U position s = Some s'.
Proof.
  intros H Hne Hpos.
  destruct (seek_to_eq position s H Hne Hpos) as (v & _ & E). rewrite E.
  cbv zeta. destruct (is_playing s); [|eauto].
  apply display_next_word_total.
  apply (inv_seek_state position v s H Hpos).
Qed.

Lemma good_seek_to (position : Z) (s s' : QuickReadApp) :
  good s -> tokens s <> [] -> 0 <= position < len (tokens s) ->
  seek_to U position s = Some s' -> good s'.
Proof.
  intros (H & Hk & _) Hne Hpos E.
  destruct (seek_to_eq position s H Hne ltac:(lia)) as (v & _ & E').
  rewrite E' in E. cbv zeta in E.
  pose proof (inv_seek_state position v s H ltac:(lia)) as Hinv.
  set (s2 := progress_bar_setValue v (set_current_index position s)) in *.
  destruct (same_engine_progress v (set_current_index position s))
    as (Et & Ei & Epl & Epa & _ & _ & Eti). fold s2 in Et, Ei, Epl, Epa, Eti.
  cbn in Et, Ei, Epl, Epa, Eti.
  destruct (is_playing s) eqn:Hplay.
  - apply (good_display_next_word (timer_stop s2)); [exact Hinv| |exact E].
    left. exact Epl.
  - injection E as <-.
    destruct (same_engine_show_current_word s2)
      as (Et' & Ei' & Epl' & Epa' & Ew' & Ef' & Eti').
    split; [|split].
    + apply (inv_same_engine s2); [apply same_engine_show_current_word|exact Hinv].
    + intros Ht. rewrite Eti', Eti in Ht. apply Hk in Ht. congruence.
    + intros Hph. apply phase_finished in Hph.
      rewrite Et', Ei', Et, Ei in Hph. lia.
Qed.

Lemma good_rewind (s s' : QuickReadApp) :
  good s -> rewind U s = Some s' -> good s'.
Proof.
  intros H E. destruct (tokens_dec s) as [Et|Hne].
  - rewrite rewind_empty in E by assumption. now injection E as <-.
  - rewrite rewind_eq in E by assumption.
    refine (good_seek_to _ s s' H Hne _ E).
    pose proof (seek_amount_pos s (proj1 H)). pose proof (len_pos _ _ Hne).
    destruct H as ((Hi & _) & _). lia.
Qed.

Lemma good_forward (s s' : QuickReadApp) :
  good s -> forward U s = Some s' -> good s'.
Proof.
  intros H E. destruct (tokens_dec s) as [Et|Hne].
  - rewrite forward_empty in E by assumption. now injection E as <-.
  - rewrite forward_eq in E by assumption.
    refine (good_seek_to _ s s' H Hne _ E).
    pose proof (seek_amount_pos s (proj1 H)). pose proof (len_pos _ _ Hne).
    destruct H as ((Hi & _) & _). lia.
Qed.

(** *** Starting a session *)

Lemma strip_idem (s : str) : strip (strip s) = strip s.
Proof.
  unfold strip at 1. now rewrite strip_rstrip_fixed, strip_lstrip_fixed.
Qed.

Lemma trailing_multiplier_pacing (w : str) :
  In (trailing_multiplier w)
     [ONE; COMMA_DELAY_MULTIPLIER; PERIOD_DELAY_MULTIPLIER].
Proof.
  unfold trailing_multiplier. destruct (last_char w) as [c|]; [|now left].
  destruct (period_class c); [right; right; now left|].
  destruct (comma_class c); [right; now left | now left].
Qed.

Lemma tokenize_text_pacing (text : str) : Forall pacing_ok (tokenize_text text).
Proof.
  rewrite tokenize_text_split. apply Forall_map, Forall_forall.
  intros w _. apply trailing_multiplier_pacing.
Qed.

Lemma start_reading_blank (s : QuickReadApp) :
  strip (text_input s) = [] -> start_reading U s = Some (add_warning NoText s).
Proof. intros H. unfold start_reading. now rewrite H. Qed.

Lemma toggle_play_pause_resume (s : QuickReadApp) :
  tokens s <> [] -> is_playing s = false ->
  toggle_play_pause U s = resume_reading U s.
Proof.
  intros Hne Hpl. unfold toggle_play_pause.
  destruct (tokens s); [congruence|]. now rewrite Hpl.
Qed.

Lemma start_reading_text (s : QuickReadApp) :
  strip (text_input s) <> [] -> words_per_flash s <> 0 -> wpm s <> 0 ->
  start_reading U s = resume_reading U (session_reset s).
Proof.
  intros Hne Hf Hw.
  assert (Ht : tokenize_text (strip (text_input s)) <> []).
  { apply tokenize_text_nonempty. now rewrite strip_idem. }
  rewrite <- toggle_play_pause_resume; [|exact Ht|reflexivity].
  unfold start_reading.
  destruct (strip (text_input s)) as [|c r] eqn:Es; [congruence|].
  rewrite <- Es in *. cbn [tokens set_tokens].
  destruct (tokenize_text (strip (text_input s))) as [|t ts] eqn:Et; [congruence|].
  rewrite update_time_estimate_ok by assumption.
  simpl bind. unfold session_reset. rewrite Et. reflexivity.
Qed.

Lemma inv_session_reset (s : QuickReadApp) : inv s -> inv (session_reset s).
Proof.
  intros (Hi & Hw & Hf & Hp). range_solve. apply tokenize_text_pacing.
Qed.

Lemma good_start_reading (s s' : QuickReadApp) :
  good s -> start_reading U s = Some s' -> good s'.
Proof.
  intros H E.
  destruct (strip (text_input s)) as [|c r] eqn:Es.
  - rewrite start_reading_blank in E by assumption. injection E as <-. exact H.
  - destruct H as (H & _). pose proof H as (_ & Hw & Hf & _).
    unfold MIN_WPM, MAX_WORDS_PER_FLASH in *.
    rewrite start_reading_text in E; [|rewrite Es; discriminate|lia|lia].
    apply (good_resume_reading (session_reset s)); [|exact E].
    now apply inv_session_reset.
Qed.

(** *** Every reachable state is good *)

Lemma good_init : good init.
Proof.
  split; [|split].
  - repeat split; try (vm_compute; discriminate). constructor.
  - intros Ht. now elim Ht.
  - intros Hph. discriminate Hph.
Qed.

Lemma good_on_font_size_changed (value : Z) (s : QuickReadApp) :
  good s -> good (on_font_size_changed value s).
Proof. intros H. exact H. Qed.

Lemma good_step (s s' : QuickReadApp) : good s -> step U s s' -> good s'.
Proof.
  intros H Hstep. destruct Hstep as
    [s s' msec Ht E | s text s' E | s s' E | s s' E | s | s | s s' E | s s' E
    | s | s | s | s | s value s' Hv E | s value s' Hv E | s data s' Hd E
    | s value Hv].
  - apply (good_display_next_word s); [apply H| |exact E].
    left. apply H. congruence.
  - apply update_estimate_same in E. subst s'. exact H.
  - now apply (good_start_reading s).
  - now apply (good_toggle_play_pause s).
  - now apply good_stop_reading.
  - now apply good_show_input_view.
  - now apply (good_rewind s).
  - now apply (good_forward s).
  - now apply good_on_escape.
  - now apply good_toggle_fullscreen.
  - now apply good_increase_wpm.
  - now apply good_decrease_wpm.
  - apply update_estimate_same in E. subst s'. now apply good_set_wpm.
  - apply update_time_estimate_same in E. subst s'. now apply good_set_wpm.
  - apply update_estimate_same in E. subst s'. now apply good_set_words_per_flash.
  - now apply good_on_font_size_changed.
Qed.

Lemma reachable_good (s : QuickReadApp) : reachable U s -> good s.
Proof.
  induction 1 as [|s s' _ IH Hstep]; [apply good_init|].
  now apply (good_step s).
Qed.

(** *** The delay against exact arithmetic *)

Lemma forallb_seq_Z (f : Z -> bool) (a n : nat) :
  forallb (fun k => f (Z.of_nat k)) (seq a n) = true ->
  forall z, Z.of_nat a <= z < Z.of_nat a + Z.of_nat n -> f z = true.
Proof.
  intros H z Hz. rewrite forallb_forall in H.
  specialize (H (Z.to_nat z)). rewrite Z2Nat.id in H by lia.
  apply H. apply in_seq. lia.
Qed.

(** Every speed from 100 to 1000, each of the three multipliers, one word
    per flash and more: checked by evaluation. *)
Lemma delay_table_holds :
  forallb (fun k => delay_rows (Z.of_nat k)) (seq 100 901) = true.
Proof. vm_compute. reflexivity. Qed.

Lemma delay_row_width (wpm wpf : Z) (m : float) :
  delay_row wpm wpf m = delay_row wpm (if wpf >? 1 then 2 else 1) m.
Proof.
  unfold delay_row, flash_delay, exact_delay.
  destruct (wpf >? 1); reflexivity.
Qed.

Lemma delay_row_holds (wpm wpf : Z) (m : float) :
  MIN_WPM <= wpm <= MAX_WPM ->
  In m [ONE; COMMA_DELAY_MULTIPLIER; PERIOD_DELAY_MULTIPLIER] ->
  delay_row wpm wpf m = true.
Proof.
  unfold MIN_WPM, MAX_WPM. intros Hw Hm.
  pose proof (forallb_seq_Z delay_rows 100 901 delay_table_holds wpm) as T.
  specialize (T ltac:(lia)).
  unfold delay_rows in T. rewrite forallb_forall in T.
  specialize (T m Hm). apply andb_prop in T. destruct T as [T1 T2].
  rewrite delay_row_width. destruct (wpf >? 1); assumption.
Qed.

(** The milliseconds scheduled are the integer part of the exact delay,
    or one less at the speeds of [SHORTFALLS], where the exact delay is a
    whole number. *)
Lemma delay_exact (wpm wpf : Z) (m d : float) (msec : Z) :
  MIN_WPM <= wpm <= MAX_WPM ->
  In m [ONE; COMMA_DELAY_MULTIPLIER; PERIOD_DELAY_MULTIPLIER] ->
  flash_delay wpm wpf m = Some d -> int_of_float d = Some msec ->
  exists n dn,
    exact_delay wpm wpf m = Some (n, dn) /\ 0 < dn /\
    n / dn - 1 <= msec <= n / dn /\
    (msec = n / dn - 1 <->
     1 < wpf /\ falls_short wpm m = true) /\
    (msec = n / dn - 1 -> n mod dn = 0).
Proof.
  intros Hw Hm Ed Ems.
  pose proof (delay_row_holds wpm wpf m Hw Hm) as R.
  unfold delay_row in R. rewrite Ed, Ems in R.
  destruct (exact_delay wpm wpf m) as [[n dn]|]; [|discriminate R].
  apply andb_prop in R. destruct R as [R0 R].
  apply Z.ltb_lt in R0.
  exists n, dn. split; [reflexivity|]. split; [exact R0|].
  destruct (Z.gtb_spec wpf 1) as [Hf|Hf]; cbn [andb] in R.
  - destruct (falls_short wpm m).
    + apply andb_prop in R. destruct R as [R1 R2].
      apply Z.eqb_eq in R1, R2. subst msec.
      split; [lia|]. split; [|intros _; exact R2].
      split; [intros _; split; [lia|reflexivity]|reflexivity].
    + apply Z.eqb_eq in R. subst msec.
      split; [lia|]. split; [|lia].
      split; [lia|]. intros [_ H]. discriminate H.
  - apply Z.eqb_eq in R. subst msec.
    split; [lia|]. split; [|lia]. split; lia.
Qed.

(** *** What a tick keeps *)

Lemma update_progress_same (s s' : QuickReadApp) :
  update_progress s = Some s' -> same_engine s s'.
Proof.
  unfold update_progress. destruct (tokens s) eqn:Et.
  - intros E. injection E as <-. apply same_engine_refl.
  - intros E. apply bind_Some in E. destruct E as (q & _ & E).
    apply bind_Some in E. destruct E as (v & _ & E). injection E as <-.
    apply same_engine_progress.
Qed.

Lemma display_next_word_tokens (s s' : QuickReadApp) :
  display_next_word U s = Some s' -> tokens s' = tokens s.
Proof.
  unfold display_next_word.
  destruct (current_index s >=? len (tokens s)).
  - intros E. now injection E as <-.
  - intros E. apply bind_Some in E. destruct E as (m & _ & E).
    apply bind_Some in E. destruct E as (s1 & E1 & E).
    apply bind_Some in E. destruct E as (s2 & E2 & E).
    apply bind_Some in E. destruct E as (b & _ & E).
    apply bind_Some in E. destruct E as (msec & _ & E).
    injection E as <-. apply update_time_estimate_same in E2. subst s2.
    apply update_progress_same in E1. destruct E1 as (Et & _).
    cbn [tokens timer_start set_timer]. rewrite Et. cbn [tokens set_current_index].
    apply same_engine_show_words.
Qed.

Lemma progress_bar_after_flash (v msec : Z) (s : QuickReadApp) :
  0 <= v <= 100 -> progress_bar (after_flash U v msec s) = v.
Proof.
  intros Hv. unfold after_flash, timer_start, progress_bar_setValue.
  destruct (Z.leb_spec 0 v); [|lia]. destruct (Z.leb_spec v 100); [|lia].
  reflexivity.
Qed.







Lemma flash_multiplier_pacing (s : QuickReadApp) (m : float) :
  inv s -> In m (map delay_multiplier (flash_tokens s)) ->
  In m [ONE; COMMA_DELAY_MULTIPLIER; PERIOD_DELAY_MULTIPLIER].
Proof.
  intros (_ & _ & _ & Hp) Hin. apply in_map_iff in Hin.
  destruct Hin as (t & <- & Hin). unfold flash_tokens in Hin.
  apply py_slice_incl in Hin. rewrite Forall_forall in Hp. now apply Hp.
Qed.

(** C4 (amended). A tick that emits a flash always returns, and starts the
    timer with [int(d)] milliseconds, where [d] is 60000 / wpm times the
    largest multiplier of the tokens of the flash, times 1.2 when more
    than one word is shown per flash, evaluated from left to right in
    binary64.  Against the formula in exact arithmetic, this is its
    integer part, except at the speeds and multipliers of [SHORTFALLS] with
    more than one word per flash: there the exact delay is a whole number,
    the binary64 product falls short of it and one millisecond less is
    scheduled. *)
Theorem tick_delay (s : QuickReadApp) :
  inv s -> current_index s < len (tokens s) ->
  exists s' m d msec n dn,
    display_next_word U s = Some s' /\
    py_max (map delay_multiplier (flash_tokens s)) = Some m /\
    In m (map delay_multiplier (flash_tokens s)) /\
    Forall (fun x => fltb m x = false) (map delay_multiplier (flash_tokens s)) /\
    flash_delay (wpm s) (words_per_flash s) m = Some d /\
    int_of_float d = Some msec /\
    timer s' = Some msec /\
    In m [ONE; COMMA_DELAY_MULTIPLIER; PERIOD_DELAY_MULTIPLIER] /\
    exact_delay (wpm s) (words_per_flash s) m = Some (n, dn) /\ 0 < dn /\
    n / dn - 1 <= msec <= n / dn /\
    (msec = n / dn - 1 <->
     1 < words_per_flash s /\ falls_short (wpm s) m = true) /\
    (msec = n / dn - 1 -> n mod dn = 0).
Proof.
  intros H Hlt.
  destruct (display_next_word_flash s H Hlt)
    as (v & m & d & msec & _ & Em & Hin & Hmax & Ed & Ems & E).
  pose proof (flash_multiplier_pacing s m H Hin) as Hm.
  destruct (delay_exact (wpm s) (words_per_flash s) m d msec)
    as (n & dn & En & Hdn & Hb & Hs & Hw); [apply H|assumption..|].
  exists (after_flash U v msec s), m, d, msec, n, dn.
  repeat (split; [assumption|]).
  split; [apply (after_flash_fields v msec s)|].
  repeat (split; [assumption|]). exact Hw.
Qed.

(** C5. In every reachable state the position lies within the stream, the
    speed within 100 to 1000 and the batch width within 1 to 5. *)
Theorem reachable_invariant (s : QuickReadApp) :
  reachable U s ->
  0 <= current_index s <= len (tokens s) /\
  100 <= wpm s <= 1000 /\
  1 <= words_per_flash s <= 5.
Proof.
  intros Hr. destruct (reachable_good s Hr) as ((Hi & Hw & Hf & _) & _).
  repeat split; range_solve.
Qed.


(** A tick that emits a flash and returns leaves the state [after_flash]
    describes. *)
Lemma display_next_word_flash_inv (s s' : QuickReadApp) :
  current_index s < len (tokens s) ->
  display_next_word U s = Some s' ->
  exists v msec, s' = after_flash U v msec s.
Proof.
  intros Hlt. unfold display_next_word.
  destruct (Z.geb_spec (current_index s) (len (tokens s))); [lia|].
  intros E. apply bind_Some in E. destruct E as (m & Em & E).
  apply bind_Some in E. destruct E as (s1 & E1 & E).
  apply bind_Some in E. destruct E as (s2 & E2 & E).
  apply bind_Some in E. destruct E as (b & _ & E).
  apply bind_Some in E. destruct E as (msec & _ & E).
  injection E as <-. apply update_time_estimate_same in E2. subst s2.
  assert (Hne : tokens s <> []).
  { intros Et. rewrite Et in Em. unfold py_slice in Em.
    rewrite skipn_nil, firstn_nil in Em. discriminate Em. }
  rewrite update_progress_eq in E1.
  2:{ cbn [tokens set_current_index].
      now rewrite (proj1 (same_engine_show_words _ s)). }
  apply bind_Some in E1. destruct E1 as (v & _ & E1). injection E1 as <-.
  exists v, msec. reflexivity.
Qed.

Lemma start_reading_text_inv (s s' : QuickReadApp) :
  strip (text_input s) <> [] -> start_reading U s = Some s' ->
  resume_reading U (session_reset s) = Some s'.
Proof.
  intros Hne E.
  assert (Ht : tokenize_text (strip (text_input s)) <> []).
  { apply tokenize_text_nonempty. now rewrite strip_idem. }
  rewrite <- toggle_play_pause_resume; [|exact Ht|reflexivity].
  unfold start_reading in E.
  destruct (strip (text_input s)) as [|c r] eqn:Es; [congruence|].
  rewrite <- Es in *. cbn [tokens set_tokens] in E.
  unfold session_reset.
  destruct (tokenize_text (strip (text_input s))) as [|t ts] eqn:Et; [congruence|].
  apply bind_Some in E. destruct E as (s3 & E3 & E).
  apply update_time_estimate_same in E3. subst s3. exact E.
Qed.

Lemma session_reset_fields (s : QuickReadApp) :
  tokens (session_reset s) = tokenize_text (strip (text_input s)) /\
  current_index (session_reset s) = 0 /\
  is_playing (session_reset s) = false /\
  progress_bar (session_reset s) = 0.
Proof.
  unfold session_reset.
  split; [reflexivity|]. split; [reflexivity|]. split; reflexivity.
Qed.

Lemma resume_reading_inside (s : QuickReadApp) :
  current_index s < len (tokens s) ->
  resume_reading U s =
  display_next_word U (set_is_paused false (set_is_playing true s)).
Proof.
  intros H. unfold resume_reading.
  destruct (Z.geb_spec (current_index s) (len (tokens s))); [lia|reflexivity].
Qed.

Lemma resume_reading_fields (s s' : QuickReadApp) :
  current_index s < len (tokens s) ->
  resume_reading U s = Some s' ->
  tokens s' = tokens s /\ is_playing s' = true.
Proof.
  intros H E. rewrite resume_reading_inside in E by assumption.
  apply display_next_word_flash_inv in E; [|exact H].
  destruct E as (v & msec & ->).
  destruct (after_flash_fields v msec
              (set_is_paused false (set_is_playing true s)))
    as (A1 & _ & A3 & _).
  rewrite A1, A3. split; reflexivity.
Qed.

Lemma resume_reading_session (s s' : QuickReadApp) :
  tokenize_text (strip (text_input s)) <> [] ->
  resume_reading U (session_reset s) = Some s' ->
  tokens s' = tokenize_text (strip (text_input s)) /\ is_playing s' = true.
Proof.
  intros Ht E.
  destruct (session_reset_fields s) as (Et & Ei & _).
  pose proof (len_pos _ _ Ht) as Hl.
  apply resume_reading_fields in E; [|rewrite Ei, Et; lia].
  now rewrite Et in E.
Qed.

(** C8 (amended). [start_reading] on an empty or whitespace-only text shows
    the warning and changes nothing else: phase, stream, position, timer
    and display stay as they were, so an engine that was idle with no
    stream, like the initial one, stays so, and the stream of an earlier
    session is kept.  A text that is not blank always has tokens, so a
    session that [start_reading] starts is never empty: it plays the tokens
    of the text. *)
Theorem start_reading_empty_input :
  (forall s, strip (text_input s) = [] ->
     start_reading U s = Some (add_warning NoText s)) /\
  (forall s,
     tokens (add_warning NoText s) = tokens s /\
     current_index (add_warning NoText s) = current_index s /\
     phase (add_warning NoText s) = phase s /\
     timer (add_warning NoText s) = timer s /\
     wpm (add_warning NoText s) = wpm s /\
     words_per_flash (add_warning NoText s) = words_per_flash s /\
     orp_display (add_warning NoText s) = orp_display s /\
     progress_bar (add_warning NoText s) = progress_bar s /\
     warnings (add_warning NoText s) = NoText :: warnings s) /\
  (phase (add_warning NoText init) = Idle /\
   tokens (add_warning NoText init) = []) /\
  (forall text, strip text <> [] -> tokenize_text (strip text) <> []) /\
  (forall s s', start_reading U s = Some s' ->
     strip (text_input s) = [] /\ s' = add_warning NoText s \/
     strip (text_input s) <> [] /\
     tokens s' = tokenize_text (strip (text_input s)) /\
     tokens s' <> [] /\ is_playing s' = true).
Proof.
  split; [exact start_reading_blank|].
  split; [intros s; repeat split|].
  split; [split; reflexivity|].
  split.
  - intros text H. apply tokenize_text_nonempty. now rewrite strip_idem.
  - intros s s' E. destruct (strip (text_input s)) as [|c r] eqn:Es.
    + left. rewrite start_reading_blank in E by assumption.
      injection E as <-. now split.
    + right. assert (Hne : strip (text_input s) <> [])
        by (rewrite Es; discriminate).
      rewrite <- Es. split; [exact Hne|].
      assert (Ht : tokenize_text (strip (text_input s)) <> []).
      { apply tokenize_text_nonempty. now rewrite strip_idem. }
      apply start_reading_text_inv in E; [|exact Hne].
      destruct (resume_reading_session s s' Ht E) as (A1 & A2).
      rewrite A1. repeat split; assumption.
Qed.

End EngineProperties.

(** ** The sample sessions, run *)

Ltac vm_decide :=
  lazymatch goal with
  | |- _ /\ _ => split; vm_decide
  | |- _ = _ => vm_compute; reflexivity
  | |- _ < _ => vm_compute; reflexivity
  | |- _ => let H := fresh in intros H; vm_compute in H; discriminate H
  end.

Lemma update_estimate_ok (s : QuickReadApp) :
  words_per_flash s <> 0 -> wpm s <> 0 -> update_estimate s = Some s.
Proof.
  intros Hf Hw. unfold update_estimate.
  destruct (_ =? 0); [reflexivity|].
  destruct (Z.eqb_spec (words_per_flash s) 0); [contradiction|].
  destruct (Z.eqb_spec (wpm s) 0); [contradiction|reflexivity].
Qed.

Lemma reachable_typed (text : string) (s : QuickReadApp) :
  reachable ascii_only s -> reachable ascii_only (typed text s).
Proof.
  intros Hr. apply (reach_step _ s); [assumption|].
  apply (step_text _ s (lit text)).
  destruct (reachable_good _ _ Hr) as ((_ & Hw & Hf & _) & _).
  apply update_estimate_ok; cbn; unfold MIN_WPM in *; lia.
Qed.

Lemma reachable_start (s : QuickReadApp) :
  reachable ascii_only s -> start_reading ascii_only s <> None ->
  reachable ascii_only (run (start_reading ascii_only s)).
Proof.
  intros Hr Hs. apply (reach_step _ s); [assumption|].
  apply step_start. destruct (start_reading ascii_only s); [reflexivity|congruence].
Qed.

Lemma reachable_session (text : string) :
  start_reading ascii_only (typed text init) <> None ->
  reachable ascii_only (session text).
Proof.
  intros H. apply reachable_start; [|assumption].
  apply reachable_typed, reach_init.
Qed.

Lemma reachable_demo : reachable ascii_only demo.
Proof. apply reachable_session. vm_decide. Qed.

Lemma reachable_demo12 : reachable ascii_only demo12.
Proof. apply reachable_session. vm_decide. Qed.

Lemma reachable_demo12_paused : reachable ascii_only demo12_paused.
Proof.
  apply (reach_step _ demo12); [apply reachable_demo12|].
  apply (step_toggle ascii_only demo12 demo12_paused). vm_decide.
Qed.

Lemma reachable_demo_last : reachable ascii_only demo_last.
Proof.
  apply (reach_step _ (session "a b")).
  - apply reachable_session. vm_decide.
  - apply (step_tick ascii_only (session "a b") demo_last 200); vm_decide.
Qed.

Lemma reachable_demo700 : reachable ascii_only demo700.
Proof.
  apply reachable_start; [|vm_decide].
  apply reachable_typed.
  apply (reach_step _ init); [apply reach_init|].
  apply (step_wpm ascii_only init 700 (run (on_wpm_changed 700 init)));
    vm_decide.
Qed.

Lemma reachable_demo_back : reachable ascii_only demo_back.
Proof.
  apply reachable_typed.
  apply (reach_step _ demo); [apply reachable_demo|].
  apply (step_back ascii_only demo).
Qed.

Lemma inv_demo : inv demo.
Proof. apply (reachable_good ascii_only), reachable_demo. Qed.

Lemma inv_demo12_paused : inv demo12_paused.
Proof. apply (reachable_good ascii_only), reachable_demo12_paused. Qed.


(** C4 on the sample session: the flash after ["Hi"] is ["there."], whose
    multiplier is 2.0; at 300 words per minute the exact delay is 400 ms
    and 400 ms are scheduled. *)
Lemma tick_delay_witness :
  inv demo /\ current_index demo < len (tokens demo) /\
  exists s' m d msec n dn,
    display_next_word ascii_only demo = Some s' /\
    py_max (map delay_multiplier (flash_tokens demo)) = Some m /\
    In m (map delay_multiplier (flash_tokens demo)) /\
    Forall (fun x => fltb m x = false) (map delay_multiplier (flash_tokens demo)) /\
    flash_delay (wpm demo) (words_per_flash demo) m = Some d /\
    int_of_float d = Some msec /\
    timer s' = Some msec /\
    In m [ONE; COMMA_DELAY_MULTIPLIER; PERIOD_DELAY_MULTIPLIER] /\
    exact_delay (wpm demo) (words_per_flash demo) m = Some (n, dn) /\
    0 < dn /\
    n / dn - 1 <= msec <= n / dn /\
    (msec = n / dn - 1 <->
     1 < words_per_flash demo /\ falls_short (wpm demo) m = true) /\
    (msec = n / dn - 1 -> n mod dn = 0).
Proof.
  split; [exact inv_demo|]. split; [vm_decide|].
  apply (tick_delay ascii_only demo); [exact inv_demo | vm_decide].
Defined.

(** C4, as the claim states it: at 700 words per minute the formula gives
    600/7 milliseconds for a plain word, and the timer is started with
    85. *)
Lemma tick_delay_truncated :
  reachable ascii_only demo700 /\
  current_index demo700 < len (tokens demo700) /\
  py_max (map delay_multiplier (flash_tokens demo700)) = Some ONE /\
  exists s' d,
    display_next_word ascii_only demo700 = Some s' /\
    flash_delay (wpm demo700) (words_per_flash demo700) ONE = Some d /\
    timer s' = Some 85 /\
    int_of_float d = Some 85 /\
    float_of_Z 85 <> d /\ fltb (float_of_Z 85) d = true.
Proof.
  split; [exact reachable_demo700|].
  split; [vm_decide|]. split; [vm_decide|].
  eexists. eexists. split; [vm_decide|].
  split; [vm_decide|].
  split; [reflexivity|]. split; [reflexivity|].
  split; [vm_decide | reflexivity].
Qed.

(** C5 on the sample session. *)
Lemma reachable_invariant_witness :
  reachable ascii_only demo /\
  0 <= current_index demo <= len (tokens demo) /\
  100 <= wpm demo <= 1000 /\
  1 <= words_per_flash demo <= 5.
Proof.
  split; [exact reachable_demo|].
  exact (reachable_invariant ascii_only demo reachable_demo).
Defined.



(** C8, as the claim states it: back in the input view after the sample
    session, [start_reading] on a blank text leaves the engine idle but
    with the stream of that session. *)
Lemma start_reading_blank_keeps_stream :
  reachable ascii_only demo_back /\
  strip (text_input demo_back) = [] /\
  exists s', start_reading ascii_only demo_back = Some s' /\
             phase s' = Idle /\ len (tokens s') = 5.
Proof.
  split; [exact reachable_demo_back|]. split; [vm_decide|].
  eexists. split; [vm_decide|].
  split; vm_decide.
Qed.

(** C9, as the claim states it: after the tick that emits the second of
    two words the engine is still playing, with its timer running, and the
    progress is already 1.0, the bar at 100. *)
Lemma full_progress_while_playing :
  reachable ascii_only demo_last /\
  phase demo_last = Playing /\ timer demo_last = Some 200 /\
  py_truediv (current_index demo_last) (len (tokens demo_last)) = Some ONE /\
  progress_bar demo_last = 100.
Proof.
  split; [exact reachable_demo_last|].
  vm_decide.
Qed.

(** The end-to-end run of three tokens at 600 words per minute, one word
    per flash: the first token is emitted at once and a tick is scheduled
    in 100 ms; each tick emits one token; the tick after the last token
    finishes the session and schedules nothing. *)
Example three_tokens_end_to_end :
  let tick s := run (display_next_word ascii_only s) in
  let s1 := demo600 in
  let s2 := tick s1 in
  let s3 := tick s2 in
  let s4 := tick s3 in
  (current_index s1, phase s1, timer s1, labels (orp_display s1)) =
    (1, Playing, Some 100, (lit "o", lit "n", lit "e")) /\
  (current_index s2, phase s2, timer s2, labels (orp_display s2)) =
    (2, Playing, Some 100, (lit "t", lit "w", lit "o")) /\
  (current_index s3, phase s3, timer s3, labels (orp_display s3)) =
    (3, Playing, Some 100, (lit "t", lit "h", lit "ree")) /\
  (current_index s4, phase s4, timer s4, labels (orp_display s4)) =
    (3, Finished, None, ([], DONE_MESSAGE, [])) /\
  tick s4 = s4.
Proof. intros tick s1 s2 s3 s4. vm_decide. Qed.

(** * Further properties *)

(** ** Tokenizer and word count *)

Lemma split_from_nil_iff (s w : str) :
  split_from w s = [] <-> w = [] /\ Forall (fun c => isspace c = true) s.
Proof.
  revert w. induction s as [|c r IH]; intros w; simpl.
  - destruct w; split.
    + intros _. split; [reflexivity|constructor].
    + reflexivity.
    + discriminate.
    + intros [H _]. discriminate H.
  - destruct (isspace c) eqn:Ec.
    + destruct w as [|x w'].
      * rewrite IH. split; intros [H1 H2]; (split; [reflexivity|]).
        -- now constructor.
        -- now inversion H2.
      * split; [discriminate|]. intros [H _]. discriminate H.
    + rewrite IH. split.
      * intros [H _]. now destruct w.
      * intros [_ H]. inversion H; subst. congruence.
Qed.

(** X1. A text has no token exactly when it is empty or made of whitespace
    only. *)
Theorem tokenize_text_empty_iff (text : str) :
  tokenize_text text = [] <-> Forall (fun c => isspace c = true) text.
Proof.
  rewrite tokenize_text_split. split.
  - intros H. apply map_eq_nil in H. now apply split_from_nil_iff in H.
  - intros H. unfold split.
    rewrite (proj2 (split_from_nil_iff text []) (conj eq_refl H)). reflexivity.
Qed.

Lemma split_from_app_space (a b w : str) (c : char) :
  isspace c = true ->
  split_from w (a ++ c :: b) = split_from w a ++ split_from [] b.
Proof.
  intros Hc. revert w. induction a as [|x a IH]; intros w; simpl.
  - rewrite Hc. now destruct w.
  - destruct (isspace x); [|apply IH].
    destruct w; [apply IH|]. now rewrite IH.
Qed.

(** X2. Tokenizing two texts put together with a whitespace character in
    between gives the tokens of the first followed by the tokens of the
    second. *)
Theorem tokenize_text_app (a b : str) (c : char) :
  isspace c = true ->
  tokenize_text (a ++ c :: b) = tokenize_text a ++ tokenize_text b.
Proof.
  intros Hc. rewrite !tokenize_text_split. unfold split.
  now rewrite split_from_app_space, map_app.
Qed.

(** X2 on ["Hi there."] and ["It's nice"], joined by a newline. *)
Lemma tokenize_text_app_witness :
  tokenize_text (lit "Hi there." ++ NEWLINE :: lit "It's nice") =
  tokenize_text (lit "Hi there.") ++ tokenize_text (lit "It's nice").
Proof.
  apply (tokenize_text_app (lit "Hi there.") (lit "It's nice") NEWLINE).
  reflexivity.
Defined.

(** X3. Tokenizing is stable: the token texts joined by single spaces
    tokenize to the same tokens, multipliers included. *)
Theorem tokenize_text_join_stable (text : str) :
  tokenize_text (join [SPACE] (map word (tokenize_text text))) =
  tokenize_text text.
Proof.
  rewrite tokenize_text_words, join_split_strip.
  rewrite !tokenize_text_split. now rewrite split_sub_ws, split_strip.
Qed.

Lemma count_words_len (text : str) :
  count_words text = len (tokenize_text text).
Proof.
  unfold count_words. rewrite tokenize_text_split.
  unfold len. rewrite length_map.
  destruct (strip text) eqn:Es; [|reflexivity].
  rewrite <- split_strip, Es. reflexivity.
Qed.

Lemma tokenize_text_strip (text : str) :
  tokenize_text (strip text) = tokenize_text text.
Proof. now rewrite !tokenize_text_split, split_strip. Qed.

(** X4. The word count of the input view is the number of tokens of the
    session that [start_reading] starts on that text. *)
Theorem count_words_tokens (text : str) :
  count_words text = len (tokenize_text (strip text)) /\
  count_words text = len (tokenize_text text).
Proof.
  split; [|apply count_words_len].
  rewrite tokenize_text_strip. apply count_words_len.
Qed.

(** ** What the display shows *)

Section DisplayProperties.

(** The alphanumeric class beyond ASCII is arbitrary. *)
Variable U : char -> bool.

Lemma find_orp_in_word_lt (w : str) :
  w <> [] -> (find_orp_in_word U w < length w)%nat.
Proof.
  intros Hne. unfold find_orp_in_word.
  destruct (Nat.eq_dec (length (letters_only U w)) 0) as [E|E].
  - rewrite find_orp_loop_fallback by lia. destruct w; [congruence|simpl; lia].
  - destruct (find_orp_loop_found U w (calculate_orp_index U w) 0 0)
      as (j & c & Hf & Hc & _); [lia| |].
    + rewrite Nat.sub_0_r. apply orp_rank_lt. lia.
    + rewrite Hf. simpl. apply nth_error_Some. congruence.
Qed.

Lemma split_at_index (A : Type) (w : list A) (i : nat) (d : A) :
  (i < length w)%nat -> w = firstn i w ++ nth i w d :: skipn (S i) w.
Proof.
  revert i. induction w as [|c r IH]; intros i Hi; [simpl in Hi; lia|].
  destruct i as [|i]; [reflexivity|].
  simpl. f_equal. apply IH. simpl in Hi. lia.
Qed.

Lemma char_at_nth (w : str) (i : nat) :
  (i < length w)%nat -> char_at w i = [nth i w 0%N].
Proof.
  intros Hi. unfold char_at.
  destruct (Nat.ltb_spec i (length w)); [|lia].
  destruct (nth_error w i) as [c|] eqn:E.
  - now rewrite (nth_error_nth w i 0%N E).
  - apply nth_error_None in E. lia.
Qed.

(** The three parts of a non-empty text put together are the text. *)
Lemma split_at_orp_partition (w : str) :
  w <> [] ->
  firstn (find_orp_in_word U w) w ++ char_at w (find_orp_in_word U w) ++
  skipn (find_orp_in_word U w + 1) w = w.
Proof.
  intros Hne. pose proof (find_orp_in_word_lt w Hne) as Hlt.
  rewrite char_at_nth by assumption. rewrite Nat.add_1_r.
  symmetry. now apply split_at_index.
Qed.

(** X5. The ORP index of a non-empty text is an index of the text, and
    [display_word] cuts the text into three labels that, side by side, show
    the text again, the focus being one character. *)
Theorem display_word_shows_word (w : str) (d : display) :
  shown (display_word U w d) = w /\
  (w <> [] ->
   (find_orp_in_word U w < length w)%nat /\
   orp_label (display_word U w d) = [nth (find_orp_in_word U w) w 0%N]).
Proof.
  pose proof (display_word_labels U w d) as E.
  unfold labels, split_at_orp in E. injection E as El Ef Er.
  unfold shown. rewrite El, Ef, Er. split.
  - destruct w as [|c r] eqn:Ew; [reflexivity|]. rewrite <- Ew.
    apply split_at_orp_partition. rewrite Ew. discriminate.
  - intros Hne. pose proof (find_orp_in_word_lt w Hne) as Hlt.
    split; [assumption|now apply char_at_nth].
Qed.

(** *** A flash of several words *)

Lemma join_app_cons (sep : str) (a b : list str) (x : str) :
  a <> [] ->
  join sep (a ++ x :: b) =
  join sep a ++ sep ++ x ++
  match b with [] => [] | _ => sep ++ join sep b end.
Proof.
  induction a as [|y a IH]; intros Hne; [congruence|].
  destruct a as [|z a].
  - simpl. destruct b; [now rewrite app_nil_r|reflexivity].
  - change ((y :: z :: a) ++ x :: b) with (y :: ((z :: a) ++ x :: b)).
    rewrite join_cons by discriminate.
    rewrite IH by discriminate.
    rewrite (join_cons sep y (z :: a)) by discriminate.
    now rewrite <- !app_assoc.
Qed.

(** X6. The text a flash of two or more words shows is its words joined by
    single spaces, except around the middle word: the space before it is
    missing when its ORP is its first character, and the space after it is
    missing when its ORP is its last character.  When the ORP lies strictly
    inside the middle word, the flash shows the words joined by single
    spaces. *)
Theorem display_phrase_shows_words (words : list str) (d : display) :
  (2 <= length words)%nat -> Forall (fun w => w <> []) words ->
  let middle := (length words / 2)%nat in
  let text := nth middle words [] in
  let orp := find_orp_in_word U text in
  let after := skipn (middle + 1) words in
  shown (display_phrase U words d) =
    join [SPACE] (firstn middle words) ++
    (if (0 <? orp)%nat then [SPACE] else []) ++ text ++
    (if (orp + 1 <? length text)%nat
     then match after with [] => [] | _ => [SPACE] end
     else []) ++
    join [SPACE] after /\
  ((0 < orp)%nat -> (orp + 1 < length text)%nat ->
   shown (display_phrase U words d) = join [SPACE] words).
Proof.
  intros Hlen Hall middle text orp after.
  assert (Hm : (middle < length words)%nat)
    by (apply Nat.div_lt; lia).
  assert (Hm1 : (1 <= middle)%nat).
  { unfold middle. change 1%nat with (2 / 2)%nat.
    apply Nat.Div0.div_le_mono. lia. }
  pose proof (split_at_index _ words middle [] Hm) as Hw.
  fold text in Hw. rewrite <- Nat.add_1_r in Hw. fold after in Hw.
  assert (Htext : text <> []).
  { rewrite Forall_forall in Hall. apply Hall. apply nth_In. exact Hm. }
  assert (Hbefore : firstn middle words <> []).
  { intros E. apply (f_equal (@length str)) in E.
    rewrite length_firstn in E. simpl in E. lia. }
  assert (Hjb : join [SPACE] (firstn middle words) <> []).
  { apply join_nonempty; [assumption|].
    rewrite <- (firstn_skipn middle words) in Hall.
    now apply Forall_app in Hall. }
  assert (Hja : after <> [] -> join [SPACE] after <> []).
  { intros Hne. apply join_nonempty; [assumption|].
    unfold after. rewrite <- (firstn_skipn (middle + 1) words) in Hall.
    now apply Forall_app in Hall. }
  pose proof (find_orp_in_word_lt text Htext) as Hlt. fold orp in Hlt.
  pose proof (split_at_orp_partition text Htext) as Hp. fold orp in Hp.
  pose proof (display_phrase_labels U words d Hlen Hall) as E.
  unfold labels, compose, split_at_orp in E.
  fold middle in E. fold text in E. fold orp in E. fold after in E.
  injection E as El Ef Er.
  assert (Hshown :
    shown (display_phrase U words d) =
    join [SPACE] (firstn middle words) ++
    (if (0 <? orp)%nat then [SPACE] else []) ++ text ++
    (if (orp + 1 <? length text)%nat
     then match after with [] => [] | _ => [SPACE] end
     else []) ++
    join [SPACE] after).
  { unfold shown. rewrite El, Ef, Er.
    assert (Hl : sep_join (join [SPACE] (firstn middle words)) (firstn orp text) =
                 join [SPACE] (firstn middle words) ++
                 (if (0 <? orp)%nat then [SPACE] else []) ++ firstn orp text).
    { unfold sep_join.
      destruct (join [SPACE] (firstn middle words)) as [|x jb]; [congruence|].
      destruct orp as [|o]; [simpl; now rewrite app_nil_r|].
      destruct text as [|c t]; [congruence|]. reflexivity. }
    assert (Hr : sep_join (skipn (orp + 1) text) (join [SPACE] after) =
                 skipn (orp + 1) text ++
                 (if (orp + 1 <? length text)%nat
                  then match after with [] => [] | _ => [SPACE] end
                  else []) ++ join [SPACE] after).
    { unfold sep_join.
      destruct (Nat.ltb_spec (orp + 1) (length text)) as [Hin|Hout].
      - destruct (skipn (orp + 1) text) as [|x r] eqn:Es.
        + apply (f_equal (@length char)) in Es.
          rewrite length_skipn in Es. simpl in Es. lia.
        + destruct after as [|u us]; [simpl; now rewrite app_nil_r|].
          destruct (join [SPACE] (u :: us)) eqn:Ej; [|reflexivity].
          exfalso. now apply Hja.
      - rewrite skipn_all2 by lia. reflexivity. }
    rewrite Hl, Hr.
    transitivity
      (join [SPACE] (firstn middle words) ++
       (if (0 <? orp)%nat then [SPACE] else []) ++
       (firstn orp text ++ char_at text orp ++ skipn (orp + 1) text) ++
       (if (orp + 1 <? length text)%nat
        then match after with [] => [] | _ => [SPACE] end
        else []) ++ join [SPACE] after);
      [now rewrite <- !app_assoc | now rewrite Hp]. }
  split; [exact Hshown|].
  intros H0 H1. rewrite Hshown.
  destruct (Nat.ltb_spec 0 orp); [|lia].
  destruct (Nat.ltb_spec (orp + 1) (length text)); [|lia].
  replace (join [SPACE] words)
    with (join [SPACE] (firstn middle words ++ text :: after))
    by (now rewrite <- Hw).
  rewrite join_app_cons by assumption.
  destruct after; reflexivity.
Qed.

End DisplayProperties.

(** X6 on the flash ["go to bed"]: the ORP of ["to"] is its last character,
    and the flash shows ["go tobed"]. *)
Lemma display_phrase_shows_words_witness :
  shown (display_phrase ascii_only [lit "go"; lit "to"; lit "bed"]
           (orp_display init)) = lit "go tobed".
Proof.
  refine (eq_trans
    (proj1 (display_phrase_shows_words ascii_only
              [lit "go"; lit "to"; lit "bed"] (orp_display init) _ _)) _).
  - simpl. lia.
  - repeat constructor; discriminate.
  - vm_compute. reflexivity.
Defined.

(** ** The ORP and punctuation *)

Section OrpPunctuation.

Variable U : char -> bool.

Lemma find_orp_loop_shift (w : str) :
  forall t i k, (k <= t)%nat ->
  (t - k < length (letters_only U w))%nat ->
  find_orp_loop U t (S i) k w = S (find_orp_loop U t i k w).
Proof.
  induction w as [|c r IH]; intros t i k Hk Hlen; [simpl in Hlen; lia|].
  unfold letters_only in *. simpl in *.
  destruct (is_word U c) eqn:Ec.
  - destruct (Nat.eqb_spec k t) as [->|Hne]; [reflexivity|].
    simpl in Hlen. apply IH; lia.
  - apply IH; lia.
Qed.

Lemma find_orp_loop_app_nonword (w : str) (c : char) :
  is_word U c = false ->
  forall t i k,
  find_orp_loop U t i k (w ++ [c]) = find_orp_loop U t i k w.
Proof.
  intros Ec. induction w as [|a r IH]; intros t i k.
  - simpl. now rewrite Ec.
  - simpl. destruct (is_word U a); [|apply IH].
    destruct (t =? k)%nat; destruct (k =? t)%nat; try reflexivity; apply IH.
Qed.

Lemma letters_only_app_nonword (w : str) (c : char) :
  is_word U c = false -> letters_only U (w ++ [c]) = letters_only U w.
Proof.
  intros Ec. unfold letters_only. rewrite filter_app. simpl.
  rewrite Ec. apply app_nil_r.
Qed.

Lemma letters_only_cons_nonword (w : str) (c : char) :
  is_word U c = false -> letters_only U (c :: w) = letters_only U w.
Proof. intros Ec. unfold letters_only. simpl. now rewrite Ec. Qed.

(** X22. Punctuation does not count for the ORP.  A character that is not
    a word character, put before or after a text, leaves the rank of the
    ORP letter as it is; put after, it leaves the ORP index as it is, so
    the comma or the period that sets the pause of a word never moves its
    ORP; put before a text that has a word character, it moves the ORP
    index by one, and a text without a word character has ORP index 0. *)
Theorem orp_ignores_punctuation (w : str) (c : char) :
  is_word U c = false ->
  calculate_orp_index U (c :: w) = calculate_orp_index U w /\
  calculate_orp_index U (w ++ [c]) = calculate_orp_index U w /\
  find_orp_in_word U (w ++ [c]) = find_orp_in_word U w /\
  (letters_only U w <> [] ->
   find_orp_in_word U (c :: w) = S (find_orp_in_word U w)) /\
  (letters_only U w = [] -> find_orp_in_word U (c :: w) = 0%nat).
Proof.
  intros Ec.
  assert (E1 : calculate_orp_index U (c :: w) = calculate_orp_index U w)
    by (unfold calculate_orp_index; now rewrite letters_only_cons_nonword).
  assert (E2 : calculate_orp_index U (w ++ [c]) = calculate_orp_index U w)
    by (unfold calculate_orp_index; now rewrite letters_only_app_nonword).
  split; [exact E1|]. split; [exact E2|]. split; [|split].
  - unfold find_orp_in_word. rewrite E2.
    now apply find_orp_loop_app_nonword.
  - intros Hne. unfold find_orp_in_word. rewrite E1.
    cbn [find_orp_loop]. rewrite Ec.
    apply find_orp_loop_shift; [lia|]. rewrite Nat.sub_0_r.
    apply orp_rank_lt. destruct (letters_only U w); [congruence|simpl; lia].
  - intros He. unfold find_orp_in_word.
    apply find_orp_loop_fallback; [lia|].
    rewrite letters_only_cons_nonword, He by assumption. simpl. lia.
Qed.

(** X23. The rank of the ORP letter grows with the number of word
    characters and stays in the first half of them: twice the rank is at
    most their number. *)
Theorem calculate_orp_index_first_half (w w' : str) :
  (length (letters_only U w) <= length (letters_only U w'))%nat ->
  (calculate_orp_index U w <= calculate_orp_index U w')%nat /\
  (2 * calculate_orp_index U w <= length (letters_only U w))%nat.
Proof.
  intros Hle. unfold calculate_orp_index, orp_rank.
  set (n := length (letters_only U w)) in *.
  set (m := length (letters_only U w')) in *.
  pose proof (Nat.Div0.div_le_mono n m 4 Hle) as Hd.
  pose proof (Nat.Div0.div_le_mono 14 m 4) as Hd14.
  change (14 / 4)%nat with 3%nat in Hd14.
  pose proof (Nat.Div0.mul_div_le n 4) as Hq.
  repeat match goal with
         | |- context [(?a <=? ?b)%nat] => destruct (Nat.leb_spec a b)
         end; lia.
Qed.

End OrpPunctuation.

(** X22 on ["hello"] and a comma. *)
Lemma orp_ignores_punctuation_witness :
  is_word ascii_only 44%N = false /\
  find_orp_in_word ascii_only (lit "hello" ++ [44%N]) =
  find_orp_in_word ascii_only (lit "hello").
Proof.
  assert (H : is_word ascii_only 44%N = false) by reflexivity.
  split; [exact H|].
  destruct (orp_ignores_punctuation ascii_only (lit "hello") 44%N H)
    as (_ & _ & E & _).
  exact E.
Defined.

(** X23 on ["hello"] and ["hello, world"]. *)
Lemma calculate_orp_index_first_half_witness :
  (length (letters_only ascii_only (lit "hello"))
   <= length (letters_only ascii_only (lit "helloworld")))%nat /\
  (calculate_orp_index ascii_only (lit "hello")
   <= calculate_orp_index ascii_only (lit "helloworld"))%nat.
Proof.
  assert (H : (length (letters_only ascii_only (lit "hello"))
               <= length (letters_only ascii_only (lit "helloworld")))%nat)
    by (vm_compute; lia).
  split; [exact H|].
  destruct (calculate_orp_index_first_half ascii_only
              (lit "hello") (lit "helloworld") H) as (E & _).
  exact E.
Defined.

(** ** Speed steps *)



(** ** The time labels *)

Lemma fdiv_bounded (x : float) (sy : bool) (my : positive) (ey Dx : Z) :
  fbounded Dx x -> -1074 <= Dx - ey <= 971 ->
  fbounded (Dx - ey + 1) (fdiv x (S754_finite sy my ey)).
Proof.
  destruct x as [sx|sx| |sx mx ex]; try (simpl; easy).
  unfold fbounded at 1. intros Hx HD.
  unfold fdiv, SFdiv, SFdiv_core_binary.
  set (d1 := Zdigits2 (Z.pos mx)) in *. set (d2 := Zdigits2 (Z.pos my)).
  set (e' := Z.min (fexp prec emax (d1 + ex - (d2 + ey))) (ex - ey)).
  assert (He' : e' <= ex - ey) by (unfold e'; lia).
  set (sh := ex - ey - e').
  set (m' := match sh with
             | Z.pos _ => Z.shiftl (Z.pos mx) sh
             | 0 => Z.pos mx
             | Z.neg _ => 0
             end).
  assert (Hsh : 0 <= sh) by (unfold sh; lia).
  assert (Hm' : m' = Z.pos mx * 2 ^ sh).
  { unfold m'. destruct sh as [|p|p] eqn:Es; [simpl; lia | | lia].
    apply Z.shiftl_mul_pow2. lia. }
  pose proof (Z.div_eucl_eq m' (Z.pos my) ltac:(lia)) as Hdiv.
  pose proof (Z.mod_pos_bound m' (Z.pos my) ltac:(lia)) as Hmod.
  unfold Z.modulo in Hmod.
  destruct (Z.div_eucl m' (Z.pos my)) as [q r].
  assert (Hps : 0 < 2 ^ sh) by (apply Z.pow_pos_nonneg; lia).
  assert (Hd1 : 1 <= d1) by (apply Zdigits2_pos; lia).
  pose proof (Zdigits2_gt (Z.pos mx) ltac:(lia)) as Hg. fold d1 in Hg.
  assert (Hq0 : 0 <= q) by nia.
  assert (Hq1 : q < 2 ^ (d1 + sh)).
  { rewrite Z.pow_add_r by lia.
    assert (q <= m') by nia.
    assert (m' < 2 ^ d1 * 2 ^ sh) by nia. lia. }
  assert (Hdq : Zdigits2 q <= d1 + sh)
    by (apply Zdigits2_le_bound; [split; assumption | lia]).
  apply binary_round_aux_bounded; unfold sh in *; lia.
Qed.

Lemma thousand_eq : float_of_Z 1000 = S754_finite false 8796093022208000 (-43).
Proof. vm_compute. reflexivity. Qed.

(** Signs: rounding keeps the sign it is given. *)
Lemma binary_round_aux_sign (s : bool) (m e : Z) (l : location) :
  0 <= m ->
  match binary_round_aux prec emax s m e l with
  | S754_zero s' | S754_infinity s' | S754_finite s' _ _ => s' = s
  | S754_nan => False
  end.
Proof.
  intros H0. unfold binary_round_aux.
  pose proof (shr_fexp_bounded m e l (Z.max (Zdigits2 m + e) (-1074)) H0
                ltac:(lia) ltac:(lia)) as H1.
  destruct (shr_fexp prec emax m e l) as [mrs' e'].
  destruct H1 as (Hm' & Hd' & _).
  pose proof (round_nearest_even_bounds (shr_m mrs') (loc_of_shr_record mrs')) as Hr.
  set (m1 := round_nearest_even (shr_m mrs') (loc_of_shr_record mrs')) in *.
  pose proof (shr_fexp_bounded m1 e' loc_Exact
                (Z.max (Zdigits2 m1 + e') (-1074)) ltac:(lia) ltac:(lia)
                ltac:(lia)) as H2.
  destruct (shr_fexp prec emax m1 e' loc_Exact) as [mrs'' e''].
  destruct H2 as (Hm'' & _).
  destruct (shr_m mrs'') as [|p|p]; [reflexivity| |lia].
  destruct (e'' <=? emax - prec); reflexivity.
Qed.

Lemma SFdiv_core_binary_nonneg (m1 e1 m2 e2 : Z) :
  0 <= m1 -> 0 < m2 ->
  0 <= fst (fst (SFdiv_core_binary prec emax m1 e1 m2 e2)).
Proof.
  intros H1 H2. unfold SFdiv_core_binary.
  set (sh := e1 - e2 - _).
  set (m' := match sh with
             | Z.pos _ => Z.shiftl m1 sh
             | 0 => m1
             | Z.neg _ => 0
             end).
  assert (Hm' : 0 <= m').
  { unfold m'. destruct sh; try lia. apply Z.shiftl_nonneg. exact H1. }
  pose proof (Z.div_pos m' m2 Hm' H2) as Hd. unfold Z.div in Hd.
  destruct (Z.div_eucl m' m2) as [q r]. exact Hd.
Qed.

Lemma py_truediv_nonneg (a b : Z) (f : float) :
  0 <= a -> 0 < b -> py_truediv a b = Some f -> fnonneg f.
Proof.
  intros Ha Hb. unfold py_truediv.
  destruct (Z.eqb_spec b 0); [lia|].
  destruct (Z.eqb_spec a 0).
  - intros E. injection E as <-. simpl. apply Z.ltb_ge. lia.
  - destruct (SFdiv_core_binary prec emax (Z.abs a) 0 (Z.abs b) 0)
      as [[q e] l] eqn:Ec.
    assert (Hq : 0 <= q).
    { pose proof (SFdiv_core_binary_nonneg (Z.abs a) 0 (Z.abs b) 0
                    ltac:(lia) ltac:(lia)) as Hq.
      now rewrite Ec in Hq. }
    pose proof (binary_round_aux_sign (xorb (a <? 0) (b <? 0)) q e l Hq) as Hs.
    replace (a <? 0) with false in * by (symmetry; apply Z.ltb_ge; lia).
    replace (b <? 0) with false in * by (symmetry; apply Z.ltb_ge; lia).
    simpl xorb in *.
    destruct (binary_round_aux prec emax false q e l); try discriminate;
      intros E; injection E as <-; exact Hs.
Qed.

Lemma fmul_nonneg (x y : float) :
  fnonneg x -> fnonneg y -> fmul x y <> S754_nan -> fnonneg (fmul x y).
Proof.
  destruct x as [sx|sx| |sx mx ex], y as [sy|sy| |sy my ey]; simpl;
    try easy; try (intros -> -> _; reflexivity).
  intros -> -> _.
  apply (binary_round_aux_sign false (Z.pos (mx * my)) (ex + ey) loc_Exact).
  lia.
Qed.

Lemma fbounded_not_nan (D : Z) (f : float) : fbounded D f -> f <> S754_nan.
Proof. destruct f; simpl; try easy. Qed.

Lemma fdiv_finite_nonneg (x : float) (my : positive) (ey : Z) :
  fnonneg x -> fnonneg (fdiv x (S754_finite false my ey)) \/
               fdiv x (S754_finite false my ey) = S754_nan.
Proof.
  destruct x as [sx|sx| |sx mx ex]; simpl; try easy;
    try (intros ->; left; reflexivity).
  intros ->. left. unfold fdiv, SFdiv.
  destruct (SFdiv_core_binary prec emax (Z.pos mx) ex (Z.pos my) ey)
    as [[q e] l] eqn:Ec.
  assert (Hq : 0 <= q).
  { pose proof (SFdiv_core_binary_nonneg (Z.pos mx) ex (Z.pos my) ey
                  ltac:(lia) ltac:(lia)) as Hq.
    now rewrite Ec in Hq. }
  apply (binary_round_aux_sign false q e l Hq).
Qed.

Lemma int_of_float_nonneg (f : float) (v : Z) :
  fnonneg f -> int_of_float f = Some v -> 0 <= v.
Proof.
  destruct f as [s|s| |s m e]; simpl; try easy.
  - intros _ E. injection E as <-. lia.
  - intros -> E. injection E as <-. simpl. apply Z.shiftl_nonneg. lia.
Qed.

Lemma fmul_zero_l (s : bool) (y : float) (D : Z) :
  fbounded D y -> exists s', fmul (S754_zero s) y = S754_zero s'.
Proof. destruct y; simpl; try easy; eauto. Qed.

(** The seconds the two estimates compute never overflow for a count below
    [2 ^ 63]; they are not negative for a count that is not, and null for a
    null count. *)
Lemma time_formula_total (words wpm wpf : Z) :
  Z.abs words < 2 ^ 63 -> wpf <> 0 -> wpm <> 0 ->
  exists total_seconds,
    time_formula words wpm wpf =
      Some (MinSec (total_seconds / 60) (total_seconds mod 60)) /\
    (0 <= words -> 0 < wpf -> 0 < wpm -> 0 <= total_seconds) /\
    (words = 0 -> total_seconds = 0).
Proof.
  intros Hw Hf Hm. unfold time_formula.
  destruct (py_truediv_bounded words wpf 63) as (fl & Efl & Bfl);
    [assumption| |lia|].
  { assert (0 < 2 ^ 63) by (apply Z.pow_pos_nonneg; lia). nia. }
  destruct (py_truediv_bounded 60000 wpm 16) as (b & Eb & Bb);
    [assumption| |lia|].
  { change (Z.abs 60000) with 60000. change (2 ^ 16) with 65536. lia. }
  rewrite Efl, Eb. cbv beta iota delta [bind].
  assert (B1 : fbounded (16 + 2 + 1 + 1) (fmul b AVERAGE_MULTIPLIER)).
  { apply fmul_bounded; [assumption| |lia]. simpl. lia. }
  assert (B2 : fbounded (16 + 2 + 1 + 1 + 1 + 1)
                 (fmul (fmul b AVERAGE_MULTIPLIER) MULTI_WORD_DELAY_MULTIPLIER)).
  { apply fmul_bounded; [assumption| |lia]. simpl. lia. }
  set (avg := if wpf >? 1
              then fmul (fmul b AVERAGE_MULTIPLIER) MULTI_WORD_DELAY_MULTIPLIER
              else fmul b AVERAGE_MULTIPLIER).
  assert (B3 : fbounded 22 avg).
  { unfold avg. destruct (wpf >? 1); [exact B2|].
    apply (fbounded_weaken 20); [exact B1|lia]. }
  assert (B4 : fbounded (63 + 2 + 22 + 1) (fmul fl avg)).
  { apply fmul_bounded; [assumption|assumption|lia]. }
  assert (B5 : fbounded (63 + 2 + 22 + 1 - -43 + 1)
                 (fdiv (fmul fl avg) (float_of_Z 1000))).
  { rewrite thousand_eq. apply fdiv_bounded; [assumption|lia]. }
  destruct (int_of_float_bounded _ _ B5) as [v Ev].
  rewrite Ev. cbv beta iota delta [bind]. exists v. split; [reflexivity|]. split.
  - intros Hw0 Hf0 Hm0.
    assert (N1 : fnonneg fl) by (apply (py_truediv_nonneg words wpf); assumption).
    assert (N2 : fnonneg b) by (apply (py_truediv_nonneg 60000 wpm); [lia|assumption..]).
    assert (N3 : fnonneg (fmul b AVERAGE_MULTIPLIER)).
    { apply fmul_nonneg; [assumption|reflexivity|].
      now apply (fbounded_not_nan _ _ B1). }
    assert (N4 : fnonneg avg).
    { unfold avg. destruct (wpf >? 1); [|exact N3].
      apply fmul_nonneg; [assumption|reflexivity|].
      now apply (fbounded_not_nan _ _ B2). }
    assert (N5 : fnonneg (fmul fl avg)).
    { apply fmul_nonneg; [assumption|assumption|].
      now apply (fbounded_not_nan _ _ B4). }
    rewrite thousand_eq in Ev, B5.
    destruct (fdiv_finite_nonneg (fmul fl avg) 8796093022208000 (-43) N5)
      as [N6|N6].
    + now apply (int_of_float_nonneg _ v N6).
    + now apply (fbounded_not_nan _ _ B5) in N6.
  - intros ->. unfold py_truediv in Efl.
    destruct (wpf =? 0); [discriminate|]. simpl in Efl. injection Efl as <-.
    destruct (fmul_zero_l (wpf <? 0) avg 22 B3) as [s' Es'].
    rewrite Es', thousand_eq in Ev. simpl in Ev. congruence.
Qed.

Lemma estimate_label_eq (s : QuickReadApp) :
  estimate_label s =
  if count_words (text_input s) =? 0 then Some Dashes
  else time_formula (count_words (text_input s)) (wpm s) (words_per_flash s).
Proof.
  unfold estimate_label, time_formula.
  destruct (count_words (text_input s) =? 0); [reflexivity|].
  destruct (py_truediv (count_words (text_input s)) (words_per_flash s));
    [|reflexivity].
  simpl bind. destruct (py_truediv 60000 (wpm s)); reflexivity.
Qed.

Lemma time_label_eq (s : QuickReadApp) :
  tokens s <> [] ->
  time_label s =
  time_formula (len (tokens s) - current_index s) (wpm s) (words_per_flash s).
Proof.
  intros Hne. unfold time_label, time_formula.
  destruct (tokens s) eqn:E; [congruence|]. rewrite <- E.
  destruct (py_truediv (len (tokens s) - current_index s) (words_per_flash s));
    [|reflexivity].
  simpl bind. destruct (py_truediv 60000 (wpm s)); reflexivity.
Qed.

Lemma time_formula_none (words wpm wpf : Z) :
  Z.abs words < 2 ^ 63 ->
  time_formula words wpm wpf = None <-> wpf = 0 \/ wpm = 0.
Proof.
  intros Hw. split.
  - intros E. destruct (Z.eq_dec wpf 0) as [|Hf]; [now left|].
    destruct (Z.eq_dec wpm 0) as [|Hm]; [now right|].
    destruct (time_formula_total words wpm wpf Hw Hf Hm) as (v & Ev & _).
    congruence.
  - unfold time_formula, py_truediv. intros [->| ->]; [reflexivity|].
    destruct (wpf =? 0); [reflexivity|].
    destruct (words =? 0); [reflexivity|].
    destruct (SFdiv_core_binary prec emax (Z.abs words) 0 (Z.abs wpf) 0)
      as [[q e] l].
    destruct (binary_round_aux prec emax _ q e l); reflexivity.
Qed.

Lemma count_words_range (text : str) : 0 <= count_words text.
Proof. rewrite count_words_len. apply len_nonneg. Qed.

(** X8. For word counts below [2 ^ 63], the two time estimates raise on a
    null speed or batch width and on nothing else, the input-view estimate
    only when the text has words and the remaining time only when there is
    a stream: the exceptions of [update_estimate] and
    [update_time_estimate] are those two divisions by zero. *)
Theorem time_estimates_raise (s : QuickReadApp) :
  count_words (text_input s) < 2 ^ 63 ->
  Z.abs (len (tokens s) - current_index s) < 2 ^ 63 ->
  (estimate_label s = None <->
   count_words (text_input s) <> 0 /\ (words_per_flash s = 0 \/ wpm s = 0)) /\
  (time_label s = None <->
   tokens s <> [] /\ (words_per_flash s = 0 \/ wpm s = 0)) /\
  (update_estimate s = None <-> estimate_label s = None) /\
  (update_time_estimate s = None <-> time_label s = None).
Proof.
  intros Hc Hr.
  pose proof (count_words_range (text_input s)) as Hc0.
  assert (He : estimate_label s = None <->
               count_words (text_input s) <> 0 /\
               (words_per_flash s = 0 \/ wpm s = 0)).
  { rewrite estimate_label_eq.
    destruct (Z.eqb_spec (count_words (text_input s)) 0) as [E|E].
    - split; [discriminate|]. intros [H _]. contradiction.
    - rewrite time_formula_none by lia. tauto. }
  assert (Ht : time_label s = None <->
               tokens s <> [] /\ (words_per_flash s = 0 \/ wpm s = 0)).
  { destruct (tokens s) as [|t ts] eqn:E.
    - unfold time_label. rewrite E. split; [discriminate|]. intros [H _]. congruence.
    - rewrite time_label_eq by (rewrite E; discriminate).
      rewrite time_formula_none by (rewrite E; assumption).
      split; [intros H; split; [discriminate|exact H] | intros [_ H]; exact H]. }
  split; [exact He|]. split; [exact Ht|]. split.
  - rewrite He. unfold update_estimate.
    change (match strip (text_input s) with
            | [] => 0
            | _ :: _ => len (split (text_input s))
            end) with (count_words (text_input s)).
    destruct (Z.eqb_spec (count_words (text_input s)) 0) as [E|E].
    + split; [discriminate|]. intros [H _]. contradiction.
    + destruct (Z.eqb_spec (words_per_flash s) 0) as [Ef|Ef].
      * split; [intros _; split; [exact E|now left] | reflexivity].
      * destruct (Z.eqb_spec (wpm s) 0) as [Em|Em].
        -- split; [intros _; split; [exact E|now right] | reflexivity].
        -- split; [discriminate|]. intros [_ [H|H]]; contradiction.
  - rewrite Ht. unfold update_time_estimate.
    destruct (tokens s) as [|t ts].
    + split; [discriminate|]. intros [H _]. congruence.
    + destruct (Z.eqb_spec (words_per_flash s) 0) as [Ef|Ef].
      * split; [intros _; split; [discriminate|now left] | reflexivity].
      * destruct (Z.eqb_spec (wpm s) 0) as [Em|Em].
        -- split; [intros _; split; [discriminate|now right] | reflexivity].
        -- split; [discriminate|]. intros [_ [H|H]]; contradiction.
Qed.

(** X9. For a stream of less than [2 ^ 63] tokens in a state that keeps
    the invariant, the remaining time is shown as minutes and seconds,
    neither negative and the seconds below 60, and it is 0:00 at the end of
    the stream. *)
Theorem time_label_reading (s : QuickReadApp) :
  inv s -> tokens s <> [] -> len (tokens s) < 2 ^ 63 ->
  exists minutes seconds,
    time_label s = Some (MinSec minutes seconds) /\
    0 <= minutes /\ 0 <= seconds < 60 /\
    (current_index s = len (tokens s) -> minutes = 0 /\ seconds = 0).
Proof.
  intros (Hi & Hw & Hf & _) Hne Hl.
  unfold MIN_WPM, MAX_WPM, MAX_WORDS_PER_FLASH in *.
  rewrite time_label_eq by assumption.
  destruct (time_formula_total (len (tokens s) - current_index s)
              (wpm s) (words_per_flash s)) as (v & Ev & Hv & H0);
    [lia|lia|lia|].
  exists (v / 60), (v mod 60). split; [exact Ev|].
  specialize (Hv ltac:(lia) ltac:(lia) ltac:(lia)).
  split; [apply Z.div_pos; lia|]. split; [apply Z.mod_pos_bound; lia|].
  intros E. rewrite H0 by lia. split; reflexivity.
Qed.

(** X10. The estimate the input view shows for a text that is not blank is
    the remaining time the reading view shows when [start_reading] has
    reset the session on that text. *)
Theorem estimate_matches_session (s : QuickReadApp) :
  strip (text_input s) <> [] ->
  time_label (session_reset s) = estimate_label s.
Proof.
  intros Hne.
  assert (Ht : tokenize_text (strip (text_input s)) <> []).
  { apply tokenize_text_nonempty. now rewrite strip_idem. }
  destruct (session_reset_fields s) as (Et & Ei & _).
  rewrite time_label_eq by (rewrite Et; exact Ht).
  rewrite estimate_label_eq, Et, Ei.
  change (wpm (session_reset s)) with (wpm s).
  change (words_per_flash (session_reset s)) with (words_per_flash s).
  rewrite count_words_len, tokenize_text_strip, Z.sub_0_r.
  destruct (Z.eqb_spec (len (tokenize_text (text_input s))) 0) as [E|E];
    [|reflexivity].
  apply len_nil_iff in E. rewrite tokenize_text_strip in Ht. contradiction.
Qed.

(** X8 on the sample session. *)
Lemma time_estimates_raise_witness :
  count_words (text_input demo) < 2 ^ 63 /\
  Z.abs (len (tokens demo) - current_index demo) < 2 ^ 63 /\
  (update_estimate demo = None <-> estimate_label demo = None) /\
  (update_time_estimate demo = None <-> time_label demo = None).
Proof.
  assert (H1 : count_words (text_input demo) < 2 ^ 63) by vm_decide.
  assert (H2 : Z.abs (len (tokens demo) - current_index demo) < 2 ^ 63)
    by vm_decide.
  split; [exact H1|]. split; [exact H2|].
  destruct (time_estimates_raise demo H1 H2) as (_ & _ & H3 & H4).
  split; [exact H3|exact H4].
Defined.

(** X9 on the sample session. *)
Lemma time_label_reading_witness :
  inv demo /\ tokens demo <> [] /\ len (tokens demo) < 2 ^ 63 /\
  exists minutes seconds,
    time_label demo = Some (MinSec minutes seconds) /\
    0 <= minutes /\ 0 <= seconds < 60 /\
    (current_index demo = len (tokens demo) -> minutes = 0 /\ seconds = 0).
Proof.
  assert (H1 : tokens demo <> []) by vm_decide.
  assert (H2 : len (tokens demo) < 2 ^ 63) by vm_decide.
  split; [exact inv_demo|]. split; [exact H1|]. split; [exact H2|].
  exact (time_label_reading demo inv_demo H1 H2).
Defined.

(** X10 on a typed text. *)
Lemma estimate_matches_session_witness :
  strip (text_input (typed "Hi there. It's nice, ok?" init)) <> [] /\
  time_label (session_reset (typed "Hi there. It's nice, ok?" init)) =
  estimate_label (typed "Hi there. It's nice, ok?" init).
Proof.
  assert (H : strip (text_input (typed "Hi there. It's nice, ok?" init)) <> [])
    by vm_decide.
  split; [exact H|].
  exact (estimate_matches_session _ H).
Defined.

(** * The scheduler: more properties *)

Section SchedulerProperties.

Variable U : char -> bool.

Lemma sched_same (s s' : QuickReadApp) :
  tokens s' = tokens s -> is_playing s' = is_playing s ->
  is_paused s' = is_paused s -> timer s' = timer s ->
  sched s -> sched s'.
Proof. intros Et Ep Ea Ei. unfold sched. now rewrite Et, Ep, Ea, Ei. Qed.

Lemma sched_same_engine (s s' : QuickReadApp) :
  same_engine s s' -> sched s -> sched s'.
Proof.
  intros (Et & _ & Ep & Ea & _ & _ & Ei). now apply sched_same.
Qed.

(** A tick establishes the discipline from less than the discipline: the
    timer it finds does not matter. *)
Lemma sched_tick (s s' : QuickReadApp) :
  (is_playing s = true -> is_paused s = false) ->
  (is_playing s = true \/ is_paused s = true -> tokens s <> []) ->
  (exists text, tokens s = tokenize_text text) ->
  display_next_word U s = Some s' -> sched s'.
Proof.
  intros H1 H2 H3 E.
  destruct (Z_lt_le_dec (current_index s) (len (tokens s))) as [Hlt|Hge].
  - destruct (display_next_word_flash_inv U s s' Hlt E) as (v & msec & ->).
    destruct (after_flash_fields U v msec s)
      as (Et & _ & Epl & Epa & _ & _ & Eti).
    unfold sched. rewrite Et, Epl, Epa, Eti.
    split; [|split]; try assumption.
    intros Hp. split; [discriminate|auto].
  - rewrite (display_next_word_done U s Hge) in E. injection E as <-.
    destruct (after_done_fields s) as (Et & _ & Epl & Epa & _ & _ & Eti & _).
    unfold sched. rewrite Et, Epl, Epa, Eti.
    split; [|split]; try assumption.
    + discriminate.
    + intros [H|H]; [discriminate | apply H2; now right].
Qed.

Lemma resume_reading_eq (s : QuickReadApp) :
  resume_reading U s =
  display_next_word U
    (set_is_paused false
       (set_is_playing true
          (if current_index s >=? len (tokens s)
           then set_current_index 0 s else s))).
Proof. reflexivity. Qed.

Lemma sched_resume_reading (s s' : QuickReadApp) :
  tokens s <> [] -> (exists text, tokens s = tokenize_text text) ->
  resume_reading U s = Some s' -> sched s'.
Proof.
  intros Hne Ht E. rewrite resume_reading_eq in E.
  refine (sched_tick _ s' _ _ _ E).
  - intros _. reflexivity.
  - intros _. destruct (current_index s >=? len (tokens s)); exact Hne.
  - destruct (current_index s >=? len (tokens s)); exact Ht.
Qed.

Lemma sched_pause_reading (s : QuickReadApp) :
  tokens s <> [] -> (exists text, tokens s = tokenize_text text) ->
  sched (pause_reading s).
Proof.
  intros Hne Ht. split; [|split].
  - intros H. discriminate H.
  - intros _. exact Hne.
  - exact Ht.
Qed.

Lemma sched_stop_reading (s : QuickReadApp) : sched s -> sched (stop_reading s).
Proof.
  intros (_ & _ & Ht). split; [|split].
  - intros H. discriminate H.
  - intros [H|H]; discriminate H.
  - exact Ht.
Qed.

Lemma sched_show_input_view (s : QuickReadApp) :
  sched s -> sched (show_input_view s).
Proof.
  intros H. apply sched_stop_reading in H. unfold show_input_view.
  destruct (is_fullscreen (set_view 0 (stop_reading s))); exact H.
Qed.

Lemma toggle_play_pause_pause (s : QuickReadApp) :
  tokens s <> [] -> is_playing s = true ->
  toggle_play_pause U s = Some (pause_reading s).
Proof.
  intros Hne Ep. unfold toggle_play_pause. rewrite Ep.
  destruct (tokens s); [congruence|reflexivity].
Qed.

Lemma sched_toggle_play_pause (s s' : QuickReadApp) :
  sched s -> toggle_play_pause U s = Some s' -> sched s'.
Proof.
  intros H E. destruct (tokens_dec s) as [Hn|Hne].
  - unfold toggle_play_pause in E. rewrite Hn in E. now injection E as <-.
  - destruct (is_playing s) eqn:Ep.
    + rewrite (toggle_play_pause_pause s Hne Ep) in E. injection E as <-.
      apply sched_pause_reading; [assumption | apply H].
    + rewrite (toggle_play_pause_resume U s Hne Ep) in E.
      apply (sched_resume_reading s); [assumption | apply H | assumption].
Qed.

Lemma sched_on_escape (s : QuickReadApp) : sched s -> sched (on_escape s).
Proof.
  intros H. unfold on_escape. destruct (is_fullscreen s); [exact H|].
  destruct (is_playing s) eqn:Ep; [|exact H].
  apply sched_pause_reading; [|apply H].
  apply H. now left.
Qed.

Lemma seek_state_fields (position v : Z) (s : QuickReadApp) :
  let x := timer_stop (progress_bar_setValue v (set_current_index position s)) in
  tokens x = tokens s /\ is_playing x = is_playing s /\
  is_paused x = is_paused s /\ current_index x = position /\
  wpm x = wpm s /\ words_per_flash x = words_per_flash s /\
  orp_display x = orp_display s.
Proof.
  unfold progress_bar_setValue.
  destruct ((0 <=? v) && (v <=? 100)); repeat split; reflexivity.
Qed.

Lemma sched_seek_to (position : Z) (s s' : QuickReadApp) :
  inv s -> sched s -> tokens s <> [] -> 0 <= position <= len (tokens s) ->
  seek_to U position s = Some s' -> sched s'.
Proof.
  intros Hi Hs Hne Hp E.
  destruct (seek_to_eq U position s Hi Hne Hp) as (v & _ & E').
  rewrite E' in E. clear E'. cbv zeta in E.
  destruct (is_playing s) eqn:Epl.
  - destruct (seek_state_fields position v s) as (Et & Ep & Ea & _).
    refine (sched_tick _ s' _ _ _ E).
    + intros _. rewrite Ea. apply Hs. exact Epl.
    + intros _. rewrite Et. exact Hne.
    + rewrite Et. apply Hs.
  - injection E as <-.
    apply (sched_same_engine
             (progress_bar_setValue v (set_current_index position s)));
      [apply same_engine_show_current_word|].
    apply (sched_same_engine (set_current_index position s));
      [apply same_engine_progress|].
    apply (sched_same s); try reflexivity. exact Hs.
Qed.

Lemma seek_positions (s : QuickReadApp) :
  inv s -> tokens s <> [] ->
  0 <= Z.max 0 (current_index s - seek_amount s) < len (tokens s) /\
  0 <= Z.min (len (tokens s) - 1) (current_index s + seek_amount s)
    < len (tokens s).
Proof.
  intros Hi Hne. pose proof (seek_amount_pos s Hi) as Ha.
  apply len_pos in Hne. destruct Hi as (Hi & _). lia.
Qed.

Lemma sched_rewind (s s' : QuickReadApp) :
  inv s -> sched s -> rewind U s = Some s' -> sched s'.
Proof.
  intros Hi Hs E. destruct (tokens_dec s) as [Hn|Hne].
  - rewrite (rewind_empty U s Hn) in E. now injection E as <-.
  - rewrite (rewind_eq U s Hne) in E.
    refine (sched_seek_to _ s s' Hi Hs Hne _ E).
    destruct (seek_positions s Hi Hne) as [H _]. lia.
Qed.

Lemma sched_forward (s s' : QuickReadApp) :
  inv s -> sched s -> forward U s = Some s' -> sched s'.
Proof.
  intros Hi Hs E. destruct (tokens_dec s) as [Hn|Hne].
  - rewrite (forward_empty U s Hn) in E. now injection E as <-.
  - rewrite (forward_eq U s Hne) in E.
    refine (sched_seek_to _ s s' Hi Hs Hne _ E).
    destruct (seek_positions s Hi Hne) as [_ H]. lia.
Qed.

Lemma session_reset_sched_fields (s : QuickReadApp) :
  is_paused (session_reset s) = false /\
  timer (session_reset s) = timer s.
Proof. split; reflexivity. Qed.

Lemma sched_start_reading (s s' : QuickReadApp) :
  sched s -> start_reading U s = Some s' -> sched s'.
Proof.
  intros Hs E. destruct (strip (text_input s)) as [|c r] eqn:Es.
  - rewrite (start_reading_blank U s Es) in E. injection E as <-. exact Hs.
  - assert (Hne : strip (text_input s) <> []) by (rewrite Es; discriminate).
    apply (start_reading_text_inv U s s' Hne) in E.
    destruct (session_reset_fields s) as (Et & _).
    apply (sched_resume_reading (session_reset s)); [| |exact E].
    + rewrite Et. apply tokenize_text_nonempty. now rewrite strip_idem.
    + exists (strip (text_input s)). exact Et.
Qed.

Lemma sched_init : sched init.
Proof.
  split; [|split].
  - intros H. vm_compute in H. discriminate H.
  - intros [H|H]; vm_compute in H; discriminate H.
  - exists []. vm_compute. reflexivity.
Qed.

Lemma sched_step (s s' : QuickReadApp) :
  good s -> sched s -> step U s s' -> sched s'.
Proof.
  intros (Hi & _ & _) H Hstep. destruct Hstep as
    [s s' msec Ht E | s text s' E | s s' E | s s' E | s | s | s s' E | s s' E
    | s | s | s | s | s value s' Hv E | s value s' Hv E | s data s' Hd E
    | s value Hv].
  - apply (sched_tick s); [| |apply H|exact E].
    + intros Hp. now apply H.
    + apply H.
  - apply update_estimate_same in E. subst s'. exact H.
  - now apply (sched_start_reading s).
  - now apply (sched_toggle_play_pause s).
  - now apply sched_stop_reading.
  - now apply sched_show_input_view.
  - now apply (sched_rewind s).
  - now apply (sched_forward s).
  - now apply sched_on_escape.
  - exact H.
  - exact H.
  - exact H.
  - apply update_estimate_same in E. subst s'. exact H.
  - apply update_time_estimate_same in E. subst s'. exact H.
  - apply update_estimate_same in E. subst s'. exact H.
  - exact H.
Qed.

Lemma reachable_sched (s : QuickReadApp) : reachable U s -> sched s.
Proof.
  induction 1 as [|s s' Hr IH Hstep]; [apply sched_init|].
  apply (sched_step s); [now apply (reachable_good U) | assumption..].
Qed.

(** X11. In every reachable state the session is playing exactly when the
    timer is pending, it is never playing and paused at once, a session
    that is playing or paused has a stream, and the stream is the
    tokenization of some text. *)
Theorem reachable_schedule (s : QuickReadApp) :
  reachable U s ->
  (is_playing s = true <-> timer s <> None) /\
  (is_playing s = true -> is_paused s = false) /\
  (is_playing s = true \/ is_paused s = true -> tokens s <> []) /\
  (exists text, tokens s = tokenize_text text).
Proof.
  intros Hr. pose proof (reachable_good U s Hr) as (_ & Hd & _).
  destruct (reachable_sched s Hr) as (H1 & H2 & H3).
  split; [|split; [|split]].
  - split; [apply H1 | apply Hd].
  - apply H1.
  - exact H2.
  - exact H3.
Qed.

Lemma tokenize_text_words_ok (text : str) :
  Forall (fun t => word t <> []) (tokenize_text text).
Proof.
  rewrite tokenize_text_split. apply Forall_map.
  eapply Forall_impl; [|apply split_units].
  intros u (Hne & _). exact Hne.
Qed.

Lemma reachable_words_ok (s : QuickReadApp) : reachable U s -> words_ok s.
Proof.
  intros Hr. destruct (reachable_sched s Hr) as (_ & _ & text & E).
  unfold words_ok. rewrite E. apply tokenize_text_words_ok.
Qed.

Lemma start_reading_total (s : QuickReadApp) :
  inv s -> exists s', start_reading U s = Some s'.
Proof.
  intros Hi. destruct (strip (text_input s)) as [|c r] eqn:Es.
  - rewrite (start_reading_blank U s Es). eauto.
  - assert (Hw : words_per_flash s <> 0 /\ wpm s <> 0).
    { destruct Hi as (_ & Hw & Hf & _). unfold MIN_WPM in Hw. lia. }
    rewrite (start_reading_text U s); [|rewrite Es; discriminate|apply Hw..].
    apply resume_reading_total. now apply inv_session_reset.
Qed.

Lemma toggle_play_pause_total (s : QuickReadApp) :
  inv s -> exists s', toggle_play_pause U s = Some s'.
Proof.
  intros Hi. unfold toggle_play_pause.
  destruct (tokens s); [eauto|].
  destruct (is_playing s); [eauto|].
  now apply resume_reading_total.
Qed.

Lemma rewind_total (s : QuickReadApp) :
  inv s -> exists s', rewind U s = Some s'.
Proof.
  intros Hi. destruct (tokens_dec s) as [Hn|Hne].
  - rewrite (rewind_empty U s Hn). eauto.
  - rewrite (rewind_eq U s Hne). apply seek_to_total; [assumption..|].
    destruct (seek_positions s Hi Hne) as [H _]. lia.
Qed.

Lemma forward_total (s : QuickReadApp) :
  inv s -> exists s', forward U s = Some s'.
Proof.
  intros Hi. destruct (tokens_dec s) as [Hn|Hne].
  - rewrite (forward_empty U s Hn). eauto.
  - rewrite (forward_eq U s Hne). apply seek_to_total; [assumption..|].
    destruct (seek_positions s Hi Hne) as [_ H]. lia.
Qed.

(** X12. No handler raises in a reachable state: the tick, the start, the
    toggle and the two seeks return, and so do the handlers of the text
    box, of the two speed sliders for a value of their range and of the
    combo box for the data of one of its items.  None of the exceptions
    of the divisions, of [max] and of [int] occurs. *)
Theorem handlers_never_raise (s : QuickReadApp) :
  reachable U s ->
  (exists s', display_next_word U s = Some s') /\
  (exists s', start_reading U s = Some s') /\
  (exists s', toggle_play_pause U s = Some s') /\
  (exists s', rewind U s = Some s') /\
  (exists s', forward U s = Some s') /\
  (forall text, update_word_count (set_text_input text s) =
                Some (set_text_input text s)) /\
  (forall value, MIN_WPM <= value <= MAX_WPM ->
     on_wpm_changed value s = Some (set_wpm value s) /\
     on_reading_wpm_changed value s = Some (set_wpm value s)) /\
  (forall data, In data wpf_combo_items ->
     on_wpf_changed data s = Some (set_words_per_flash data s)).
Proof.
  intros Hr. pose proof (reachable_good U s Hr) as (Hi & _).
  assert (Hw : words_per_flash s <> 0 /\ wpm s <> 0).
  { destruct Hi as (_ & Hw & Hf & _). unfold MIN_WPM in Hw. lia. }
  split; [now apply display_next_word_total|].
  split; [now apply start_reading_total|].
  split; [now apply toggle_play_pause_total|].
  split; [now apply rewind_total|].
  split; [now apply forward_total|].
  split; [|split].
  - intros text. apply update_estimate_ok; apply Hw.
  - intros value Hv. unfold MIN_WPM in Hv. split.
    + apply update_estimate_ok; [apply Hw|]. cbn. lia.
    + apply update_time_estimate_ok; [apply Hw|]. cbn. lia.
  - intros data Hd. apply wpf_combo_items_range in Hd.
    apply update_estimate_ok; [|apply Hw]. cbn. lia.
Qed.

End SchedulerProperties.

(** * Runs of ticks *)

Section TickProperties.

Variable U : char -> bool.

Lemma inv_after_flash (v msec : Z) (s : QuickReadApp) :
  inv s -> inv (after_flash U v msec s).
Proof.
  intros (Hi & Hw & Hf & Hp).
  destruct (after_flash_fields U v msec s) as (Et & Ei & _ & _ & Ew & Ef & _).
  unfold inv. rewrite Et, Ei, Ew, Ef.
  repeat split; try assumption; try apply Hw; try apply Hf; lia.
Qed.

Lemma tick_cases (s : QuickReadApp) :
  inv s ->
  (current_index s < len (tokens s) /\
   exists v msec, display_next_word U s = Some (after_flash U v msec s)) \/
  (current_index s = len (tokens s) /\
   display_next_word U s = Some (after_done s)).
Proof.
  intros Hi.
  destruct (Z_lt_le_dec (current_index s) (len (tokens s))) as [Hlt|Hge].
  - left. split; [assumption|].
    destruct (display_next_word_flash U s Hi Hlt) as (v & m & d & msec & H).
    exists v, msec. apply H.
  - right. destruct Hi as (Hi & _). split; [lia|].
    now apply display_next_word_done.
Qed.

Lemma ticks_S (n : nat) (s : QuickReadApp) :
  ticks U (S n) s = (s' <- display_next_word U s ;; ticks U n s').
Proof. reflexivity. Qed.

Lemma min_step (i w l : Z) (n : nat) :
  0 <= i <= l -> 1 <= w ->
  Z.min (Z.min (i + w) l + Z.of_nat n * w) l =
  Z.min (i + Z.of_nat (S n) * w) l.
Proof.
  intros Hi Hw. rewrite Nat2Z.inj_succ.
  replace (Z.succ (Z.of_nat n) * w) with (Z.of_nat n * w + w) by ring.
  assert (0 <= Z.of_nat n * w) by nia. lia.
Qed.

Lemma min_stay (w l : Z) (n : nat) :
  1 <= w -> Z.min (l + Z.of_nat n * w) l = l.
Proof. intros Hw. assert (0 <= Z.of_nat n * w) by nia. lia. Qed.

Lemma ticks_total (n : nat) :
  forall s, inv s ->
  exists s', ticks U n s = Some s' /\ inv s' /\ tokens s' = tokens s /\
             words_per_flash s' = words_per_flash s /\ wpm s' = wpm s /\
             current_index s' =
             Z.min (current_index s + Z.of_nat n * words_per_flash s)
                   (len (tokens s)).
Proof.
  induction n as [|n IH]; intros s Hi.
  - exists s. destruct Hi as (Hr & Hrest).
    repeat split; try assumption; try apply Hr; try apply Hrest.
    simpl. lia.
  - rewrite ticks_S.
    assert (Hf : 1 <= words_per_flash s) by apply Hi.
    assert (Hr : 0 <= current_index s <= len (tokens s)) by apply Hi.
    destruct (tick_cases s Hi) as [(Hlt & v & msec & E)|(Heq & E)];
      rewrite E; cbv beta iota delta [bind].
    + destruct (IH _ (inv_after_flash v msec s Hi))
        as (s' & Es' & Hi' & Et' & Ef' & Ew' & Ei').
      destruct (after_flash_fields U v msec s)
        as (Et & Ei & _ & _ & Ew & Ef & _).
      exists s'. rewrite Es', Et', Ef', Ew', Ei', Et, Ei, Ew, Ef.
      split; [reflexivity|]. split; [exact Hi'|].
      split; [reflexivity|]. split; [reflexivity|]. split; [reflexivity|].
      now apply min_step.
    + assert (Hd : inv (after_done s)) by now apply good_after_done.
      destruct (IH _ Hd) as (s' & Es' & Hi' & Et' & Ef' & Ew' & Ei').
      destruct (after_done_fields s) as (Et & Ei & _ & _ & Ew & Ef & _).
      exists s'. rewrite Es', Et', Ef', Ew', Ei', Et, Ei, Ew, Ef.
      split; [reflexivity|]. split; [exact Hi'|].
      split; [reflexivity|]. split; [reflexivity|]. split; [reflexivity|].
      rewrite Heq, !min_stay by assumption. reflexivity.
Qed.

(** X13. From a state that keeps the invariant, any number of ticks in a
    row returns; they leave the stream, the speed and the batch width as
    they are, and [n] of them move the position by [n] batches, up to the
    end of the stream. *)
Theorem ticks_position (n : nat) (s : QuickReadApp) :
  inv s ->
  exists s',
    ticks U n s = Some s' /\ tokens s' = tokens s /\
    words_per_flash s' = words_per_flash s /\ wpm s' = wpm s /\
    current_index s' =
    Z.min (current_index s + Z.of_nat n * words_per_flash s)
          (len (tokens s)).
Proof.
  intros Hi. destruct (ticks_total n s Hi) as (s' & E & _ & H).
  exists s'. split; [exact E | exact H].
Qed.

Lemma compose_single (w : str) : compose U [w] = split_at_orp U w.
Proof.
  unfold compose. cbv zeta.
  change (length [w] / 2)%nat with 0%nat.
  cbn [nth firstn skipn Nat.add join].
  destruct (split_at_orp U w) as [[l focus] r].
  unfold sep_join. destruct r; reflexivity.
Qed.

Lemma show_words_display (ws : list str) (s : QuickReadApp) :
  ws <> [] -> Forall (fun w => w <> []) ws ->
  labels (orp_display (show_words U ws s)) = compose U ws /\
  orp_style (orp_display (show_words U ws s)) = orp_style (orp_display s).
Proof.
  intros Hne Hall. destruct ws as [|w [|w2 r]]; [congruence| |].
  - change (orp_display (show_words U [w] s))
      with (display_word U w (orp_display s)).
    rewrite display_word_labels, compose_single. split; [reflexivity|].
    inversion Hall as [|? ? Hw _]. destruct w; [congruence|reflexivity].
  - change (orp_display (show_words U (w :: w2 :: r) s))
      with (display_phrase U (w :: w2 :: r) (orp_display s)).
    split; [|reflexivity].
    apply display_phrase_labels; [simpl; lia | assumption].
Qed.

Lemma after_flash_display (v msec : Z) (s : QuickReadApp) :
  orp_display (after_flash U v msec s) =
  orp_display (show_words U (batch s (current_index s)) s).
Proof.
  unfold after_flash, progress_bar_setValue.
  destruct ((0 <=? v) && (v <=? 100)); reflexivity.
Qed.

Lemma batch_ok (s : QuickReadApp) :
  inv s -> words_ok s -> current_index s < len (tokens s) ->
  batch s (current_index s) <> [] /\
  Forall (fun w => w <> []) (batch s (current_index s)).
Proof.
  intros (Hi & _ & Hf & _) Hw Hlt. split.
  - intros E. apply map_eq_nil in E.
    pose proof (flash_tokens_length s) as Hl.
    unfold flash_tokens in Hl. rewrite E in Hl.
    specialize (Hl ltac:(lia) ltac:(lia) ltac:(lia)).
    change (len (@nil token)) with 0 in Hl. lia.
  - apply Forall_forall. intros w Hin. unfold batch in Hin.
    apply in_map_iff in Hin. destruct Hin as (t & <- & Hin).
    apply py_slice_incl in Hin.
    unfold words_ok in Hw. rewrite Forall_forall in Hw. now apply Hw.
Qed.

Lemma batch_same (s s' : QuickReadApp) (position : Z) :
  tokens s' = tokens s -> words_per_flash s' = words_per_flash s ->
  batch s' position = batch s position.
Proof. intros Et Ef. unfold batch. now rewrite Et, Ef. Qed.

(** What one tick inside the stream leaves. *)
Lemma tick_flash (s s' : QuickReadApp) :
  inv s -> words_ok s -> current_index s < len (tokens s) ->
  display_next_word U s = Some s' ->
  inv s' /\ words_ok s' /\ tokens s' = tokens s /\
  words_per_flash s' = words_per_flash s /\
  current_index s' =
    Z.min (current_index s + words_per_flash s) (len (tokens s)) /\
  labels (orp_display s') = compose U (batch s (current_index s)) /\
  orp_style (orp_display s') = orp_style (orp_display s) /\
  timer s' <> None /\ is_playing s' = is_playing s /\
  is_paused s' = is_paused s.
Proof.
  intros Hi Hw Hlt E.
  destruct (display_next_word_flash_inv U s s' Hlt E) as (v & msec & ->).
  destruct (after_flash_fields U v msec s)
    as (Et & Ei & Epl & Epa & _ & Ef & Eti).
  destruct (batch_ok s Hi Hw Hlt) as (Hb1 & Hb2).
  destruct (show_words_display _ s Hb1 Hb2) as (Hl & Hs).
  rewrite after_flash_display, Hl, Hs, Eti.
  split; [now apply inv_after_flash|].
  split; [unfold words_ok; now rewrite Et|].
  repeat split; try assumption. discriminate.
Qed.

Lemma ticks_flash (k : nat) :
  forall s s', inv s -> words_ok s ->
  current_index s + Z.of_nat k * words_per_flash s < len (tokens s) ->
  ticks U (S k) s = Some s' ->
  tokens s' = tokens s /\
  current_index s' =
    Z.min (current_index s + Z.of_nat (S k) * words_per_flash s)
          (len (tokens s)) /\
  labels (orp_display s') =
    compose U (batch s (current_index s + Z.of_nat k * words_per_flash s)) /\
  orp_style (orp_display s') = orp_style (orp_display s) /\
  timer s' <> None /\ is_playing s' = is_playing s /\
  is_paused s' = is_paused s.
Proof.
  induction k as [|k IH]; intros s s' Hi Hw Hlt E.
  - rewrite ticks_S in E. simpl Z.of_nat in *.
    rewrite Z.mul_0_l, Z.add_0_r in *. rewrite Z.mul_1_l.
    destruct (display_next_word U s) as [s1|] eqn:E1; [|discriminate E].
    cbv beta iota delta [bind ticks] in E. injection E as <-.
    destruct (tick_flash s s1 Hi Hw Hlt E1) as (_ & _ & H1 & _ & H2 & H3).
    split; [exact H1|]. split; [exact H2|]. exact H3.
  - rewrite ticks_S in E.
    assert (Hf : 1 <= words_per_flash s) by apply Hi.
    assert (Hlt0 : current_index s < len (tokens s)) by nia.
    destruct (display_next_word U s) as [s1|] eqn:E1; [|discriminate E].
    cbv beta iota delta [bind] in E.
    destruct (tick_flash s s1 Hi Hw Hlt0 E1)
      as (Hi1 & Hw1 & Et1 & Ef1 & Ei1 & _ & Hs1 & _ & Epl1 & Epa1).
    assert (Ei1' : current_index s1 = current_index s + words_per_flash s)
      by (rewrite Ei1; nia).
    assert (Hlt1 : current_index s1 + Z.of_nat k * words_per_flash s1
                   < len (tokens s1)).
    { rewrite Et1, Ef1, Ei1'. nia. }
    destruct (IH s1 s' Hi1 Hw1 Hlt1 E)
      as (Et & Ei & Hl & Hs & Hti & Epl & Epa).
    rewrite Et, Ei, Hl, Hs, Epl, Epa, Et1, Ef1, Ei1', Hs1, Epl1, Epa1.
    rewrite (batch_same s s1 _ Et1 Ef1).
    repeat split; try assumption.
    + f_equal. nia.
    + do 2 f_equal. nia.
Qed.

(** X14. In a stream without an empty word, the tick number [k + 1] of a
    run that is still inside the stream shows the batch at [k] batch
    widths from the start, laid out around the ORP of its middle word; it
    leaves the colour of the ORP label, the playing and paused flags as
    they were, the timer pending, and the position one batch further. *)
Theorem ticks_show_batches (k : nat) (s s' : QuickReadApp) :
  inv s -> words_ok s ->
  current_index s + Z.of_nat k * words_per_flash s < len (tokens s) ->
  ticks U (S k) s = Some s' ->
  labels (orp_display s') =
    compose U (batch s (current_index s + Z.of_nat k * words_per_flash s)) /\
  orp_style (orp_display s') = orp_style (orp_display s) /\
  current_index s' =
    Z.min (current_index s + Z.of_nat (S k) * words_per_flash s)
          (len (tokens s)) /\
  timer s' <> None /\ is_playing s' = is_playing s /\
  is_paused s' = is_paused s.
Proof.
  intros Hi Hw Hlt E.
  destruct (ticks_flash k s s' Hi Hw Hlt E)
    as (_ & Ei & Hl & Hs & Hti & Epl & Epa).
  repeat split; assumption.
Qed.

Lemma ticks_done (n : nat) :
  forall s s', inv s ->
  len (tokens s) <= current_index s + Z.of_nat n * words_per_flash s ->
  ticks U (S n) s = Some s' ->
  labels (orp_display s') = ([], DONE_MESSAGE, []) /\
  orp_style (orp_display s') = MessageCyan /\
  progress_bar s' = 100 /\ timer s' = None /\ is_playing s' = false /\
  current_index s' = len (tokens s) /\ tokens s' = tokens s.
Proof.
  induction n as [|n IH]; intros s s' Hi Hle E.
  - rewrite ticks_S in E. simpl Z.of_nat in Hle.
    destruct (tick_cases s Hi) as [(Hlt & _)|(Heq & E1)]; [lia|].
    rewrite E1 in E. cbv beta iota delta [bind ticks] in E. injection E as <-.
    destruct (after_done_fields s) as (Et & Ei & Epl & _ & _ & _ & Eti & Ed & Eb).
    rewrite Ed, Et, Ei, Epl, Eti, Eb. repeat split. exact Heq.
  - rewrite ticks_S in E.
    assert (Hf : 1 <= words_per_flash s) by apply Hi.
    assert (Hr : 0 <= current_index s <= len (tokens s)) by apply Hi.
    destruct (tick_cases s Hi) as [(Hlt & v & msec & E1)|(Heq & E1)];
      rewrite E1 in E; cbv beta iota delta [bind] in E.
    + destruct (after_flash_fields U v msec s)
        as (Et & Ei & _ & _ & _ & Ef & _).
      destruct (IH _ s' (inv_after_flash v msec s Hi)) as (H1 & H2 & H3 & H4 & H5 & H6 & H7);
        [rewrite Et, Ei, Ef; nia | exact E |].
      rewrite H6, H7, Et. repeat split; assumption.
    + destruct (after_done_fields s) as (Et & Ei & _ & _ & _ & Ef & _).
      assert (Hd : inv (after_done s)) by now apply good_after_done.
      destruct (IH _ s' Hd) as (H1 & H2 & H3 & H4 & H5 & H6 & H7);
        [rewrite Et, Ei, Ef; nia | exact E |].
      rewrite H6, H7, Et. repeat split; assumption.
Qed.

(** X15. A run of ticks ends the session: once [n] batches from the
    position reach the end of the stream, the tick number [n + 1] shows
    the completion message in the message colour, fills the progress bar,
    leaves no timer pending and the session not playing, at the end of the
    stream. *)
Theorem ticks_finish (n : nat) (s s' : QuickReadApp) :
  inv s ->
  len (tokens s) <= current_index s + Z.of_nat n * words_per_flash s ->
  ticks U (S n) s = Some s' ->
  labels (orp_display s') = ([], DONE_MESSAGE, []) /\
  orp_style (orp_display s') = MessageCyan /\
  progress_bar s' = 100 /\ timer s' = None /\ is_playing s' = false /\
  current_index s' = len (tokens s).
Proof.
  intros Hi Hle E.
  destruct (ticks_done n s s' Hi Hle E) as (H1 & H2 & H3 & H4 & H5 & H6 & _).
  repeat split; assumption.
Qed.

End TickProperties.

(** * Batches, pauses, restarts and seeks *)

Lemma firstn_plus (A : Type) (x y : nat) :
  forall m : list A, firstn x m ++ firstn y (skipn x m) = firstn (x + y) m.
Proof.
  induction x as [|x IH]; intros m; [reflexivity|].
  destruct m as [|a m]; [simpl; now rewrite firstn_nil|].
  simpl. now rewrite IH.
Qed.

Lemma py_slice_app (A : Type) (l : list A) (i j k : Z) :
  0 <= i <= j -> j <= k ->
  py_slice l i (Z.min j (len l)) ++ py_slice l j (Z.min k (len l)) =
  py_slice l i (Z.min k (len l)).
Proof.
  intros Hij Hjk. pose proof (len_nonneg _ l) as Hl.
  unfold py_slice, slice_bound.
  destruct (Z.ltb_spec i 0); [lia|]. destruct (Z.ltb_spec j 0); [lia|].
  destruct (Z.ltb_spec (Z.min j (len l)) 0); [lia|].
  destruct (Z.ltb_spec (Z.min k (len l)) 0); [lia|].
  replace (Z.min (Z.min j (len l)) (len l)) with (Z.min j (len l)) by lia.
  replace (Z.min (Z.min k (len l)) (len l)) with (Z.min k (len l)) by lia.
  set (a := Z.min i (len l)). set (b := Z.min j (len l)).
  set (c := Z.min k (len l)).
  replace (Z.to_nat b) with (Z.to_nat (b - a) + Z.to_nat a)%nat by lia.
  rewrite <- skipn_skipn, firstn_plus. f_equal. lia.
Qed.

(** The batches of [n] consecutive flashes from a position, concatenated,
    are the words of the stream from that position to [n] batch widths
    further, cut at the end of the stream. *)
Lemma batches_concat (s : QuickReadApp) (n : nat) :
  forall position,
  0 <= position -> 1 <= words_per_flash s ->
  concat (batches s position n) =
  map word
    (py_slice (tokens s) position
       (Z.min (position + Z.of_nat n * words_per_flash s) (len (tokens s)))).
Proof.
  induction n as [|n IH]; intros position Hp Hf.
  - simpl. pose proof (len_nonneg _ (tokens s)) as Hl.
    unfold py_slice, slice_bound.
    destruct (Z.ltb_spec position 0); [lia|].
    destruct (Z.ltb_spec (Z.min (position + 0) (len (tokens s))) 0); [lia|].
    replace (Z.to_nat _) with 0%nat by lia. reflexivity.
  - cbn [batches concat]. rewrite IH by lia. unfold batch.
    rewrite <- map_app. f_equal.
    replace (position + Z.of_nat (S n) * words_per_flash s)
      with (position + words_per_flash s + Z.of_nat n * words_per_flash s)
      by lia.
    apply py_slice_app; [lia|]. assert (0 <= Z.of_nat n * words_per_flash s) by nia.
    lia.
Qed.

Section SessionProperties.

Variable U : char -> bool.

Lemma batches_same (s s' : QuickReadApp) (n : nat) :
  tokens s' = tokens s -> words_per_flash s' = words_per_flash s ->
  forall position, batches s' position n = batches s position n.
Proof.
  intros Et Ef. induction n as [|n IH]; intros position; [reflexivity|].
  cbn [batches]. now rewrite IH, Ef, (batch_same s s' position Et Ef).
Qed.

Lemma flashes_batches (n : nat) :
  forall s, inv s -> words_ok s ->
  current_index s + Z.of_nat n * words_per_flash s
    < len (tokens s) + words_per_flash s ->
  flashes U n s = map (compose U) (batches s (current_index s) n).
Proof.
  induction n as [|n IH]; intros s Hi Hw Hlt; [reflexivity|].
  assert (Hf : 1 <= words_per_flash s) by apply Hi.
  assert (Hn : 0 <= Z.of_nat n * words_per_flash s) by nia.
  assert (Hlt0 : current_index s < len (tokens s)) by lia.
  destruct (display_next_word_total U s Hi) as (s1 & E1).
  cbn [flashes batches map]. rewrite E1.
  destruct (tick_flash U s s1 Hi Hw Hlt0 E1)
    as (Hi1 & Hw1 & Et1 & Ef1 & Ei1 & Hl & _).
  rewrite Hl. f_equal.
  destruct n as [|n]; [reflexivity|].
  assert (Ei1' : current_index s1 = current_index s + words_per_flash s).
  { rewrite Ei1. rewrite Nat2Z.inj_succ in Hlt, Hn. nia. }
  rewrite IH; [|assumption|assumption|].
  - now rewrite (batches_same s s1 (S n) Et1 Ef1), Ei1'.
  - rewrite Et1, Ef1, Ei1'. lia.
Qed.

(** X16. A run of [n] ticks inside a stream without an empty word puts on
    display, tick after tick, the layouts of [n] consecutive batches.
    These batches, concatenated, are the words of the stream from the
    starting position to the position the run ends at, and the position
    moves by their number: the ticks neither skip nor repeat a word. *)
Theorem ticks_emit_batches (n : nat) (s : QuickReadApp) :
  inv s -> words_ok s ->
  current_index s + Z.of_nat n * words_per_flash s
    < len (tokens s) + words_per_flash s ->
  exists s',
    ticks U n s = Some s' /\
    flashes U n s = map (compose U) (batches s (current_index s) n) /\
    concat (batches s (current_index s) n) =
      map word (py_slice (tokens s) (current_index s) (current_index s')) /\
    current_index s' =
      current_index s + len (concat (batches s (current_index s) n)).
Proof.
  intros Hi Hw Hlt.
  destruct (ticks_total U n s Hi) as (s' & E & _ & _ & _ & _ & Ei).
  pose proof Hi as ((Hr0 & Hr1) & _ & (Hf & _) & _).
  pose proof (batches_concat s n (current_index s) Hr0 Hf) as Hc.
  rewrite <- Ei in Hc.
  exists s'. split; [exact E|].
  split; [now apply flashes_batches|]. split; [exact Hc|].
  rewrite Hc. unfold len at 1. rewrite length_map. fold (len (py_slice (tokens s) (current_index s) (current_index s'))).
  assert (Hn : 0 <= Z.of_nat n * words_per_flash s) by nia.
  rewrite py_slice_length; lia.
Qed.

Lemma after_flash_timer (v msec : Z) (t : option Z) (s : QuickReadApp) :
  after_flash U v msec (set_timer t s) = after_flash U v msec s.
Proof.
  unfold after_flash.
  change (flash_tokens (set_timer t s)) with (flash_tokens s).
  generalize (map word (flash_tokens s)). intros ws.
  destruct s. unfold progress_bar_setValue.
  destruct ((0 <=? v) && (v <=? 100)); destruct ws as [|w [|w2 r]];
    reflexivity.
Qed.

Lemma display_next_word_timer (t : option Z) (s : QuickReadApp) :
  inv s -> current_index s < len (tokens s) ->
  display_next_word U (set_timer t s) = display_next_word U s.
Proof.
  intros Hi Hlt.
  destruct (display_next_word_flash U s Hi Hlt)
    as (v & m & d & msec & Hv & Hm & _ & _ & Hd & Hms & E).
  destruct (display_next_word_flash U (set_timer t s) Hi Hlt)
    as (v' & m' & d' & msec' & Hv' & Hm' & _ & _ & Hd' & Hms' & E').
  change (flash_tokens (set_timer t s)) with (flash_tokens s) in Hm'.
  cbn [current_index words_per_flash tokens wpm set_timer] in Hv', Hd'.
  assert (v' = v) by congruence. assert (m' = m) by congruence. subst v' m'.
  assert (d' = d) by congruence. subst d'.
  assert (msec' = msec) by congruence. subst msec'.
  rewrite E', E, after_flash_timer. reflexivity.
Qed.

Lemma resume_after_pause (s : QuickReadApp) :
  is_playing s = true -> is_paused s = false ->
  set_is_paused false (set_is_playing true (pause_reading s)) = timer_stop s.
Proof.
  destruct s. cbn [is_playing is_paused]. intros -> ->. reflexivity.
Qed.

(** X17. Pausing a session that plays inside the stream and resuming it
    is one tick: the flash that was on display when the session was
    paused is not shown again, the session goes on with the next one. *)
Theorem pause_resume_is_tick (s : QuickReadApp) :
  inv s -> is_playing s = true -> is_paused s = false ->
  current_index s < len (tokens s) ->
  toggle_play_pause U s = Some (pause_reading s) /\
  toggle_play_pause U (pause_reading s) = display_next_word U s /\
  exists s', display_next_word U s = Some s' /\
             current_index s' =
             Z.min (current_index s + words_per_flash s) (len (tokens s)) /\
             is_playing s' = true /\ is_paused s' = false /\
             timer s' <> None.
Proof.
  intros Hi Epl Epa Hlt.
  assert (Hne : tokens s <> []).
  { intros E. rewrite E in Hlt. change (len (@nil token)) with 0 in Hlt.
    destruct Hi as (Hi & _). lia. }
  split; [now apply toggle_play_pause_pause|]. split.
  - rewrite (toggle_play_pause_resume U (pause_reading s)); [|exact Hne|reflexivity].
    rewrite (resume_reading_inside U (pause_reading s)) by exact Hlt.
    rewrite (resume_after_pause s Epl Epa).
    now apply display_next_word_timer.
  - destruct (display_next_word_flash U s Hi Hlt)
      as (v & m & d & msec & _ & _ & _ & _ & _ & _ & E).
    exists (after_flash U v msec s). split; [exact E|].
    destruct (after_flash_fields U v msec s)
      as (_ & Ei & Epl' & Epa' & _ & _ & Eti).
    rewrite Ei, Epl', Epa', Eti, Epl, Epa.
    repeat split. discriminate.
Qed.




Lemma seek_state2_fields (position v : Z) (s : QuickReadApp) :
  let x := progress_bar_setValue v (set_current_index position s) in
  tokens x = tokens s /\ is_playing x = is_playing s /\
  is_paused x = is_paused s /\ current_index x = position /\
  wpm x = wpm s /\ words_per_flash x = words_per_flash s /\
  orp_display x = orp_display s /\ timer x = timer s.
Proof.
  unfold progress_bar_setValue.
  destruct ((0 <=? v) && (v <=? 100)); repeat split; reflexivity.
Qed.

Lemma show_current_word_inside (s : QuickReadApp) :
  current_index s < len (tokens s) ->
  show_current_word U s = show_words U (batch s (current_index s)) s.
Proof.
  intros Hlt. unfold show_current_word.
  destruct (Z.geb_spec (current_index s) (len (tokens s))); [lia|reflexivity].
Qed.

Lemma seek_to_shows (position : Z) (s : QuickReadApp) :
  inv s -> words_ok s -> 0 <= position < len (tokens s) ->
  exists s', seek_to U position s = Some s' /\ seeked U s position s'.
Proof.
  intros Hi Hw Hp.
  assert (Hne : tokens s <> []).
  { intros E. rewrite E in Hp. change (len (@nil token)) with 0 in Hp. lia. }
  destruct (seek_to_eq U position s Hi Hne) as (v & _ & E); [lia|].
  rewrite E. clear E. cbv zeta.
  set (s2 := progress_bar_setValue v (set_current_index position s)).
  destruct (seek_state2_fields position v s)
    as (Et & Epl & Epa & Ei & Em & Ef & Ed & Eti).
  fold s2 in Et, Epl, Epa, Ei, Em, Ef, Ed, Eti.
  assert (Hi2 : inv s2) by (apply inv_seek_state; [assumption|lia]).
  destruct (is_playing s) eqn:Eplay.
  - set (x := timer_stop s2).
    assert (Hix : inv x) by exact Hi2.
    assert (Hwx : words_ok x) by (unfold words_ok, x; cbn [tokens timer_stop set_timer]; now rewrite Et).
    assert (Etx : tokens x = tokens s) by exact Et.
    assert (Eix : current_index x = position) by exact Ei.
    assert (Efx : words_per_flash x = words_per_flash s) by exact Ef.
    assert (Hltx : current_index x < len (tokens x))
      by (rewrite Etx, Eix; lia).
    destruct (display_next_word_total U x Hix) as (s' & E).
    exists s'. split; [exact E|]. unfold seeked.
    destruct (tick_flash U x s' Hix Hwx Hltx E)
      as (_ & _ & Et' & _ & Ei' & Hl & Hs & Hti & Epl' & Epa').
    rewrite Et', Ei', Hl, Hs, Epl', Epa', Eix, Efx, Etx.
    rewrite (batch_same s x position Etx Efx).
    change (orp_display x) with (orp_display s2). rewrite Ed.
    change (is_paused x) with (is_paused s2). rewrite Epa.
    change (is_playing x) with (is_playing s2). rewrite Epl, Eplay.
    repeat split; intros; try assumption; try reflexivity; discriminate.
  - exists (show_current_word U s2). split; [reflexivity|]. unfold seeked.
    destruct (same_engine_show_current_word U s2)
      as (Et' & Ei' & Epl' & Epa' & _ & _ & Eti').
    assert (Hlt2 : current_index s2 < len (tokens s2)) by (rewrite Et, Ei; lia).
    assert (Hw2 : words_ok s2) by (unfold words_ok; now rewrite Et).
    destruct (batch_ok s2 Hi2 Hw2 Hlt2) as (Hb1 & Hb2).
    destruct (show_words_display U _ s2 Hb1 Hb2) as (Hl & Hs).
    rewrite Et', Ei', Epl', Epa', Eti'.
    rewrite (show_current_word_inside s2 Hlt2), Hl, Hs.
    rewrite Et, Ei, Epl, Epa, Eti, Ed, (batch_same s s2 position Et Ef).
    rewrite Eplay.
    repeat split; intros; try assumption; try reflexivity; discriminate.
Qed.

(** X19. In a stream without an empty word, [rewind] and [forward] go to
    the position cut to the stream, [seek_amount] before or after the
    current one, and show the batch there.  While not playing they stay at
    that position and leave the timer alone; while playing they emit the
    batch at once: the position is one batch further and the timer is
    pending again.  The playing and paused flags and the colour of the ORP
    label are left as they are. *)
Theorem seek_shows_target (s : QuickReadApp) :
  inv s -> words_ok s -> tokens s <> [] ->
  let back := Z.max 0 (current_index s - seek_amount s) in
  let ahead := Z.min (len (tokens s) - 1) (current_index s + seek_amount s) in
  0 <= back < len (tokens s) /\ 0 <= ahead < len (tokens s) /\
  (exists s', rewind U s = Some s' /\ seeked U s back s') /\
  (exists s', forward U s = Some s' /\ seeked U s ahead s').
Proof.
  intros Hi Hw Hne back ahead.
  destruct (seek_positions s Hi Hne) as (Hb & Ha).
  split; [exact Hb|]. split; [exact Ha|]. split.
  - rewrite (rewind_eq U s Hne). now apply seek_to_shows.
  - rewrite (forward_eq U s Hne). now apply seek_to_shows.
Qed.

End SessionProperties.

(** X20. Escape leaves fullscreen before it pauses: one press of a
    fullscreen session leaves the session as it plays; two presses always
    end out of fullscreen and not playing, and a third changes nothing.
    Escape never moves the position nor changes the stream. *)
Theorem escape_settles (s : QuickReadApp) :
  let s1 := on_escape s in
  let s2 := on_escape s1 in
  (is_fullscreen s = true ->
   is_fullscreen s1 = false /\ is_playing s1 = is_playing s /\
   timer s1 = timer s) /\
  is_fullscreen s2 = false /\ is_playing s2 = false /\
  on_escape s2 = s2 /\
  tokens s2 = tokens s /\ current_index s2 = current_index s /\
  (is_playing s = true -> timer s2 = None /\ is_paused s2 = true).
Proof.
  destruct s as [tk ci pl pa w f fs ti od pb tx vw wr].
  destruct fs, pl; cbv zeta; repeat split; intros; try reflexivity;
    try discriminate.
Qed.

(** X21. Going back to the input view stops the session whatever its
    state: no timer, not playing, not paused, position 0, an empty display
    in the highlight colour, an empty progress bar, the input view on
    screen and out of fullscreen; the stream and the text are kept, and
    going back twice is going back once. *)
Theorem show_input_view_resets (s : QuickReadApp) :
  let s' := show_input_view s in
  timer s' = None /\ is_playing s' = false /\ is_paused s' = false /\
  current_index s' = 0 /\ progress_bar s' = 0 /\ view s' = 0 /\
  is_fullscreen s' = false /\
  orp_display s' = clear (orp_display s) /\
  tokens s' = tokens s /\ text_input s' = text_input s /\
  wpm s' = wpm s /\ words_per_flash s' = words_per_flash s /\
  show_input_view s' = s'.
Proof.
  destruct s as [tk ci pl pa w f fs ti od pb tx vw wr].
  destruct fs; cbv zeta; repeat apply conj; vm_compute; reflexivity.
Qed.

(** * The progress bar *)

Section ProgressProperties.

Variable U : char -> bool.

Lemma bar_shows_same (s s' : QuickReadApp) :
  tokens s' = tokens s -> current_index s' = current_index s ->
  progress_bar s' = progress_bar s -> bar_shows s -> bar_shows s'.
Proof. intros Et Ei Eb. unfold bar_shows. now rewrite Et, Ei, Eb. Qed.

Lemma progress_bar_setValue_eq (v : Z) (s : QuickReadApp) :
  0 <= v <= 100 -> progress_bar (progress_bar_setValue v s) = v.
Proof.
  intros Hv. unfold progress_bar_setValue.
  destruct (Z.leb_spec 0 v); [|lia]. destruct (Z.leb_spec v 100); [|lia].
  reflexivity.
Qed.

(** A tick on a stream leaves the bar at the percentage of the position it
    leaves. *)
Lemma bar_tick (s s' : QuickReadApp) :
  inv s -> tokens s <> [] -> display_next_word U s = Some s' -> bar_shows s'.
Proof.
  intros Hi Hne E Hne' Hlen'.
  pose proof Hi as (Hr & _ & Hf & _).
  pose proof (len_pos _ _ Hne) as Hl.
  destruct (Z_lt_le_dec (current_index s) (len (tokens s))) as [Hlt|Hge].
  - destruct (display_next_word_flash U s Hi Hlt)
      as (v & m & d & msec & Ev & _ & _ & _ & _ & _ & E').
    rewrite E' in E. injection E as <-.
    destruct (after_flash_fields U v msec s) as (Et & Ei & _).
    rewrite Et in Hlen' |- *. rewrite Ei.
    destruct (progress_percent_spec
                (Z.min (current_index s + words_per_flash s) (len (tokens s)))
                (len (tokens s)))
      as (q & v' & _ & _ & Ev' & _ & Hv & _); [lia|lia|].
    assert (v' = v) by congruence. subst v'.
    rewrite (progress_bar_after_flash U v msec s Hv). exact Ev.
  - rewrite (display_next_word_done U s Hge) in E. injection E as <-.
    destruct (after_done_fields s) as (Et & Ei & _ & _ & _ & _ & _ & _ & Eb).
    rewrite Et, Ei, Eb. replace (current_index s) with (len (tokens s)) by lia.
    apply progress_percent_end. lia.
Qed.

Lemma inv_resume_state (s : QuickReadApp) :
  inv s ->
  inv (set_is_paused false
         (set_is_playing true
            (if current_index s >=? len (tokens s)
             then set_current_index 0 s else s))).
Proof.
  intros (Hi & Hw & Hf & Hp).
  destruct (current_index s >=? len (tokens s)).
  - unfold inv. cbn. pose proof (len_nonneg _ (tokens s)).
    split; [lia|]. split; [exact Hw|]. split; [exact Hf|exact Hp].
  - unfold inv. cbn.
    split; [exact Hi|]. split; [exact Hw|]. split; [exact Hf|exact Hp].
Qed.

Lemma bar_resume_reading (s s' : QuickReadApp) :
  inv s -> tokens s <> [] -> resume_reading U s = Some s' -> bar_shows s'.
Proof.
  intros Hi Hne E. rewrite resume_reading_eq in E.
  refine (bar_tick _ s' (inv_resume_state s Hi) _ E).
  destruct (current_index s >=? len (tokens s)); exact Hne.
Qed.

Lemma bar_stop_reading (s : QuickReadApp) : bar_shows (stop_reading s).
Proof.
  intros Hne _. change (progress_bar (stop_reading s)) with 0.
  change (current_index (stop_reading s)) with 0.
  apply progress_percent_start.
  change (tokens (stop_reading s)) with (tokens s) in *.
  apply len_pos in Hne. lia.
Qed.

Lemma show_input_view_bar (s : QuickReadApp) :
  tokens (show_input_view s) = tokens s /\
  current_index (show_input_view s) = 0 /\
  progress_bar (show_input_view s) = 0.
Proof.
  unfold show_input_view.
  destruct (is_fullscreen (set_view 0 (stop_reading s)));
    repeat split; reflexivity.
Qed.

Lemma bar_show_input_view (s : QuickReadApp) : bar_shows (show_input_view s).
Proof.
  destruct (show_input_view_bar s) as (Et & Ei & Eb).
  intros Hne _. rewrite Et, Ei, Eb. apply progress_percent_start.
  rewrite Et in Hne. apply len_pos in Hne. lia.
Qed.

Lemma show_current_word_bar (s : QuickReadApp) :
  progress_bar (show_current_word U s) = progress_bar s.
Proof.
  unfold show_current_word.
  destruct (current_index s >=? len (tokens s)); [reflexivity|].
  unfold show_words.
  destruct (map word _) as [|w [|w2 r]]; reflexivity.
Qed.

Lemma bar_seek_to (position : Z) (s s' : QuickReadApp) :
  inv s -> tokens s <> [] -> 0 <= position <= len (tokens s) ->
  seek_to U position s = Some s' -> bar_shows s'.
Proof.
  intros Hi Hne Hp E.
  destruct (seek_to_eq U position s Hi Hne Hp) as (v & Ev & E').
  rewrite E' in E. clear E'. cbv zeta in E.
  set (s2 := progress_bar_setValue v (set_current_index position s)) in *.
  destruct (seek_state2_fields position v s)
    as (Et & _ & _ & Ei & _ & _ & _ & _).
  fold s2 in Et, Ei.
  assert (Hi2 : inv s2) by (apply inv_seek_state; assumption).
  destruct (is_playing s).
  - refine (bar_tick (timer_stop s2) s' Hi2 _ E).
    change (tokens (timer_stop s2)) with (tokens s2). now rewrite Et.
  - injection E as <-. intros Hne' Hlen'.
    destruct (same_engine_show_current_word U s2) as (Et' & Ei' & _).
    rewrite Et', Et in Hlen' |- *. rewrite Ei', Ei, show_current_word_bar.
    destruct (progress_percent_spec position (len (tokens s)))
      as (q & v' & _ & _ & Ev' & _ & Hv & _);
      [lia|pose proof (len_pos _ _ Hne); lia|].
    assert (v' = v) by congruence. subst v'.
    unfold s2. rewrite progress_bar_setValue_eq by exact Hv. exact Ev.
Qed.

Lemma bar_step (s s' : QuickReadApp) :
  good s -> sched s -> bar_shows s -> step U s s' -> bar_shows s'.
Proof.
  intros (Hi & Hd & _) Hs Hb Hstep. destruct Hstep as
    [s s' msec Ht E | s text s' E | s s' E | s s' E | s | s | s s' E | s s' E
    | s | s | s | s | s value s' Hv E | s value s' Hv E | s data s' Hd' E
    | s value Hv].
  - apply (bar_tick s); [exact Hi| |exact E].
    apply Hs. left. apply Hd. congruence.
  - apply update_estimate_same in E. subst s'. exact Hb.
  - destruct (strip (text_input s)) as [|c r] eqn:Es.
    + rewrite (start_reading_blank U s Es) in E. injection E as <-. exact Hb.
    + assert (Hne : strip (text_input s) <> []) by (rewrite Es; discriminate).
      apply (start_reading_text_inv U s s' Hne) in E.
      destruct (session_reset_fields s) as (Et & _).
      apply (bar_resume_reading (session_reset s));
        [now apply inv_session_reset| |exact E].
      rewrite Et. apply tokenize_text_nonempty. now rewrite strip_idem.
  - destruct (tokens_dec s) as [Hn|Hne].
    + unfold toggle_play_pause in E. rewrite Hn in E. now injection E as <-.
    + destruct (is_playing s) eqn:Ep.
      * rewrite (toggle_play_pause_pause U s Hne Ep) in E. injection E as <-.
        exact Hb.
      * rewrite (toggle_play_pause_resume U s Hne Ep) in E.
        now apply (bar_resume_reading s).
  - apply bar_stop_reading.
  - apply bar_show_input_view.
  - destruct (tokens_dec s) as [Hn|Hne].
    + rewrite (rewind_empty U s Hn) in E. now injection E as <-.
    + rewrite (rewind_eq U s Hne) in E.
      refine (bar_seek_to _ s s' Hi Hne _ E).
      destruct (seek_positions s Hi Hne) as [H _]. lia.
  - destruct (tokens_dec s) as [Hn|Hne].
    + rewrite (forward_empty U s Hn) in E. now injection E as <-.
    + rewrite (forward_eq U s Hne) in E.
      refine (bar_seek_to _ s s' Hi Hne _ E).
      destruct (seek_positions s Hi Hne) as [_ H]. lia.
  - unfold on_escape. destruct (is_fullscreen s); [exact Hb|].
    destruct (is_playing s); exact Hb.
  - exact Hb.
  - exact Hb.
  - exact Hb.
  - apply update_estimate_same in E. subst s'. exact Hb.
  - apply update_time_estimate_same in E. subst s'. exact Hb.
  - apply update_estimate_same in E. subst s'. exact Hb.
  - exact Hb.
Qed.

Lemma reachable_bar_shows (s : QuickReadApp) : reachable U s -> bar_shows s.
Proof.
  induction 1 as [|s s' Hr IH Hstep].
  - intros Hne. exfalso. apply Hne. vm_compute. reflexivity.
  - apply (bar_step s); try assumption.
    + now apply (reachable_good U).
    + now apply (reachable_sched U).
Qed.

Lemma play_state_fields (y : QuickReadApp) :
  let x := set_is_paused false (set_is_playing true y) in
  tokens x = tokens y /\ current_index x = current_index y /\
  words_per_flash x = words_per_flash y.
Proof. repeat split. Qed.

(** Where [start_reading] leaves a text that is not blank: one batch from
    the start, playing. *)
Lemma start_reading_position (s s' : QuickReadApp) :
  inv s -> strip (text_input s) <> [] -> start_reading U s = Some s' ->
  tokens s' = tokenize_text (strip (text_input s)) /\ tokens s' <> [] /\
  current_index s' = Z.min (words_per_flash s) (len (tokens s')) /\
  0 < current_index s' /\ is_playing s' = true.
Proof.
  intros Hi Hne E. pose proof Hi as (_ & _ & Hf & _).
  assert (Ht : tokenize_text (strip (text_input s)) <> []).
  { apply tokenize_text_nonempty. now rewrite strip_idem. }
  apply (start_reading_text_inv U s s' Hne) in E.
  destruct (resume_reading_session U s s' Ht E) as (Et' & Epl).
  destruct (session_reset_fields s) as (Et & Ei & _).
  assert (Hlt : current_index (session_reset s) < len (tokens (session_reset s))).
  { rewrite Et, Ei. apply len_pos in Ht. lia. }
  rewrite (resume_reading_inside U (session_reset s) Hlt) in E.
  destruct (play_state_fields (session_reset s)) as (Xt & Xi & Xf).
  set (x := set_is_paused false (set_is_playing true (session_reset s))) in *.
  assert (Hltx : current_index x < len (tokens x)) by now rewrite Xt, Xi.
  destruct (display_next_word_flash_inv U x s' Hltx E) as (v & msec & ->).
  destruct (after_flash_fields U v msec x) as (At & Ai & _).
  rewrite At, Ai, Xt, Xi, Xf, Et, Ei.
  change (words_per_flash (session_reset s)) with (words_per_flash s).
  split; [reflexivity|]. split; [exact Ht|]. split; [reflexivity|].
  split; [|exact Epl]. apply len_pos in Ht. lia.
Qed.

(** C9 (amended). The progress fraction is [position / length] as
    binary64 computes it: within [2 ^ (-50)] of the exact quotient, 0.0 at
    position 0 only and 1.0 at the end of the stream only, for a stream of
    at most [2 ^ 42] tokens.  The bar shows the integer part of the
    fraction times 100, computed in binary64 as well: a value from 0 to
    100 that is the integer part of the exact percentage or one less, and
    100 at the end of the stream only.  In every reachable state with a
    stream the bar shows that value for the current position.  The
    position is 0 after a stop and at the reset inside [start_reading];
    [start_reading] emits the first flash at once, so that the state it
    returns is one batch from the start, playing.  The tick that emits the
    last flash shows a full bar while the engine is still playing, and the
    terminal tick, which ends the session, shows it again. *)
Theorem progress_fraction :
  (forall p n, 0 <= p <= n -> 0 < n <= 2 ^ 42 ->
     exists q v,
       py_truediv p n = Some q /\ near q p n 50 /\
       progress_percent p n = Some v /\
       100 * p / n - 1 <= v <= 100 * p / n /\ 0 <= v <= 100 /\
       (q = S754_zero false <-> p = 0) /\ (q = ONE <-> p = n) /\
       (v = 100 <-> p = n)) /\
  (forall s, inv s -> tokens s <> [] -> len (tokens s) <= 2 ^ 42 ->
     exists q v,
       py_truediv (current_index s) (len (tokens s)) = Some q /\
       int_of_float (fmul q (float_of_Z 100)) = Some v /\
       update_progress s = Some (progress_bar_setValue v s) /\
       progress_bar (progress_bar_setValue v s) = v) /\
  (forall s, reachable U s -> tokens s <> [] -> len (tokens s) <= 2 ^ 42 ->
     progress_percent (current_index s) (len (tokens s)) =
       Some (progress_bar s) /\
     (progress_bar s = 100 <-> current_index s = len (tokens s)) /\
     (current_index s = 0 -> progress_bar s = 0)) /\
  (forall s, current_index (stop_reading s) = 0 /\
             progress_bar (stop_reading s) = 0 /\
             current_index (session_reset s) = 0 /\
             progress_bar (session_reset s) = 0) /\
  (forall s s', inv s -> strip (text_input s) <> [] ->
     start_reading U s = Some s' ->
     tokens s' <> [] /\
     current_index s' = Z.min (words_per_flash s) (len (tokens s')) /\
     0 < current_index s' /\ is_playing s' = true) /\
  (forall s, inv s -> is_playing s = true ->
     current_index s < len (tokens s) <= current_index s + words_per_flash s ->
     exists s', display_next_word U s = Some s' /\
                phase s' = Playing /\ current_index s' = len (tokens s') /\
                progress_bar s' = 100) /\
  (forall s, len (tokens s) <= current_index s ->
     exists s', display_next_word U s = Some s' /\
                is_playing s' = false /\ progress_bar s' = 100).
Proof.
  split; [exact progress_percent_spec|].
  split; [|split; [|split; [|split; [|split]]]].
  - intros s (Hr & _) Hne Hlen. pose proof (len_pos _ _ Hne) as Hl.
    destruct (progress_percent_spec (current_index s) (len (tokens s)))
      as (q & v & Eq & _ & Ev & _ & Hv & _); [lia|lia|].
    exists q, v. split; [exact Eq|].
    unfold progress_percent in Ev. rewrite Eq in Ev.
    cbv beta iota delta [bind] in Ev. split; [exact Ev|].
    split; [|now apply progress_bar_setValue_eq].
    rewrite (update_progress_eq s Hne). unfold progress_percent.
    rewrite Eq. cbv beta iota delta [bind]. now rewrite Ev.
  - intros s Hr Hne Hlen.
    pose proof (reachable_bar_shows s Hr Hne Hlen) as Eb.
    pose proof (reachable_good U s Hr) as ((Hi & _) & _).
    pose proof (len_pos _ _ Hne) as Hl.
    destruct (progress_percent_spec (current_index s) (len (tokens s)))
      as (q & v & _ & _ & Ev & _ & _ & _ & _ & H100); [lia|lia|].
    assert (v = progress_bar s) by congruence. subst v.
    split; [exact Eb|]. split; [exact H100|].
    intros E0. rewrite E0 in Eb.
    rewrite progress_percent_start in Eb by lia. congruence.
  - intros s. split; [reflexivity|]. split; [reflexivity|].
    split; apply (session_reset_fields s).
  - intros s s' Hi Hne E.
    destruct (start_reading_position s s' Hi Hne E) as (_ & H1 & H2 & H3 & H4).
    repeat split; assumption.
  - intros s H Hplay [Hlt Hle]. pose proof H as (Hi & _).
    destruct (display_next_word_flash U s H Hlt)
      as (v & m & d & msec & Ev & _ & _ & _ & _ & _ & E).
    replace (Z.min (current_index s + words_per_flash s) (len (tokens s)))
      with (len (tokens s)) in Ev by lia.
    rewrite progress_percent_end in Ev by lia. injection Ev as <-.
    exists (after_flash U 100 msec s). split; [exact E|].
    destruct (after_flash_fields U 100 msec s) as (Et & Ei & Epl & _).
    split; [apply phase_playing; congruence|]. split.
    + rewrite Ei, Et. lia.
    + apply progress_bar_after_flash. lia.
  - intros s Hle. exists (after_done s).
    split; [now apply display_next_word_done|]. split; reflexivity.
Qed.

End ProgressProperties.

(** * The further properties on the sample sessions *)

Lemma reachable_demo_finished : reachable ascii_only demo_finished.
Proof.
  apply (reach_step _ demo_last); [apply reachable_demo_last|].
  apply (step_tick ascii_only demo_last demo_finished 200); vm_decide.
Qed.

Lemma inv_of_reachable (s : QuickReadApp) : reachable ascii_only s -> inv s.
Proof. intros H. apply (reachable_good ascii_only s H). Qed.

(** X11 on the sample session. *)
Lemma reachable_schedule_witness :
  reachable ascii_only demo /\
  (is_playing demo = true <-> timer demo <> None) /\
  (is_playing demo = true -> is_paused demo = false) /\
  (is_playing demo = true \/ is_paused demo = true -> tokens demo <> []) /\
  (exists text, tokens demo = tokenize_text text).
Proof.
  split; [exact reachable_demo|].
  exact (reachable_schedule ascii_only demo reachable_demo).
Defined.

(** X12 on the sample session. *)
Lemma handlers_never_raise_witness :
  reachable ascii_only demo /\
  (exists s', display_next_word ascii_only demo = Some s') /\
  (exists s', start_reading ascii_only demo = Some s').
Proof.
  split; [exact reachable_demo|].
  destruct (handlers_never_raise ascii_only demo reachable_demo)
    as (H1 & H2 & _).
  split; [exact H1|exact H2].
Defined.

(** X13 on the sample session: two ticks from position 1 of five. *)
Lemma ticks_position_witness :
  inv demo /\
  exists s',
    ticks ascii_only 2 demo = Some s' /\ tokens s' = tokens demo /\
    words_per_flash s' = words_per_flash demo /\ wpm s' = wpm demo /\
    current_index s' =
    Z.min (current_index demo + Z.of_nat 2 * words_per_flash demo)
          (len (tokens demo)).
Proof.
  split; [exact inv_demo|].
  exact (ticks_position ascii_only 2 demo inv_demo).
Defined.

(** X14 on the sample session: the second tick shows the third word. *)
Lemma ticks_show_batches_witness :
  inv demo /\ words_ok demo /\
  current_index demo + Z.of_nat 1 * words_per_flash demo < len (tokens demo) /\
  ticks ascii_only 2 demo = Some (run (ticks ascii_only 2 demo)) /\
  labels (orp_display (run (ticks ascii_only 2 demo))) =
    compose ascii_only
      (batch demo (current_index demo + Z.of_nat 1 * words_per_flash demo)).
Proof.
  assert (H1 : words_ok demo)
    by exact (reachable_words_ok ascii_only demo reachable_demo).
  assert (H2 : current_index demo + Z.of_nat 1 * words_per_flash demo
               < len (tokens demo)) by vm_decide.
  assert (H3 : ticks ascii_only 2 demo = Some (run (ticks ascii_only 2 demo)))
    by vm_decide.
  split; [exact inv_demo|]. split; [exact H1|]. split; [exact H2|].
  split; [exact H3|].
  destruct (ticks_show_batches ascii_only 1 demo _ inv_demo H1 H2 H3)
    as (H & _).
  exact H.
Defined.

(** X15 on a session of two words: the third tick ends it. *)
Lemma ticks_finish_witness :
  inv (session "a b") /\
  len (tokens (session "a b")) <=
    current_index (session "a b") +
    Z.of_nat 2 * words_per_flash (session "a b") /\
  ticks ascii_only 3 (session "a b") =
    Some (run (ticks ascii_only 3 (session "a b"))) /\
  timer (run (ticks ascii_only 3 (session "a b"))) = None /\
  is_playing (run (ticks ascii_only 3 (session "a b"))) = false.
Proof.
  assert (H0 : reachable ascii_only (session "a b"))
    by (apply reachable_session; vm_decide).
  assert (H1 : inv (session "a b")) by exact (inv_of_reachable _ H0).
  assert (H2 : len (tokens (session "a b")) <=
               current_index (session "a b") +
               Z.of_nat 2 * words_per_flash (session "a b")) by vm_decide.
  assert (H3 : ticks ascii_only 3 (session "a b") =
               Some (run (ticks ascii_only 3 (session "a b")))) by vm_decide.
  split; [exact H1|]. split; [exact H2|]. split; [exact H3|].
  destruct (ticks_finish ascii_only 2 (session "a b") _ H1 H2 H3)
    as (_ & _ & _ & H4 & H5 & _).
  split; [exact H4|exact H5].
Defined.

(** X16 on the sample session: two ticks from position 1 show the second
    and the third word. *)
Lemma ticks_emit_batches_witness :
  inv demo /\ words_ok demo /\
  current_index demo + Z.of_nat 2 * words_per_flash demo
    < len (tokens demo) + words_per_flash demo /\
  exists s',
    ticks ascii_only 2 demo = Some s' /\
    flashes ascii_only 2 demo =
      map (compose ascii_only) (batches demo (current_index demo) 2) /\
    concat (batches demo (current_index demo) 2) =
      map word (py_slice (tokens demo) (current_index demo) (current_index s')) /\
    current_index s' =
      current_index demo + len (concat (batches demo (current_index demo) 2)).
Proof.
  assert (H1 : words_ok demo)
    by exact (reachable_words_ok ascii_only demo reachable_demo).
  assert (H2 : current_index demo + Z.of_nat 2 * words_per_flash demo
               < len (tokens demo) + words_per_flash demo) by vm_decide.
  split; [exact inv_demo|]. split; [exact H1|]. split; [exact H2|].
  exact (ticks_emit_batches ascii_only 2 demo inv_demo H1 H2).
Defined.

(** X17 on the session of twelve words. *)
Lemma pause_resume_is_tick_witness :
  inv demo12 /\ is_playing demo12 = true /\ is_paused demo12 = false /\
  current_index demo12 < len (tokens demo12) /\
  toggle_play_pause ascii_only (pause_reading demo12) =
  display_next_word ascii_only demo12.
Proof.
  assert (H0 : inv demo12) by exact (inv_of_reachable _ reachable_demo12).
  assert (H1 : is_playing demo12 = true) by vm_decide.
  assert (H2 : is_paused demo12 = false) by vm_decide.
  assert (H3 : current_index demo12 < len (tokens demo12)) by vm_decide.
  split; [exact H0|]. split; [exact H1|]. split; [exact H2|].
  split; [exact H3|].
  destruct (pause_resume_is_tick ascii_only demo12 H0 H1 H2 H3) as (_ & H & _).
  exact H.
Defined.


(** X19 on the paused session of twelve words. *)
Lemma seek_shows_target_witness :
  inv demo12_paused /\ words_ok demo12_paused /\
  tokens demo12_paused <> [] /\
  (exists s',
     rewind ascii_only demo12_paused = Some s' /\
     seeked ascii_only demo12_paused
       (Z.max 0 (current_index demo12_paused - seek_amount demo12_paused)) s').
Proof.
  assert (H1 : words_ok demo12_paused)
    by exact (reachable_words_ok ascii_only _ reachable_demo12_paused).
  assert (H2 : tokens demo12_paused <> []) by vm_decide.
  split; [exact inv_demo12_paused|]. split; [exact H1|]. split; [exact H2|].
  destruct (seek_shows_target ascii_only demo12_paused inv_demo12_paused H1 H2)
    as (_ & _ & H & _).
  exact H.
Defined.

(** The restart of the finished session, run: the word ["a"] with its ORP
    character in the message colour. *)
Example restart_in_message_colour :
  let s' := run (toggle_play_pause ascii_only demo_finished) in
  labels (orp_display demo_finished) = ([], DONE_MESSAGE, []) /\
  labels (orp_display s') = ([], lit "a", []) /\
  orp_style (orp_display s') = MessageCyan /\
  orp_style (orp_display demo) = HighlightRed.
Proof. intros s'. vm_decide. Qed.

(** ** More sample runs *)

Lemma reachable_demo_refont : reachable ascii_only demo_refont.
Proof.
  apply (reach_step _ demo_finished); [apply reachable_demo_finished|].
  apply (step_font ascii_only demo_finished 60). vm_decide.
Qed.

(** A tick in a finished session is not always without effect: after a
    move of the font slider the completion message is shown in the
    highlight colour, and the tick puts the message colour back. *)
Example finished_tick_recolours :
  reachable ascii_only demo_refont /\
  phase demo_refont = Finished /\
  labels (orp_display demo_refont) = ([], DONE_MESSAGE, []) /\
  orp_style (orp_display demo_refont) = HighlightRed /\
  display_next_word ascii_only demo_refont = Some demo_finished /\
  orp_style (orp_display demo_finished) = MessageCyan /\
  demo_finished <> demo_refont.
Proof.
  split; [exact reachable_demo_refont|].
  split; [vm_decide|]. split; [vm_decide|]. split; [vm_decide|].
  split; [vm_decide|]. split; [vm_decide|].
  intros H. apply (f_equal (fun x => orp_style (orp_display x))) in H.
  vm_compute in H. discriminate H.
Qed.

Lemma reachable_demo360 : reachable ascii_only demo360.
Proof.
  apply reachable_start; [|vm_decide].
  apply reachable_typed.
  apply (reach_step _ (run (on_wpm_changed 360 init))).
  - apply (reach_step _ init); [apply reach_init|].
    apply (step_wpm ascii_only init 360 (run (on_wpm_changed 360 init)));
      vm_decide.
  - apply (step_wpf ascii_only (run (on_wpm_changed 360 init)) 2
             (run (on_wpf_changed 2 (run (on_wpm_changed 360 init)))));
      [right; left; reflexivity | vm_decide].
Qed.

(** At 360 words per minute and two words per flash the exact delay of a
    plain flash is 200 ms; the binary64 product is just below it and 199
    ms are scheduled. *)
Example tick_delay_falls_short :
  reachable ascii_only demo360 /\
  wpm demo360 = 360 /\ words_per_flash demo360 = 2 /\
  timer demo360 = Some 199 /\
  exists d n dn,
    flash_delay 360 2 ONE = Some d /\ int_of_float d = Some 199 /\
    fltb d (float_of_Z 200) = true /\
    exact_delay 360 2 ONE = Some (n, dn) /\
    n / dn = 200 /\ n mod dn = 0 /\
    falls_short 360 ONE = true.
Proof.
  split; [exact reachable_demo360|].
  split; [vm_decide|]. split; [vm_decide|]. split; [vm_decide|].
  eexists. eexists. eexists.
  split; [vm_decide|]. split; [reflexivity|]. split; [reflexivity|].
  split; [vm_decide|]. split; vm_decide.
Qed.

(** 29 of 100: the exact percentage is 29, the binary64 product of the
    fraction by 100 is just below it, and 28 is shown. *)
Example progress_29_of_100 :
  progress_percent 29 100 = Some 28 /\ 100 * 29 / 100 = 29 /\
  progress_percent 28 100 = Some 28 /\ progress_percent 30 100 = Some 30.
Proof. vm_decide. Qed.

Lemma reachable_demo_hello : reachable ascii_only demo_hello.
Proof. apply reachable_session. vm_decide. Qed.

(** The state [start_reading] returns is never at position 0: on a text of
    one word it is playing with a full bar, on the sample text of five
    words it is at position 1 with the bar at 20. *)
Example progress_after_start :
  reachable ascii_only demo_hello /\
  (phase demo_hello, current_index demo_hello, len (tokens demo_hello),
   progress_bar demo_hello, timer demo_hello) =
    (Playing, 1, 1, 100, Some 200) /\
  (phase demo, current_index demo, len (tokens demo), progress_bar demo) =
    (Playing, 1, 5, 20).
Proof.
  split; [exact reachable_demo_hello|]. vm_decide.
Qed.
